(** * jd-invoice-merge: the merge planner and the merge executor

    A shallow embedding of [scripts/optimize.py] (the planner:
    [find_best_combo], [optimize]) and of the main loop of
    [scripts/batch_merge.py] (the executor: [load_progress],
    [batch_merge]), with the properties the specification states about
    them.  Further parts of the code follow with properties of their own:
    the summary of a Plan and [main] of the planner, the first step of
    [submit_one_invoice], [core/config.py], the two loops of
    [scripts/fetch_orders.py] and the choice of orders in
    [scripts/batch_single_hk.py].

    Amounts are Python floats.  The planner only ever adds them up with
    the built-in [sum], negates them, multiplies by the literal [1.10]
    and compares them with [<] and [>=]; the embedding is therefore
    written once over an interface [Number] that offers exactly these
    operations.  The implementation the program runs on is IEEE binary64
    (the kernel's primitive floats, i.e. what CPython computes); its
    comparisons are shown to be a lawful order on the floats that are not
    NaN, and the properties of the planner are stated for it.  Exact
    rationals are given as a second implementation, for the amounts the
    executor copies into its ledgers and to set the rounding of binary64
    against. *)

From Stdlib Require Import String Ascii.
From Stdlib Require Import List ZArith Bool Lia.
From Stdlib Require Import Permutation Sorted ListSet PeanoNat.
From Stdlib Require Import QArith Floats.
Import ListNotations.

Set Implicit Arguments.
Local Open Scope Z_scope.

(** ** Python built-ins used by the two scripts *)

(** [range(lo, hi)]. *)
Definition range (lo hi : Z) : list Z :=
  map (fun i => lo + Z.of_nat i) (seq 0 (Z.to_nat (hi - lo))).

(** [sorted(l, key=key)] / [l.sort(key=key)]: keys are compared with [<]
    only and the sort is stable.  [insert_sorted x l] puts [x] in front of
    the first element whose key is not smaller than the key of [x].  When
    [<] is a strict weak order on the keys there is only one stable sorted
    arrangement, so this is the list Python returns. *)
Fixpoint insert_sorted {A K : Type} (lt : K -> K -> bool) (key : A -> K)
    (x : A) (l : list A) : list A :=
  match l with
  | [] => [x]
  | y :: l' =>
      if lt (key y) (key x) then y :: insert_sorted lt key x l'
      else x :: y :: l'
  end.

Definition sorted {A K : Type} (lt : K -> K -> bool) (key : A -> K)
    (l : list A) : list A :=
  fold_right (insert_sorted lt key) [] l.

(** [itertools.combinations(l, k)], in the order itertools emits them. *)
Fixpoint combinations {A : Type} (l : list A) (k : nat) : list (list A) :=
  match k with
  | O => [[]]
  | S k' =>
      match l with
      | [] => []
      | x :: t => map (cons x) (combinations t k') ++ combinations t k
      end
  end.

(** [[l[j] for j in js]].  Every index the scripts use is in range. *)
Definition pick {A : Type} (l : list A) (js : list nat) : list A :=
  flat_map (fun j => match nth_error l j with Some a => [a] | None => [] end) js.

(** [enumerate(l)]: the elements of [l] with their positions. *)
Definition enumerate {A : Type} (l : list A) : list (nat * A) :=
  combine (seq 0 (length l)) l.

(** [l[:size]] and [l[-size:]] for a positive [size]. *)
Definition slice_to {A : Type} (l : list A) (size : Z) : list A :=
  firstn (Z.to_nat size) l.

Definition slice_last {A : Type} (l : list A) (size : Z) : list A :=
  skipn (length l - Z.to_nat size)%nat l.

(** A dict with integer keys.  Python keeps the keys in insertion order
    and [optimize] iterates over them, so the order is part of the value:
    an association list, first binding first. *)
Definition dict (V : Type) : Type := list (Z * V).

(** [d.get(k, [])] on a dict of lists ([d[k]] when the key is present). *)
Fixpoint dict_get {A : Type} (d : dict (list A)) (k : Z) : list A :=
  match d with
  | [] => []
  | (k', v) :: d' => if Z.eqb k' k then v else dict_get d' k
  end.

(** [d[k] = v]: overwrite in place, or append a new key. *)
Fixpoint dict_set {V : Type} (d : dict V) (k : Z) (v : V) : dict V :=
  match d with
  | [] => [(k, v)]
  | (k', v') :: d' =>
      if Z.eqb k' k then (k', v) :: d' else (k', v') :: dict_set d' k v
  end.

(** [d[k].append(x)] on a [defaultdict(list)]. *)
Fixpoint dict_append {A : Type} (d : dict (list A)) (k : Z) (x : A)
    : dict (list A) :=
  match d with
  | [] => [(k, [x])]
  | (k', v) :: d' =>
      if Z.eqb k' k then (k', v ++ [x]) :: d'
      else (k', v) :: dict_append d' k x
  end.

(** ** The arithmetic the planner relies on *)

Class Number (R : Type) : Type := {
  (** [sum(xs)]: Python's built-in, starting from the int [0] *)
  py_sum : list R -> R;
  (** unary minus *)
  num_neg : R -> R;
  (** [a < b] *)
  num_lt : R -> R -> bool;
  (** [a >= b] *)
  num_ge : R -> R -> bool;
  (** [a * b] *)
  num_mul : R -> R -> R;
  (** the literal [1.10] *)
  num_1_10 : R;
  (** [a < float('inf')] *)
  lt_inf : R -> bool;
  (** [a >= float('inf')] *)
  ge_inf : R -> bool
}.

(** [x >= x]: true of every number, false of a float that is NaN. *)
Definition ordered {R : Type} {N : Number R} (x : R) : Prop :=
  num_ge x x = true.

(** What the comparisons obey.  [<] is irreflexive and transitive; on the
    values that are numbers it is a strict weak order and [>=] is its
    complement; negation reverses the order; and what is below something
    that is below [float('inf')] is below [float('inf')] and not at or
    above it.  True of exact numbers and of binary64. *)
Class NumberOrder (R : Type) {N : Number R} : Prop := {
  lt_irrefl : forall a : R, num_lt a a = false;
  lt_trans : forall a b c : R,
      num_lt a b = true -> num_lt b c = true -> num_lt a c = true;
  lt_cotrans : forall a b c : R,
      ordered b ->
      num_lt a c = true -> num_lt a b = true \/ num_lt b c = true;
  ge_not_lt : forall a b : R,
      ordered a -> ordered b -> num_ge a b = negb (num_lt a b);
  ge_ordered : forall a b : R, num_ge a b = true -> ordered a /\ ordered b;
  lt_neg : forall a b : R, num_lt (num_neg a) (num_neg b) = num_lt b a;
  neg_ordered : forall a : R, ordered a -> ordered (num_neg a);
  lt_inf_trans : forall a b : R,
      num_lt a b = true -> lt_inf b = true -> lt_inf a = true;
  lt_inf_not_ge : forall a : R, lt_inf a = true -> ge_inf a = false
}.

Arguments NumberOrder R {N}.

(** ** scripts/optimize.py *)

Section Planner.

Context {R : Type} {N : Number R}.

(** An order dict, with the four keys [optimize] reads: [ivcAmount] is
    the amount as [float(o['ivcAmount'])] gives it, [canHk] the truth
    value of [o.get('canHk')]. *)
Record Order : Type := {
  orgId : Z;
  orderId : string;
  ivcAmount : R;
  canHk : bool
}.

Record Invoice : Type := {
  org_id : Z;
  org_name : string;
  order_ids : list string;
  amounts : list R;
  total : R
}.

Definition count (inv : Invoice) : nat := length (order_ids inv).

Record Plan : Type := {
  invoices : list Invoice;
  leftover : dict (list Order)
}.

Definition total_invoices (p : Plan) : nat := length (invoices p).

(** [best_sum]: [Inf] is the [float('inf')] it starts as, [Fin s] a sum
    found. *)
Inductive bound : Type :=
| Inf
| Fin (s : R).

(** [s < best_sum] *)
Definition lt_bound (s : R) (b : bound) : bool :=
  match b with Inf => lt_inf s | Fin r => num_lt s r end.

(** [s >= best_sum] *)
Definition ge_bound (s : R) (b : bound) : bool :=
  match b with Inf => ge_inf s | Fin r => num_ge s r end.

(** [best_sum < x]; nothing is above [float('inf')]. *)
Definition bound_lt (b : bound) (x : R) : bool :=
  match b with Inf => false | Fin r => num_lt r x end.

Definition Combo : Type := list (nat * R).

(** The body of [for combo in combinations(range(n), size)]; the state is
    [(best, best_sum, found_at_this_size)]. *)
Definition try_combo (amounts_with_idx : Combo) (target : R)
    (st : option Combo * bound * bool) (combo : list nat)
    : option Combo * bound * bool :=
  let '(best, best_sum, found) := st in
  let s := py_sum (pick (map snd amounts_with_idx) combo) in
  if num_ge s target && lt_bound s best_sum
  then (Some (pick amounts_with_idx combo), Fin s, true)
  else st.

(** [for size in range(...)], one size per step; the [break] returns. *)
Fixpoint size_loop (amounts_with_idx : Combo) (target : R) (sizes : list Z)
    (best : option Combo) (best_sum : bound) : option Combo :=
  match sizes with
  | [] => best
  | size :: rest =>
      let n := length amounts_with_idx in
      let amounts := map snd amounts_with_idx in
      if num_lt (py_sum (slice_to amounts size)) target
      then size_loop amounts_with_idx target rest best best_sum
      else if ge_bound (py_sum (slice_last amounts size)) best_sum
      then size_loop amounts_with_idx target rest best best_sum
      else
        let '(best', best_sum', found_at_this_size) :=
          fold_left (try_combo amounts_with_idx target)
                    (combinations (seq 0 n) (Z.to_nat size))
                    (best, best_sum, false) in
        if found_at_this_size && bound_lt best_sum' (num_mul target num_1_10)
        then best'
        else size_loop amounts_with_idx target rest best' best_sum'
  end.

Definition find_best_combo (amounts_with_idx : Combo) (target : R)
    (max_size : Z) : option Combo :=
  let n := Z.of_nat (length amounts_with_idx) in
  size_loop amounts_with_idx target
            (range 2 (Z.min (max_size + 1) (n + 1))) None Inf.

(** [hk_orders] grouped into [by_org], keys in order of first appearance. *)
Definition group_by_org (orders : list Order) : dict (list Order) :=
  fold_left (fun by_org o => dict_append by_org (orgId o) o)
            (filter canHk orders) [].

Definition pool_total (pool : list Order) : R :=
  py_sum (map ivcAmount pool).

(** The order in which [optimize] visits the groups. *)
Definition processing_order (by_org : dict (list Order)) : list Z :=
  sorted num_lt (fun k => num_neg (pool_total (dict_get by_org k)))
         (map fst by_org).

Definition in_used (used : set nat) (i : nat) : bool :=
  set_mem Nat.eq_dec i used.

(** [while True: ...] of one group.  Python has no bound on the number of
    rounds; [fuel] bounds them here and [None] means it ran out. *)
Fixpoint merge_loop (fuel : nat) (org : Z) (pool : list Order)
    (available : Combo) (target : R) (max_size : Z)
    (used : set nat) (invs : list Invoice)
    : option (set nat * list Invoice) :=
  match fuel with
  | O => None
  | S fuel' =>
      let remaining :=
        filter (fun ia => negb (in_used used (fst ia))) available in
      let remaining_total := py_sum (map snd remaining) in
      if num_lt remaining_total target then Some (used, invs)
      else
        let remaining := sorted num_lt (fun x => num_neg (snd x)) remaining in
        match find_best_combo remaining target max_size with
        | None => Some (used, invs)
        | Some combo =>
            let indices := map fst combo in
            let inv := {|
              org_id := org;
              org_name := EmptyString;
              order_ids := map orderId (pick pool indices);
              amounts := map ivcAmount (pick pool indices);
              total := py_sum (map snd combo)
            |} in
            merge_loop fuel' org pool available target max_size
              (fold_left (fun u idx => set_add Nat.eq_dec idx u) indices used)
              (invs ++ [inv])
        end
  end.

(** The body of [for org_id in sorted(by_org.keys(), ...)]. *)
Definition process_org (by_org : dict (list Order)) (target : R)
    (max_size : Z) (plan : Plan) (org : Z) : option Plan :=
  let pool := dict_get by_org org in
  let org_total := pool_total pool in
  if num_lt org_total target
  then Some {| invoices := invoices plan;
               leftover := dict_set (leftover plan) org pool |}
  else
    let available := enumerate (map ivcAmount pool) in
    match merge_loop (S (length pool)) org pool available target max_size
                     (empty_set nat) (invoices plan) with
    | None => None
    | Some (used, invs) =>
        let leftover_orders :=
          map snd (filter (fun ip => negb (in_used used (fst ip)))
                          (enumerate pool)) in
        Some {| invoices := invs;
                leftover :=
                  match leftover_orders with
                  | [] => leftover plan
                  | _ :: _ => dict_set (leftover plan) org leftover_orders
                  end |}
    end.

Fixpoint process_orgs (by_org : dict (list Order)) (target : R)
    (max_size : Z) (plan : Plan) (orgs : list Z) : option Plan :=
  match orgs with
  | [] => Some plan
  | org :: rest =>
      match process_org by_org target max_size plan org with
      | None => None
      | Some plan' => process_orgs by_org target max_size plan' rest
      end
  end.

(** [optimize(orders, target, max_size)], with [target] and [max_size]
    given (the caller's values or the configured ones).  [None]: no Plan
    is returned. *)
Definition optimize (orders : list Order) (target : R) (max_size : Z)
    : option Plan :=
  let by_org := group_by_org orders in
  process_orgs by_org target max_size
               {| invoices := []; leftover := [] |}
               (processing_order by_org).

End Planner.

Arguments Order R : clear implicits.
Arguments Invoice R : clear implicits.
Arguments Plan R : clear implicits.
Arguments bound R : clear implicits.
Arguments Combo R : clear implicits.

(** ** Two implementations of the arithmetic *)

(** IEEE binary64, as CPython's [float].  [py_sum] adds from left to
    right, starting from zero; CPython from 3.12 on compensates the
    rounding errors of the partial sums, which gives the same result
    whenever the partial sums are exact. *)
#[export] Instance float_Number : Number float := {|
  py_sum := fun l => fold_left PrimFloat.add l 0%float;
  num_neg := PrimFloat.opp;
  num_lt := PrimFloat.ltb;
  num_ge := fun a b => PrimFloat.leb b a;
  num_mul := PrimFloat.mul;
  num_1_10 := 0x1.199999999999ap+0%float;
  lt_inf := fun a => PrimFloat.ltb a infinity;
  ge_inf := fun a => PrimFloat.leb infinity a
|}.

(** Exact rationals: the arithmetic without rounding, overflow or NaN.
    This is not what the program computes; it serves for the amounts of
    the executor's ledgers, which the executor only copies, and for one
    comparison with binary64. *)
#[export] Instance Q_Number : Number Q := {|
  py_sum := fun l => fold_left Qplus l (0#1)%Q;
  num_neg := Qopp;
  num_lt := fun a b => negb (Qle_bool b a);
  num_ge := fun a b => Qle_bool b a;
  num_mul := Qmult;
  num_1_10 := (11#10)%Q;
  lt_inf := fun _ => true;
  ge_inf := fun _ => false
|}.

(** ** scripts/batch_merge.py

    [submit_one_invoice] is the whole conversation with the remote page
    for one invoice; the main loop only sees what it returns or raises, so
    it is a parameter here, together with the clock and with whether the
    websocket opens.  Logging and the pauses between attempts and between
    invoices touch neither the ledger nor the driver and are left out. *)

Section Executor.

Context {R : Type}.

(** An entry of the progress ledger. *)
Record ProgressRecord : Type := {
  rec_org_id : Z;
  rec_order_ids : list string;
  rec_total : R;
  rec_time : string;
  rec_message : string
}.

(** The ledger: the dict with the keys [completed], [failed], [skipped]. *)
Record Progress : Type := {
  completed : list ProgressRecord;
  failed : list ProgressRecord;
  skipped : list ProgressRecord
}.

(** [load_progress(path)]; [file] is what the progress file holds, [None]
    when there is no such file. *)
Definition load_progress (file : option Progress) : Progress :=
  match file with
  | Some p => p
  | None => {| completed := []; failed := []; skipped := [] |}
  end.

(** [tuple(sorted(inv["order_ids"]))]; identifiers are compared
    character by character, by character code. *)
Definition identity_key (ids : list string) : list string :=
  sorted String.ltb (fun id => id) ids.

Definition key_dec : forall a b : list string, {a = b} + {a <> b} :=
  list_eq_dec string_dec.

(** What a call of [submit_one_invoice] comes to: it returns
    [(success, message)] or it raises. *)
Inductive outcome : Type :=
| Returned (success : bool) (message : string)
| Raised (e : string).

(** [success] and [message] after the [try ... except] around the call. *)
Definition succeeded (o : outcome) : bool :=
  match o with
  | Returned success _ => success
  | Raised _ => false
  end.

Definition message_of (o : outcome) : string :=
  match o with
  | Returned _ message => message
  | Raised e => String.append "Exception: " e
  end.

(** What the run does to the world outside, in order: it opens the
    websocket, calls [submit_one_invoice] (the only code that talks to the
    driver), and writes the progress file. *)
Inductive event : Type :=
| Connect
| Submit (invoice : Invoice R) (attempt : Z) (o : outcome)
| Save (p : Progress).

(** The world outside.  The driver's answer and the clock may depend on
    everything that happened before. *)
Variable submit_one_invoice : list event -> Invoice R -> Z -> outcome.
Variable now : list event -> string.
Variable connect : bool.

(** [exec_cfg["retry_limit"]] *)
Variable retry_limit : Z.

(** The state of a run: the ledger in memory, the progress file, and the
    events so far. *)
Record state : Type := {
  progress : Progress;
  file : option Progress;
  trace : list event
}.

(** [for attempt in range(1, retry_limit + 1)], with its [break]. *)
Fixpoint attempt_loop (attempts : list Z) (invoice : Invoice R)
    (tr : list event) (success : bool) (message : string)
    : bool * string * list event :=
  match attempts with
  | [] => (success, message, tr)
  | attempt :: rest =>
      let o := submit_one_invoice tr invoice attempt in
      let success := succeeded o in
      let message := message_of o in
      let tr := tr ++ [Submit invoice attempt o] in
      if success then (success, message, tr)
      else attempt_loop rest invoice tr success message
  end.

(** The body of [for idx, invoice in enumerate(remaining)]. *)
Definition process_invoice (st : state) (invoice : Invoice R) : state :=
  let '(success, message, tr) :=
    attempt_loop (range 1 (retry_limit + 1)) invoice (trace st)
                 false EmptyString in
  let record := {|
    rec_org_id := org_id invoice;
    rec_order_ids := order_ids invoice;
    rec_total := total invoice;
    rec_time := now tr;
    rec_message := message
  |} in
  let p := progress st in
  let p' :=
    if success
    then {| completed := completed p ++ [record];
            failed := failed p; skipped := skipped p |}
    else {| completed := completed p;
            failed := failed p ++ [record]; skipped := skipped p |} in
  {| progress := p'; file := Some p'; trace := tr ++ [Save p'] |}.

(** [completed_set] *)
Definition completed_keys (p : Progress) : set (list string) :=
  fold_left (fun s inv => set_add key_dec (identity_key (rec_order_ids inv)) s)
            (completed p) (empty_set (list string)).

(** The invoices of the plan that are not in [completed_set]. *)
Definition remaining_invoices (invoices : list (Invoice R)) (p : Progress)
    : list (Invoice R) :=
  filter (fun inv =>
            negb (set_mem key_dec (identity_key (order_ids inv))
                          (completed_keys p)))
         invoices.

(** The run before its first event, and once the websocket is open. *)
Definition at_start (file : option Progress) : state :=
  {| progress := load_progress file; file := file; trace := [] |}.

Definition connected (file : option Progress) : state :=
  {| progress := load_progress file; file := file; trace := [Connect] |}.

(** [batch_merge]: [invoices] are the invoices of the plan file, [file]
    the progress file at the start.  When the websocket cannot be opened
    the exception leaves [batch_merge] before anything else happens. *)
Definition batch_merge (invoices : list (Invoice R))
    (file : option Progress) : state :=
  match remaining_invoices invoices (load_progress file) with
  | [] => at_start file
  | remaining =>
      if connect then fold_left process_invoice remaining (connected file)
      else connected file
  end.

End Executor.

Arguments ProgressRecord R : clear implicits.
Arguments Progress R : clear implicits.
Arguments event R : clear implicits.
Arguments state R : clear implicits.

(** ** Vocabulary of the specification *)

Section PlannerVocabulary.

Context {R : Type} {N : Number R}.

(** A record as a Plan shows it: its identifier and its amount. *)
Definition order_record (o : Order R) : string * R :=
  (orderId o, ivcAmount o).

(** The records of an Invoice: [zip(order_ids, amounts)]. *)
Definition inv_records (inv : Invoice R) : list (string * R) :=
  combine (order_ids inv) (amounts inv).

(** The eligible input records of owner [o], in input order. *)
Definition eligible_of (orders : list (Order R)) (o : Z) : list (Order R) :=
  filter (fun x => canHk x && (orgId x =? o)) orders.

(** Everything a Plan holds for owner [o]: the records of the invoices of
    [o], then the records of every leftover entry filed under [o]. *)
Definition plan_records (p : Plan R) (o : Z) : list (string * R) :=
  flat_map inv_records (filter (fun inv => org_id inv =? o) (invoices p)) ++
  map order_record
      (flat_map snd (filter (fun e => fst e =? o) (leftover p))).

(** What the search may return: a combination of [length combo] entries of
    the pool, two at least and [max_size] at most, summing to [target] or
    more. *)
Definition good_combo (pool : Combo R) (target : R) (max_size : Z)
    (combo : Combo R) : Prop :=
  (2 <= length combo)%nat /\
  Z.of_nat (length combo) <= max_size /\
  In combo (combinations pool (length combo)) /\
  num_ge (py_sum (map snd combo)) target = true.

(** The Invoice invariant, for an invoice cut from the group [pool] of
    owner [org]. *)
Definition invoice_ok (pool : list (Order R)) (org : Z) (target : R)
    (max_size : Z) (inv : Invoice R) : Prop :=
  org_id inv = org /\
  total inv = py_sum (amounts inv) /\
  length (order_ids inv) = length (amounts inv) /\
  (2 <= count inv)%nat /\
  Z.of_nat (count inv) <= max_size /\
  num_ge (total inv) target = true /\
  incl (inv_records inv) (map order_record pool).

End PlannerVocabulary.

Section ExecutorVocabulary.

Context {R : Type}.

(** The identity key of a ledger entry and of a planned invoice. *)
Definition record_key (r : ProgressRecord R) : list string :=
  identity_key (rec_order_ids r).

Definition invoice_key (inv : Invoice R) : list string :=
  identity_key (order_ids inv).

(** The identity key of [inv] is among the completed entries of [p]. *)
Definition already_completed (p : Progress R) (inv : Invoice R) : Prop :=
  In (invoice_key inv) (map record_key (completed p)).

(** [r] is a ledger entry for [inv]. *)
Definition record_of (inv : Invoice R) (r : ProgressRecord R) : Prop :=
  rec_org_id r = org_id inv /\
  rec_order_ids r = order_ids inv /\
  rec_total r = total inv.

(** The submissions of [inv], attempt by attempt, with their outcomes. *)
Definition submit_events (inv : Invoice R) (attempts : list Z)
    (outs : list outcome) : list (event R) :=
  map (fun ao => Submit inv (fst ao) (snd ao)) (combine attempts outs).

(** Each outcome in [outs] is what the driver answered to that attempt,
    given the events up to it. *)
Definition driver_answers
    (submit_one_invoice : list (event R) -> Invoice R -> Z -> outcome)
    (tr : list (event R)) (inv : Invoice R) (attempts : list Z)
    (outs : list outcome) : Prop :=
  forall i a o,
    nth_error attempts i = Some a ->
    nth_error outs i = Some o ->
    o = submit_one_invoice (tr ++ submit_events inv attempts (firstn i outs))
                           inv a.

(** No outcome of the list is a success. *)
Definition all_failed (outs : list outcome) : Prop :=
  Forall (fun o => succeeded o = false) outs.

(** How many submissions of a trace succeeded. *)
Fixpoint successes (tr : list (event R)) : nat :=
  match tr with
  | [] => 0
  | Submit _ _ o :: t => (if succeeded o then 1 else 0) + successes t
  | _ :: t => successes t
  end.

End ExecutorVocabulary.

(** *** The search rule, in the words of the specification (4.1, 3b-3c)

    A second description of [find_best_combo], written from the text and
    not from the code: which sizes are tried, which are skipped, what is
    kept and when the search stops.  [Search pool target ks best r]: with
    [best] in hand and the sizes [ks] still to try, the search ends with
    [r]. *)

Section SearchRule.

Context {R : Type} {N : Number R}.


(** Amounts in descending order: no amount is smaller than its right
    neighbour. *)
Fixpoint descending (amounts : list R) : bool :=
  match amounts with
  | a :: (b :: _) as rest => negb (num_lt a b) && descending rest
  | _ => true
  end.










End SearchRule.

(** [Before a b l]: some [a] in [l] has a [b] further to the right. *)
Inductive Before {A : Type} (a b : A) : list A -> Prop :=
| Before_here (t : list A) : In b t -> Before a b (a :: t)
| Before_skip (x : A) (t : list A) : Before a b t -> Before a b (x :: t).

(** An [a] occurs in [l] with no [b] to its left: read on the owner ids of
    the eligible input records, owner [a] shows up first. *)
Definition first_seen_before (a b : Z) (l : list Z) : Prop :=
  exists l1 l2, l = l1 ++ a :: l2 /\ ~ In b l1.

(** The total eligible amount of owner [o]. *)
Definition owner_total {R : Type} {N : Number R} (orders : list (Order R))
    (o : Z) : R :=
  pool_total (eligible_of orders o).

(** ** Concrete inputs *)

(** An eligible order of owner [org]. *)
Definition eligible_order {R : Type} (org : Z) (id : string) (a : R)
    : Order R :=
  {| orgId := org; orderId := id; ivcAmount := a; canHk := true |}.

(** One owner, amounts [70, 60, 50, 40] (section 8, property 4). *)
Definition four_orders_float : list (Order float) :=
  [ eligible_order 1 "A" 70%float; eligible_order 1 "B" 60%float;
    eligible_order 1 "C" 50%float; eligible_order 1 "D" 40%float ].

Definition four_orders_Q : list (Order Q) :=
  [ eligible_order 1 "A" (70#1)%Q; eligible_order 1 "B" (60#1)%Q;
    eligible_order 1 "C" (50#1)%Q; eligible_order 1 "D" (40#1)%Q ].

(** Two owners with the same total; owner 2 comes first in the input. *)
Definition tied_owners : list (Order float) :=
  [ eligible_order 2 "A" 50%float; eligible_order 2 "B" 50%float;
    eligible_order 1 "C" 50%float; eligible_order 1 "D" 50%float ].




(** The two invoices of the plan for [four_orders_Q]. *)
Definition invoice_BD : Invoice Q :=
  {| org_id := 1; org_name := EmptyString; order_ids := ["B"; "D"]%string;
     amounts := [60#1; 40#1]%Q; total := (100#1)%Q |}.

Definition invoice_AC : Invoice Q :=
  {| org_id := 1; org_name := EmptyString; order_ids := ["A"; "C"]%string;
     amounts := [70#1; 50#1]%Q; total := (120#1)%Q |}.

(** A ledger in which [invoice_BD] is completed already. *)
Definition ledger_BD_done : Progress Q :=
  {| completed :=
       [ {| rec_org_id := 1; rec_order_ids := ["B"; "D"]%string;
            rec_total := (100#1)%Q; rec_time := "2024-05-01T10:00:00";
            rec_message := "allSuccess=true" |} ];
     failed := []; skipped := [] |}.

(** A driver that accepts every submission; one that rejects every
    submission; one that times out on the first attempt and accepts the
    second; and a clock that stands still. *)
Definition driver_accepts (tr : list (event Q)) (inv : Invoice Q)
    (attempt : Z) : outcome :=
  Returned true "allSuccess=true".

Definition driver_rejects (tr : list (event Q)) (inv : Invoice Q)
    (attempt : Z) : outcome :=
  Returned false "Server rejected".

Definition driver_second_try (tr : list (event Q)) (inv : Invoice Q)
    (attempt : Z) : outcome :=
  if attempt =? 2 then Returned true "allSuccess=true"
  else Raised "timeout".

Definition still_clock (tr : list (event Q)) : string :=
  "2024-05-01T12:00:00".

(** ** More of scripts/optimize.py: the summary of a Plan, [main] *)

Section PlanSummary.

Context {R : Type} {N : Number R}.

(** [Plan.total_orders_used] *)
Definition total_orders_used (p : Plan R) : nat :=
  list_sum (map (@count R) (invoices p)).

(** [Plan.total_amount] *)
Definition total_amount (p : Plan R) : R :=
  py_sum (map (@total R) (invoices p)).

(** The records a Plan leaves over, all owners together. *)
Definition leftover_orders_of (p : Plan R) : list (Order R) :=
  flat_map snd (leftover p).

(** [done_ids] in [main]: the order ids of the completed ledger entries;
    no ids when there is no progress file. *)
Definition done_ids (progress_file : option (Progress R)) : set string :=
  match progress_file with
  | None => empty_set string
  | Some progress =>
      fold_left
        (fun ids inv =>
           fold_left (fun ids id => set_add string_dec id ids)
                     (rec_order_ids inv) ids)
        (completed progress) (empty_set string)
  end.

(** [orders] in [main]: the orders of the orders file that are not done. *)
Definition pending_orders (all_orders : list (Order R))
    (progress_file : option (Progress R)) : list (Order R) :=
  filter (fun o => negb (set_mem string_dec (orderId o)
                                 (done_ids progress_file)))
         all_orders.

(** The plan [main] prints and saves: [optimize(orders)] with the
    configured target and size. *)
Definition main_plan (all_orders : list (Order R))
    (progress_file : option (Progress R)) (target_amount : R)
    (max_orders_per_invoice : Z) : option (Plan R) :=
  optimize (pending_orders all_orders progress_file)
           target_amount max_orders_per_invoice.

(** Why the loop over a group stops with the records [lo] unused: their
    amounts sum below the target, or the search finds no combination
    among them. *)
Definition loop_stopped (target : R) (max_size : Z) (lo : list (Order R))
    : Prop :=
  num_lt (py_sum (map (@ivcAmount R) lo)) target = true \/
  exists remaining : Combo R,
    map snd remaining = map (@ivcAmount R) lo /\
    find_best_combo (sorted num_lt (fun x => num_neg (snd x)) remaining)
                    target max_size = None.

End PlanSummary.

(** ** Dicts with string keys *)

Definition str_dict (V : Type) : Type := list (string * V).

(** [d.get(k)] *)
Fixpoint str_get {V : Type} (d : str_dict V) (k : string) : option V :=
  match d with
  | [] => None
  | (k', v) :: d' => if String.eqb k' k then Some v else str_get d' k
  end.

(** [d[k] = v]: an existing key keeps its place, a new key goes last. *)
Fixpoint str_set {V : Type} (d : str_dict V) (k : string) (v : V)
    : str_dict V :=
  match d with
  | [] => [(k, v)]
  | (k', v') :: d' =>
      if String.eqb k' k then (k', v) :: d' else (k', v') :: str_set d' k v
  end.

(** [k in d] *)
Definition str_mem {V : Type} (d : str_dict V) (k : string) : bool :=
  existsb (String.eqb k) (map fst d).

(** ** More of scripts/batch_merge.py: the first step of
    [submit_one_invoice]

    The orders file holds, for each order, the keys the planner reads and
    [originalOrderInfo]; [Info] is the type of its values and [truthy]
    their truth value in Python. *)

Section Gather.

Context {R : Type}.

Variable Info : Type.
Variable truthy : Info -> bool.

(** An order of the orders file; [originalOrderInfo] is [None] when the
    key is missing. *)
Record OrderData : Type := {
  order_of : Order R;
  originalOrderInfo : option Info
}.

(** [all_orders_map = {o["orderId"]: o for o in all_orders}] *)
Definition all_orders_map (all_orders : list OrderData) : str_dict OrderData :=
  fold_left (fun m o => str_set m (orderId (order_of o)) o) all_orders [].

(** How the loop over [order_ids] ends: with [selected], or at the first
    order that is not in the map or has no [originalOrderInfo].  An order
    of the map has the key [orderId] at least, so [not order] holds only
    when the map has no such order. *)
Inductive gathered : Type :=
| Selected (selected : list OrderData)
| Not_found (oid : string)
| Missing_info (oid : string).

Fixpoint gather (orders_map : str_dict OrderData) (order_ids : list string)
    (selected : list OrderData) : gathered :=
  match order_ids with
  | [] => Selected selected
  | oid :: rest =>
      match str_get orders_map oid with
      | None => Not_found oid
      | Some order =>
          match originalOrderInfo order with
          | None => Missing_info oid
          | Some info =>
              if truthy info
              then gather orders_map rest (selected ++ [order])
              else Missing_info oid
          end
      end
  end.

(** What [submit_one_invoice] returns right away when the loop does not
    end with [selected]. *)
Definition gather_failure (g : gathered) : option (bool * string) :=
  match g with
  | Selected _ => None
  | Not_found oid =>
      Some (false, String.append "Order "
                     (String.append oid " not found in data"))
  | Missing_info oid =>
      Some (false, String.append "Order "
                     (String.append oid " missing originalOrderInfo"))
  end.

End Gather.

Arguments OrderData R Info : clear implicits.
Arguments gathered R Info : clear implicits.
Arguments Selected {R Info} selected.
Arguments Not_found {R Info} oid.
Arguments Missing_info {R Info} oid.

(** ** core/config.py *)

(** A JSON value. *)
#[warnings="-register-all"]
Inductive json : Type :=
| JNull
| JBool (b : bool)
| JNum (q : Q)
| JStr (s : string)
| JList (l : list json)
| JDict (d : list (string * json)).

(** [for k, v in override.items(): ...], by recursion on the value
    [override]; the dict [base] is updated key by key, a dict found under
    a key of [base] is merged in place. *)
Fixpoint merge_items (override : json) (base : str_dict json)
    : str_dict json :=
  match override with
  | JDict o =>
      (fix items (o : list (string * json)) (base : str_dict json)
         : str_dict json :=
         match o with
         | [] => base
         | (k, v) :: rest =>
             items rest
               match str_get base k, v with
               | Some (JDict b), JDict _ =>
                   str_set base k (JDict (merge_items v b))
               | _, _ => str_set base k v
               end
         end) o base
  | _ => base
  end.

(** [_deep_merge(base, override)] for a dict [override]: the dict [base]
    afterwards. *)
Definition _deep_merge (base override : str_dict json) : str_dict json :=
  merge_items (JDict override) base.

(** One round of the loop: [k in base and isinstance(base[k], dict) and
    isinstance(v, dict)], and the two branches. *)
Definition merge_entry (base : str_dict json) (k : string) (v : json)
    : str_dict json :=
  match str_get base k, v with
  | Some (JDict b), JDict o => str_set base k (JDict (_deep_merge b o))
  | _, _ => str_set base k v
  end.

Definition DEFAULT_CONFIG : str_dict json :=
  [ ("invoice"%string,
     JDict [ ("ivc_title"%string, JStr "");
             ("ivc_title_type"%string, JNum (4#1));
             ("ivc_type"%string, JNum (3#1));
             ("ivc_content"%string, JNum (1#1));
             ("change_reason"%string, JStr "抬头有误") ]);
    ("merge"%string,
     JDict [ ("target_amount"%string, JNum (100#1));
             ("max_orders_per_invoice"%string, JNum (10#1)) ]);
    ("execution"%string,
     JDict [ ("delay_min"%string, JNum (4#1));
             ("delay_max"%string, JNum (9#1));
             ("retry_limit"%string, JNum (2#1));
             ("cdp_port"%string, JNum (9444#1)) ]);
    ("paths"%string,
     JDict [ ("data_dir"%string, JStr "data");
             ("all_orders_file"%string, JStr "data/all_orders.json");
             ("all_tab_orders_file"%string, JStr "data/all_tab_orders.json");
             ("merge_plan_file"%string, JStr "data/merge_plan.json");
             ("merge_progress_file"%string, JStr "data/merge_progress.json");
             ("log_file"%string, JStr "data/batch_merge.log") ]) ].

(** What is found at a path: no file, a file that is not JSON, or a JSON
    value. *)
Inductive config_file : Type :=
| No_file
| Not_json
| Holds (user_config : json).

(** [load_config(path)] with the module's [_config] as state: the result
    ([None] when an exception leaves the function) and [_config]
    afterwards.  [_deep_copy(DEFAULT_CONFIG)] is a fresh copy of a value
    that JSON represents exactly. *)
Definition load_config (files : string -> config_file) (path : string)
    (_config : option (str_dict json))
    : option (str_dict json) * option (str_dict json) :=
  match _config with
  | Some config => (Some config, _config)
  | None =>
      let config := DEFAULT_CONFIG in
      match files path with
      | No_file => (Some config, Some config)
      | Not_json => (None, None)
      | Holds (JDict user_config) =>
          let config := _deep_merge config user_config in
          (Some config, Some config)
      | Holds _ => (None, None)
      end
  end.

(** [get_config()] *)
Definition get_config (files : string -> config_file)
    (_config : option (str_dict json))
    : option (str_dict json) * option (str_dict json) :=
  match _config with
  | None => load_config files "config.json" _config
  | Some config => (Some config, _config)
  end.

(** ** scripts/fetch_orders.py: the pages of [fetch_hk_tab] *)

Section FetchPages.

Variable Item : Type.

(** What the request for one page comes to. *)
Inductive page_reply : Type :=
| Raises
| Falsy_result
| Parse_error
| Error_reply
| Page_items (items : list Item).

(** The reply to the request for page [page]. *)
Variable request : Z -> page_reply.

(** [while True: ...]; the state is [all_data], [page] and the pages
    requested so far.  [None]: out of fuel; [Some (None, _)]: an exception
    left the loop. *)
Fixpoint fetch_loop (fuel : nat) (all_data : list Item) (page : Z)
    (requested : list Z) : option (option (list Item) * list Z) :=
  match fuel with
  | O => None
  | S fuel' =>
      let requested := requested ++ [page] in
      match request page with
      | Raises => Some (None, requested)
      | Falsy_result => Some (Some all_data, requested)
      | Parse_error => Some (Some all_data, requested)
      | Error_reply => Some (Some all_data, requested)
      | Page_items [] => Some (Some all_data, requested)
      | Page_items items =>
          fetch_loop fuel' (all_data ++ items) (page + 1) requested
      end
  end.

(** [fetch_hk_tab] *)
Definition fetch_hk_tab (fuel : nat) : option (option (list Item) * list Z) :=
  fetch_loop fuel [] 1 [].

(** The reply ends the loop without an exception. *)
Definition last_page (r : page_reply) : bool :=
  match r with
  | Falsy_result | Parse_error | Error_reply | Page_items [] => true
  | _ => false
  end.

(** The items of a reply that has some. *)
Definition page_items_of (r : page_reply) : list Item :=
  match r with
  | Page_items items => items
  | _ => []
  end.

End FetchPages.

Arguments Raises {Item}.
Arguments Falsy_result {Item}.
Arguments Parse_error {Item}.
Arguments Error_reply {Item}.

(** ** scripts/fetch_orders.py: the loading rounds of [fetch_all_tab] *)

Section LoadRounds.

(** What a round comes to: the number of cards and the finished flag of
    the reply ([r.get("cards", 0)] and the truth value of
    [r.get("finished", False)], so 0 and false for an empty reply);
    [None] when [run_js] or [json.loads] raises. *)
Variable round_reply : Z -> option (Z * bool).

(** How the loop is left: the range is used up, [break], or an exception
    of the round, which nothing in [fetch_all_tab] catches. *)
Inductive loop_end : Type :=
| Range_done
| By_break
| By_exception.

(** [for rnd in range(1, 200): ...] with the state [last_count], [stall]
    and the rounds asked so far.  The result: the rounds asked, the one
    that raised among them, and how the loop was left. *)
Fixpoint load_rounds (rounds : list Z) (last_count stall : Z)
    (asked : list Z) : list Z * loop_end :=
  match rounds with
  | [] => (asked, Range_done)
  | rnd :: rest =>
      let asked := asked ++ [rnd] in
      match round_reply rnd with
      | None => (asked, By_exception)
      | Some (cur, fin) =>
          let '(last_count, stall) :=
            if last_count <? cur then (cur, 0) else (last_count, stall + 1) in
          if fin || (3 <=? stall) then (asked, By_break)
          else load_rounds rest last_count stall asked
      end
  end.

Definition load_all : list Z * loop_end :=
  load_rounds (range 1 200) 0 0 [].

(** The cards and the flag a round showed, and the most cards any round
    before round [k] showed. *)
Definition cards_of (rnd : Z) : Z :=
  match round_reply rnd with Some (cur, _) => cur | None => 0 end.

Definition finished_at (rnd : Z) : bool :=
  match round_reply rnd with Some (_, fin) => fin | None => false end.

Definition most_cards_before (k : Z) : Z :=
  fold_left Z.max (map cards_of (range 1 k)) 0.

(** Round [k] is the third in a row that showed no more cards than had
    been seen before the three. *)
Definition stalled_at (k : Z) : bool :=
  (3 <=? k)
  && (cards_of (k - 2) <=? most_cards_before (k - 2))
  && (cards_of (k - 1) <=? most_cards_before (k - 2))
  && (cards_of k <=? most_cards_before (k - 2)).

(** Round [k] ends the loading: it raises, it reports finished, or it is
    the third stalled round in a row. *)
Definition stops_at (k : Z) : bool :=
  match round_reply k with
  | None => true
  | Some (_, fin) => fin || stalled_at k
  end.

(** How the loop is left when round [k] is the last one asked. *)
Definition loop_end_at (k : Z) : loop_end :=
  match round_reply k with
  | None => By_exception
  | Some _ => if stops_at k then By_break else Range_done
  end.

End LoadRounds.

(** ** scripts/batch_single_hk.py: the orders [work] goes through *)

Section SingleTargets.

Context {R : Type} {N : Number R}.

(** An order of the all-tab file: [tab_ivcStatus] is
    [str(o.get("ivcStatus"))], [tab_amount] is
    [float(o.get("actualInvoiceAmount") or o.get("ivcAmount") or 0)]. *)
Record TabOrder : Type := {
  tab_orderId : string;
  tab_canHk : bool;
  tab_ivcStatus : string;
  tab_amount : R
}.

(** [hk_ids] *)
Definition hk_ids (hk_orders : list (Order R)) : set string :=
  fold_left (fun ids o => set_add string_dec (orderId o) ids)
            hk_orders (empty_set string).

(** [targets], after the sort. *)
Definition targets (all_tab : list TabOrder) (hk_orders : list (Order R))
    (target_amount : R) : list TabOrder :=
  sorted num_lt (fun o => num_neg (tab_amount o))
    (filter (fun o =>
               negb (set_mem string_dec (tab_orderId o) (hk_ids hk_orders))
               && tab_canHk o
               && String.eqb (tab_ivcStatus o) "1"
               && num_ge (tab_amount o) target_amount)
            all_tab).

End SingleTargets.

Arguments TabOrder R : clear implicits.

(** ** More concrete inputs *)

(** A user configuration that sets one field of a section and adds a
    section of its own. *)
Definition user_config_example : str_dict json :=
  [ ("merge"%string, JDict [ ("target_amount"%string, JNum (200#1)) ]);
    ("proxy"%string, JStr "none") ].

(** Two pages of orders, then an empty page. *)
Definition two_pages (page : Z) : page_reply string :=
  if page =? 1 then Page_items ["A"; "B"]%string
  else if page =? 2 then Page_items ["C"]%string
  else Page_items [].

(** The four orders of the orders file, each with its
    [originalOrderInfo]. *)
Definition four_orders_data : list (OrderData Q string) :=
  map (fun o => {| order_of := o; originalOrderInfo := Some "info"%string |})
      four_orders_Q.

(** An order of the all-tab file that reaches the target by itself. *)
Definition single_order_E : TabOrder float :=
  {| tab_orderId := "E"; tab_canHk := true; tab_ivcStatus := "1";
     tab_amount := 150%float |}.

(** ** The order of binary64, as a rank

    A float that is not NaN is placed by its sign class, then its
    exponent, then its mantissa; [<] on floats is the lexicographic order
    of these ranks (this is how [SFcompare] is written). *)

Definition SF_rank (x : spec_float) : Z * Z * Z :=
  match x with
  | S754_nan => (0, 0, 0)
  | S754_zero _ => (0, 0, 0)
  | S754_infinity false => (2, 0, 0)
  | S754_infinity true => (-2, 0, 0)
  | S754_finite false m e => (1, e, Z.pos m)
  | S754_finite true m e => (-1, - e, - Z.pos m)
  end.

Definition rank_lt (a b : Z * Z * Z) : Prop :=
  let '(c1, e1, m1) := a in
  let '(c2, e2, m2) := b in
  c1 < c2 \/ (c1 = c2 /\ (e1 < e2 \/ (e1 = e2 /\ m1 < m2))).

Definition SF_number (x : spec_float) : bool :=
  match x with S754_nan => false | _ => true end.

Definition float_rank (x : float) : Z * Z * Z := SF_rank (Prim2SF x).

Definition float_number (x : float) : bool := SF_number (Prim2SF x).

(** * Properties *)

(** ** Facts about the built-ins *)

Lemma range_spec (lo hi x : Z) :
  In x (range lo hi) <-> lo <= x < hi.
Proof.
  unfold range. rewrite in_map_iff. split.
  - intros (i & <- & Hi). apply in_seq in Hi. lia.
  - intros H. exists (Z.to_nat (x - lo)). split; [lia|].
    apply in_seq. lia.
Qed.

Lemma combinations_length {A : Type} (l : list A) (k : nat) (c : list A) :
  In c (combinations l k) -> length c = k.
Proof.
  revert k c. induction l as [|x t IH]; intros [|k] c; simpl.
  - intros [<-|[]]. reflexivity.
  - intros [].
  - intros [<-|[]]. reflexivity.
  - rewrite in_app_iff, in_map_iff.
    intros [(c' & <- & Hc')|Hc].
    + simpl. f_equal. now apply IH.
    + now apply IH.
Qed.

Lemma combinations_incl {A : Type} (l : list A) (k : nat) (c : list A) :
  In c (combinations l k) -> incl c l.
Proof.
  revert k c. induction l as [|x t IH]; intros [|k] c; simpl.
  - intros [<-|[]]. apply incl_nil_l.
  - intros [].
  - intros [<-|[]]. apply incl_nil_l.
  - rewrite in_app_iff, in_map_iff.
    intros [(c' & <- & Hc')|Hc].
    + apply incl_cons; [now left|]. apply incl_tl. eauto.
    + apply incl_tl. eauto.
Qed.

Lemma combinations_NoDup {A : Type} (l : list A) (k : nat) (c : list A) :
  NoDup l -> In c (combinations l k) -> NoDup c.
Proof.
  revert k c. induction l as [|x t IH]; intros [|k] c Hnd; simpl.
  - intros [<-|[]]. constructor.
  - intros [].
  - intros [<-|[]]. constructor.
  - inversion Hnd as [|? ? Hx Ht]; subst.
    rewrite in_app_iff, in_map_iff.
    intros [(c' & <- & Hc')|Hc].
    + constructor; [|eauto].
      intros Hin. apply Hx. eapply combinations_incl; eauto.
    + eauto.
Qed.

Lemma combinations_map {A B : Type} (f : A -> B) (l : list A) (k : nat) :
  combinations (map f l) k = map (map f) (combinations l k).
Proof.
  revert k. induction l as [|x t IH]; intros [|k]; simpl; try reflexivity.
  rewrite map_app, !map_map, IH, (IH (S k)), map_map. reflexivity.
Qed.

Lemma pick_cons {A : Type} (l : list A) (j : nat) (js : list nat) :
  pick l (j :: js) =
  match nth_error l j with Some a => [a] | None => [] end ++ pick l js.
Proof. reflexivity. Qed.

Lemma pick_app {A : Type} (l : list A) (js js' : list nat) :
  pick l (js ++ js') = pick l js ++ pick l js'.
Proof. unfold pick. apply flat_map_app. Qed.

Lemma pick_map {A B : Type} (f : A -> B) (l : list A) (js : list nat) :
  pick (map f l) js = map f (pick l js).
Proof.
  induction js as [|j js IH]; [reflexivity|].
  rewrite !pick_cons, map_app, IH, nth_error_map.
  destruct (nth_error l j); reflexivity.
Qed.

Lemma pick_shift {A : Type} (x : A) (l : list A) (js : list nat) :
  pick (x :: l) (map S js) = pick l js.
Proof.
  induction js as [|j js IH]; [reflexivity|].
  simpl map. rewrite !pick_cons, IH. reflexivity.
Qed.

Lemma pick_all {A : Type} (l : list A) : pick l (seq 0 (length l)) = l.
Proof.
  induction l as [|x t IH]; [reflexivity|].
  simpl length. simpl seq. rewrite pick_cons. simpl.
  rewrite <- seq_shift, pick_shift, IH. reflexivity.
Qed.

Lemma pick_combinations {A : Type} (l : list A) (k : nat) :
  map (pick l) (combinations (seq 0 (length l)) k) = combinations l k.
Proof.
  revert k. induction l as [|x t IH]; intros [|k]; try reflexivity.
  simpl length. simpl seq. simpl combinations.
  rewrite <- seq_shift, !combinations_map, map_app, !map_map.
  f_equal.
  - rewrite <- IH, map_map. apply map_ext. intros c.
    rewrite pick_cons. simpl. now rewrite pick_shift.
  - rewrite <- IH. apply map_ext. intros c. apply pick_shift.
Qed.

Lemma pick_length_in_range {A : Type} (l : list A) (js : list nat) :
  (forall j, In j js -> (j < length l)%nat) ->
  length (pick l js) = length js.
Proof.
  induction js as [|j js IH]; intros H; [reflexivity|].
  rewrite pick_cons, length_app, IH by (intros; apply H; now right).
  destruct (nth_error l j) eqn:E; [reflexivity|].
  apply nth_error_None in E. specialize (H j (or_introl eq_refl)). lia.
Qed.

Lemma pick_Permutation {A : Type} (l : list A) (js js' : list nat) :
  Permutation js js' -> Permutation (pick l js) (pick l js').
Proof. intros H. unfold pick. now apply Permutation_flat_map. Qed.

Lemma insert_sorted_Permutation {A : Type} {K : Type} (lt : K -> K -> bool)
    (key : A -> K) (x : A) (l : list A) :
  Permutation (insert_sorted lt key x l) (x :: l).
Proof.
  induction l as [|y t IH]; simpl; [reflexivity|].
  destruct (lt (key y) (key x)); [|reflexivity].
  rewrite IH. apply perm_swap.
Qed.

Lemma sorted_Permutation {A : Type} {K : Type} (lt : K -> K -> bool) (key : A -> K)
    (l : list A) :
  Permutation (sorted lt key l) l.
Proof.
  induction l as [|x t IH]; simpl; [reflexivity|].
  rewrite insert_sorted_Permutation. now constructor.
Qed.


(** ** The combination search *)

Section SearchFacts.

Context {R : Type} {N : Number R}.

Implicit Types (awi : Combo R) (target : R).

Lemma fold_try_combo_inv (P : Combo R -> Prop) awi target cs st :
  (forall b, fst (fst st) = Some b -> P b) ->
  (forall c, In c cs ->
     num_ge (py_sum (map snd (pick awi c))) target = true ->
     P (pick awi c)) ->
  forall b,
    fst (fst (fold_left (try_combo awi target) cs st)) = Some b -> P b.
Proof.
  revert st. induction cs as [|c cs IH]; intros st Hst Hcs b; simpl.
  - apply Hst.
  - apply IH.
    + destruct st as [[best bs] found]. unfold try_combo.
      rewrite pick_map.
      destruct (num_ge _ target) eqn:Hge; simpl; [|exact Hst].
      destruct (lt_bound _ bs); simpl; [|exact Hst].
      intros b' [= <-]. apply Hcs; [now left|exact Hge].
    + intros c' Hc'. apply Hcs. now right.
Qed.

Lemma size_loop_inv (P : Combo R -> Prop) awi target sizes best bs r :
  (forall size c, In size sizes ->
     In c (combinations (seq 0 (length awi)) (Z.to_nat size)) ->
     num_ge (py_sum (map snd (pick awi c))) target = true ->
     P (pick awi c)) ->
  (forall b, best = Some b -> P b) ->
  size_loop awi target sizes best bs = Some r -> P r.
Proof.
  revert best bs. induction sizes as [|size rest IH]; intros best bs Hs Hb.
  - simpl. apply Hb.
  - simpl.
    assert (Hrest : forall size' c, In size' rest ->
              In c (combinations (seq 0 (length awi)) (Z.to_nat size')) ->
              num_ge (py_sum (map snd (pick awi c))) target = true ->
              P (pick awi c)).
    { intros size' c Hin. apply (Hs size' c). now right. }
    destruct (num_lt _ target); [now apply IH|].
    destruct (ge_bound _ bs); [now apply IH|].
    destruct (fold_left _ _ _) as [[best' bs'] found] eqn:E.
    assert (Hb' : forall b, best' = Some b -> P b).
    { intros b Hbest.
      apply (fold_try_combo_inv P awi target
               (combinations (seq 0 (length awi)) (Z.to_nat size))
               (best, bs, false)).
      - exact Hb.
      - intros c Hc. apply (Hs size c); [now left|exact Hc].
      - rewrite E. exact Hbest. }
    destruct (found && bound_lt bs' _).
    + apply Hb'.
    + now apply IH.
Qed.

Lemma find_best_combo_good awi target max_size combo :
  find_best_combo awi target max_size = Some combo ->
  good_combo awi target max_size combo.
Proof.
  unfold find_best_combo. apply size_loop_inv; [|discriminate].
  intros size c Hsize Hc Hge.
  apply range_spec in Hsize.
  assert (Hin : In (pick awi c) (combinations awi (Z.to_nat size))).
  { rewrite <- pick_combinations. now apply in_map. }
  pose proof (combinations_length _ _ _ Hin) as Hlen.
  unfold good_combo. rewrite Hlen. repeat split; try lia; assumption.
Qed.

End SearchFacts.

(** ** More list facts: positions, sets of positions *)

Lemma in_combine_seq {A : Type} (l : list A) (s i : nat) (a : A) :
  In (i, a) (combine (seq s (length l)) l) <->
  (s <= i)%nat /\ nth_error l (i - s) = Some a.
Proof.
  revert s. induction l as [|x t IH]; intros s; simpl.
  - split; [intros []|]. intros [_ H]. destruct (i - s)%nat; discriminate.
  - rewrite IH. split.
    + intros [[= <- <-]|[Hle Hnth]].
      * rewrite Nat.sub_diag. split; [lia|reflexivity].
      * split; [lia|]. replace (i - s)%nat with (S (i - S s)) by lia.
        exact Hnth.
    + intros [Hle Hnth]. destruct (Nat.eq_dec i s) as [->|Hne].
      * rewrite Nat.sub_diag in Hnth. simpl in Hnth. left. congruence.
      * right. split; [lia|].
        replace (i - s)%nat with (S (i - S s)) in Hnth by lia. exact Hnth.
Qed.

Lemma in_enumerate {A : Type} (l : list A) (i : nat) (a : A) :
  In (i, a) (enumerate l) <-> nth_error l i = Some a.
Proof.
  unfold enumerate. rewrite in_combine_seq, Nat.sub_0_r.
  split; [now intros [_ H]|]. intros H. split; [lia|exact H].
Qed.

Lemma map_fst_combine {A B : Type} (l : list A) (l' : list B) :
  length l = length l' -> map fst (combine l l') = l.
Proof.
  revert l'. induction l as [|x t IH]; intros [|y t']; simpl;
    try discriminate; try reflexivity.
  intros [= H]. now rewrite IH.
Qed.

Lemma map_snd_combine {A B : Type} (l : list A) (l' : list B) :
  length l = length l' -> map snd (combine l l') = l'.
Proof.
  revert l'. induction l as [|x t IH]; intros [|y t']; simpl;
    try discriminate; try reflexivity.
  intros [= H]. now rewrite IH.
Qed.

Lemma combine_map_map {A B C : Type} (f : A -> B) (g : A -> C) (l : list A) :
  combine (map f l) (map g l) = map (fun x => (f x, g x)) l.
Proof. induction l as [|x t IH]; simpl; [reflexivity|now rewrite IH]. Qed.

Lemma enumerate_fst {A : Type} (l : list A) :
  map fst (enumerate l) = seq 0 (length l).
Proof. unfold enumerate. apply map_fst_combine. now rewrite length_seq. Qed.

Lemma enumerate_snd {A : Type} (l : list A) : map snd (enumerate l) = l.
Proof. unfold enumerate. apply map_snd_combine. now rewrite length_seq. Qed.

Lemma enumerate_pick {A : Type} (l : list A) (c : list (nat * A)) :
  incl c (enumerate l) -> pick l (map fst c) = map snd c.
Proof.
  induction c as [|[i a] c IH]; intros H; [reflexivity|].
  simpl map. rewrite pick_cons, IH by (intros x Hx; apply H; now right).
  assert (Hi : nth_error l i = Some a) by (apply in_enumerate, H; now left).
  now rewrite Hi.
Qed.

Lemma pick_incl {A : Type} (l : list A) (js : list nat) : incl (pick l js) l.
Proof.
  intros x. unfold pick. rewrite in_flat_map. intros (j & _ & Hx).
  destruct (nth_error l j) eqn:E; [|destruct Hx].
  destruct Hx as [<-|[]]. eapply nth_error_In; eauto.
Qed.

Lemma enumerate_filter_pick {A : Type} (f : nat -> bool) (l : list A) :
  map snd (filter (fun ip => f (fst ip)) (enumerate l)) =
  pick l (filter f (seq 0 (length l))).
Proof.
  unfold enumerate.
  assert (H : forall js, incl js (seq 0 (length l)) ->
            map snd (filter (fun ip : nat * A => f (fst ip))
                            (combine js (pick l js))) = pick l (filter f js)).
  { induction js as [|j js IH]; intros Hjs; [reflexivity|].
    assert (Hj : (j < length l)%nat).
    { specialize (Hjs j (or_introl eq_refl)). apply in_seq in Hjs. lia. }
    apply nth_error_Some in Hj. rewrite pick_cons.
    destruct (nth_error l j) as [a|] eqn:E; [|congruence].
    cbn [app combine filter fst]. destruct (f j).
    - rewrite pick_cons, E. cbn [map snd app]. f_equal.
      apply IH. intros x Hx. apply Hjs. now right.
    - apply IH. intros x Hx. apply Hjs. now right. }
  rewrite <- (H (seq 0 (length l)) (incl_refl _)). now rewrite pick_all.
Qed.

Lemma NoDup_map_filter {A B : Type} (g : A -> B) (f : A -> bool) (l : list A) :
  NoDup (map g l) -> NoDup (map g (filter f l)).
Proof.
  induction l as [|x t IH]; simpl; intros H; [constructor|].
  inversion H as [|? ? Hx Ht]; subst.
  destruct (f x); simpl; [|now apply IH].
  constructor; [|now apply IH].
  intros Hin. apply Hx. apply in_map_iff in Hin.
  destruct Hin as (y & <- & Hy). apply in_map. now apply filter_In in Hy.
Qed.

Lemma in_used_In (used : set nat) (i : nat) :
  in_used used i = true <-> In i used.
Proof.
  unfold in_used. split.
  - apply set_mem_correct1.
  - apply set_mem_correct2.
Qed.

Lemma fold_set_add_In (js : list nat) (u : set nat) (i : nat) :
  In i (fold_left (fun u idx => set_add Nat.eq_dec idx u) js u) <->
  In i u \/ In i js.
Proof.
  revert u. induction js as [|j js IH]; intros u; simpl.
  - tauto.
  - rewrite IH, set_add_iff. intuition congruence.
Qed.

Lemma fold_set_add_NoDup (js : list nat) (u : set nat) :
  NoDup u -> NoDup (fold_left (fun u idx => set_add Nat.eq_dec idx u) js u).
Proof.
  revert u. induction js as [|j js IH]; intros u H; simpl; [exact H|].
  apply IH. now apply set_add_nodup.
Qed.

Lemma filter_length_lt {A : Type} (f g : A -> bool) (l : list A) (x : A) :
  (forall y, f y = true -> g y = true) ->
  In x l -> g x = true -> f x = false ->
  (length (filter f l) < length (filter g l))%nat.
Proof.
  intros Hfg. induction l as [|y t IH]; simpl; [intros []|].
  assert (Hle : (length (filter f t) <= length (filter g t))%nat).
  { clear IH. induction t as [|z t IH]; simpl; [lia|].
    destruct (f z) eqn:Ef.
    - rewrite (Hfg z Ef). simpl. lia.
    - destruct (g z); simpl; lia. }
  intros [->|Hin] Hg Hf.
  - rewrite Hg, Hf. simpl. lia.
  - specialize (IH Hin Hg Hf). destruct (f y) eqn:Ef.
    + rewrite (Hfg y Ef). simpl. lia.
    + destruct (g y); simpl; lia.
Qed.

(** ** The loop over one owner's group *)

Section MergeLoopFacts.

Context {R : Type} {N : Number R}.

Implicit Types (pool : list (Order R)) (target : R) (used : set nat).

(** What a found combination is made of: distinct positions of the pool
    that are not used yet, each with the amount at that position. *)
Lemma found_combo_facts pool target max_size used combo :
  let remaining :=
    filter (fun ia : nat * R => negb (in_used used (fst ia)))
           (enumerate (map ivcAmount pool)) in
  find_best_combo (sorted num_lt (fun x => num_neg (snd x)) remaining)
                  target max_size = Some combo ->
  good_combo (sorted num_lt (fun x => num_neg (snd x)) remaining)
             target max_size combo /\
  NoDup (map fst combo) /\
  (forall i, In i (map fst combo) ->
     (i < length pool)%nat /\ ~ In i used) /\
  map snd combo = map ivcAmount (pick pool (map fst combo)).
Proof.
  intros remaining Hfind.
  pose proof (find_best_combo_good _ _ _ Hfind) as Hgood.
  destruct Hgood as (H2 & Hmax & Hin & Hge).
  assert (Hperm := sorted_Permutation num_lt
                     (fun x : nat * R => num_neg (snd x)) remaining).
  assert (Hincl : incl combo remaining).
  { intros x Hx. eapply Permutation_in; [exact Hperm|].
    eapply combinations_incl; eauto. }
  assert (Havail : incl combo (enumerate (map ivcAmount pool))).
  { intros x Hx. apply Hincl in Hx. now apply filter_In in Hx. }
  split; [repeat split; assumption|]. split; [|split].
  - apply combinations_NoDup
      with (l := map fst (sorted num_lt (fun x : nat * R => num_neg (snd x))
                                 remaining)) (k := length combo).
    + eapply Permutation_NoDup.
      * apply Permutation_map. symmetry. exact Hperm.
      * apply NoDup_map_filter. rewrite enumerate_fst. apply seq_NoDup.
    + rewrite combinations_map. now apply in_map.
  - intros i Hi. apply in_map_iff in Hi. destruct Hi as ([i' a] & <- & Hx).
    simpl. apply Hincl, filter_In in Hx. destruct Hx as [Hav Hnot].
    split.
    + apply in_enumerate in Hav.
      assert (Hlt : (i' < length (map ivcAmount pool))%nat).
      { apply nth_error_Some. congruence. }
      now rewrite length_map in Hlt.
    + simpl in Hnot. apply negb_true_iff in Hnot.
      intros Hin'. apply in_used_In in Hin'. congruence.
  - rewrite <- pick_map. symmetry. now apply enumerate_pick.
Qed.

Lemma merge_loop_spec fuel org pool target max_size used invs used' invs' :
  merge_loop fuel org pool (enumerate (map ivcAmount pool)) target max_size
             used invs = Some (used', invs') ->
  NoDup used ->
  (forall i, In i used -> (i < length pool)%nat) ->
  exists new,
    invs' = invs ++ new /\
    NoDup used' /\
    (forall i, In i used' -> (i < length pool)%nat) /\
    Permutation (flat_map inv_records new ++ map order_record (pick pool used))
                (map order_record (pick pool used')) /\
    Forall (invoice_ok pool org target max_size) new.
Proof.
  revert used invs. induction fuel as [|fuel IH]; intros used invs;
    [discriminate|].
  simpl. intros Hrun Hnd Hbound.
  destruct (num_lt _ target).
  { injection Hrun as <- <-. exists []. rewrite app_nil_r.
    repeat split; auto. }
  destruct (find_best_combo _ target max_size) as [combo|] eqn:Hfind.
  2:{ injection Hrun as <- <-. exists []. rewrite app_nil_r.
      repeat split; auto. }
  destruct (found_combo_facts pool target max_size used Hfind)
    as ((H2 & Hmax & _ & Hge) & Hndc & Hidx & Hamt).
  set (indices := map fst combo) in *.
  set (inv := {| org_id := org; org_name := EmptyString;
                 order_ids := map orderId (pick pool indices);
                 amounts := map ivcAmount (pick pool indices);
                 total := py_sum (map snd combo) |}) in *.
  set (used1 := fold_left (fun u idx => set_add Nat.eq_dec idx u) indices used)
    in *.
  assert (Hnd1 : NoDup used1) by now apply fold_set_add_NoDup.
  assert (Hbound1 : forall i, In i used1 -> (i < length pool)%nat).
  { intros i Hi. apply fold_set_add_In in Hi. destruct Hi as [Hi|Hi]; auto.
    now apply Hidx. }
  destruct (IH _ _ Hrun Hnd1 Hbound1)
    as (new & -> & Hnd' & Hbound' & Hperm & Hok).
  assert (Hrec : inv_records inv = map order_record (pick pool indices)).
  { unfold inv_records. simpl. apply combine_map_map. }
  assert (Hlen : length (pick pool indices) = length combo).
  { rewrite pick_length_in_range.
    - unfold indices. apply length_map.
    - intros j Hj. now apply Hidx. }
  exists (inv :: new). split; [now rewrite <- app_assoc|].
  split; [exact Hnd'|]. split; [exact Hbound'|]. split.
  - rewrite <- Hperm. simpl flat_map. rewrite Hrec.
    assert (Hu : Permutation used1 (used ++ indices)).
    { apply NoDup_Permutation; [exact Hnd1| |].
      - apply NoDup_app; [exact Hnd|exact Hndc|].
        intros i Hi Hi'. now apply (Hidx i).
      - intros i. unfold used1. rewrite fold_set_add_In, in_app_iff. tauto. }
    rewrite (pick_Permutation pool Hu), pick_app, map_app.
    rewrite <- app_assoc.
    etransitivity; [apply Permutation_app_comm|]. now rewrite <- app_assoc.
  - constructor; [|exact Hok].
    unfold invoice_ok, count. simpl. rewrite Hrec, Hamt, !length_map, Hlen.
    repeat split; auto.
    + now rewrite <- Hamt.
    + intros x Hx. apply in_map_iff in Hx. destruct Hx as (o & <- & Ho).
      apply in_map. eapply pick_incl; eauto.
Qed.

(** More fuel changes nothing once the loop has returned. *)
Lemma merge_loop_fuel_irrelevant fuel fuel' org pool (available : Combo R)
    target max_size used invs r :
  merge_loop fuel org pool available target max_size used invs = Some r ->
  (fuel <= fuel')%nat ->
  merge_loop fuel' org pool available target max_size used invs = Some r.
Proof.
  revert fuel' used invs. induction fuel as [|fuel IH];
    intros fuel' used invs; [discriminate|].
  destruct fuel' as [|fuel']; [lia|]. simpl. intros Hrun Hle.
  destruct (num_lt _ target); [exact Hrun|].
  destruct (find_best_combo _ target max_size); [|exact Hrun].
  apply IH; [exact Hrun|lia].
Qed.

(** Enough fuel: one round more than there are positions left. *)
Lemma merge_loop_returns fuel org pool target max_size used invs :
  (length (filter (fun ia : nat * R => negb (in_used used (fst ia)))
                  (enumerate (map ivcAmount pool))) < fuel)%nat ->
  exists r,
    merge_loop fuel org pool (enumerate (map ivcAmount pool)) target max_size
               used invs = Some r.
Proof.
  revert used invs. induction fuel as [|fuel IH]; intros used invs Hfuel;
    [lia|].
  simpl. destruct (num_lt _ target); [eauto|].
  destruct (find_best_combo _ target max_size) as [combo|] eqn:Hfind;
    [|eauto].
  destruct (found_combo_facts pool target max_size used Hfind)
    as ((H2 & _ & Hin & _) & _ & Hidx & _).
  apply IH.
  destruct combo as [|[i a] combo]; [simpl in H2; lia|].
  assert (Hx : In (i, a)
                  (filter (fun ia : nat * R => negb (in_used used (fst ia)))
                          (enumerate (map ivcAmount pool)))).
  { eapply Permutation_in;
      [apply (sorted_Permutation num_lt (fun x : nat * R => num_neg (snd x)))|].
    eapply combinations_incl; [exact Hin|]. now left. }
  apply filter_In in Hx. destruct Hx as [Hav Hnot].
  eapply Nat.lt_le_trans; [|apply Nat.lt_succ_r; exact Hfuel].
  apply filter_length_lt with (x := (i, a)); auto.
  - intros [j b]. simpl. rewrite !negb_true_iff. intros Hj.
    destruct (in_used used j) eqn:E; [|reflexivity].
    apply in_used_In in E.
    assert (Hj' : in_used (fold_left (fun u idx => set_add Nat.eq_dec idx u)
                                     (i :: map fst combo) used) j = true).
    { apply in_used_In, fold_set_add_In. now left. }
    simpl in Hj'. congruence.
  - simpl. apply negb_false_iff, in_used_In.
    apply (fold_set_add_In (i :: map fst combo)). right. now left.
Qed.

End MergeLoopFacts.

(** ** Dicts *)

Lemma dict_get_append {A : Type} (d : dict (list A)) (k o : Z) (x : A) :
  dict_get (dict_append d k x) o =
  if k =? o then dict_get d o ++ [x] else dict_get d o.
Proof.
  induction d as [|[k' v] d IH]; simpl.
  - destruct (k =? o); reflexivity.
  - destruct (k' =? k) eqn:Ek; simpl.
    + apply Z.eqb_eq in Ek. subst k'.
      destruct (k =? o); reflexivity.
    + destruct (k' =? o) eqn:Eo; [|exact IH].
      destruct (k =? o) eqn:Eko; [|reflexivity].
      apply Z.eqb_eq in Eo, Eko. apply Z.eqb_neq in Ek. congruence.
Qed.

Lemma dict_append_keys {A : Type} (d : dict (list A)) (k : Z) (x : A) :
  map fst (dict_append d k x) =
  if existsb (Z.eqb k) (map fst d) then map fst d else map fst d ++ [k].
Proof.
  induction d as [|[k' v] d IH]; simpl; [reflexivity|].
  rewrite (Z.eqb_sym k k').
  destruct (k' =? k); simpl; [reflexivity|].
  rewrite IH. destruct (existsb _ _); reflexivity.
Qed.

Lemma existsb_eqb_In (k : Z) (l : list Z) :
  existsb (Z.eqb k) l = true <-> In k l.
Proof.
  rewrite existsb_exists. split.
  - intros (x & Hx & E). apply Z.eqb_eq in E. now subst.
  - intros H. exists k. split; [exact H|apply Z.eqb_refl].
Qed.

Lemma dict_set_fresh {V : Type} (d : dict V) (k : Z) (v : V) :
  ~ In k (map fst d) -> dict_set d k v = d ++ [(k, v)].
Proof.
  induction d as [|[k' v'] d IH]; simpl; intros H; [reflexivity|].
  destruct (k' =? k) eqn:E.
  - apply Z.eqb_eq in E. tauto.
  - rewrite IH by tauto. reflexivity.
Qed.

(** ** Grouping by owner *)

Section GroupFacts.

Context {R : Type} {N : Number R}.

Implicit Types (orders : list (Order R)) (by_org : dict (list (Order R))).

Lemma fold_dict_append_get (l : list (Order R)) by_org (o : Z) :
  dict_get (fold_left (fun d x => dict_append d (orgId x) x) l by_org) o =
  dict_get by_org o ++ filter (fun x => orgId x =? o) l.
Proof.
  revert by_org. induction l as [|x l IH]; intros by_org; simpl.
  - now rewrite app_nil_r.
  - rewrite IH, dict_get_append.
    destruct (orgId x =? o); [now rewrite <- app_assoc|reflexivity].
Qed.

Lemma group_by_org_get orders (o : Z) :
  dict_get (group_by_org orders) o = eligible_of orders o.
Proof.
  unfold group_by_org, eligible_of. rewrite fold_dict_append_get. simpl.
  induction orders as [|x l IH]; simpl; [reflexivity|].
  destruct (canHk x); simpl; [|exact IH].
  destruct (orgId x =? o); [now rewrite IH|exact IH].
Qed.

Lemma fold_dict_append_keys_NoDup (l : list (Order R)) by_org :
  NoDup (map fst by_org) ->
  NoDup (map fst (fold_left (fun d x => dict_append d (orgId x) x) l by_org)).
Proof.
  revert by_org. induction l as [|x l IH]; intros by_org H; simpl; [exact H|].
  apply IH. rewrite dict_append_keys.
  destruct (existsb _ _) eqn:E; [exact H|].
  apply NoDup_app; [exact H|repeat constructor; intros []|].
  intros k Hk [<-|[]].
  apply existsb_eqb_In in Hk. congruence.
Qed.

Lemma fold_dict_append_keys_In (l : list (Order R)) by_org (o : Z) :
  In o (map fst (fold_left (fun d x => dict_append d (orgId x) x) l by_org))
  <-> In o (map fst by_org) \/ In o (map orgId l).
Proof.
  revert by_org. induction l as [|x l IH]; intros by_org; simpl; [tauto|].
  rewrite IH, dict_append_keys.
  destruct (existsb _ _) eqn:E.
  - apply existsb_eqb_In in E. intuition congruence.
  - rewrite in_app_iff. simpl. intuition congruence.
Qed.

Lemma group_by_org_keys_NoDup orders :
  NoDup (map fst (group_by_org orders)).
Proof. apply fold_dict_append_keys_NoDup. constructor. Qed.

Lemma group_by_org_keys_In orders (o : Z) :
  In o (map fst (group_by_org orders)) <->
  In o (map orgId (filter canHk orders)).
Proof.
  unfold group_by_org. rewrite fold_dict_append_keys_In. simpl. tauto.
Qed.

Lemma eligible_of_absent orders (o : Z) :
  ~ In o (map orgId (filter canHk orders)) -> eligible_of orders o = [].
Proof.
  unfold eligible_of. induction orders as [|x l IH]; simpl; [reflexivity|].
  destruct (canHk x); simpl; [|exact IH].
  intros H. destruct (orgId x =? o) eqn:E.
  - apply Z.eqb_eq in E. tauto.
  - apply IH. tauto.
Qed.

Lemma processing_order_Permutation by_org :
  Permutation (processing_order by_org) (map fst by_org).
Proof. unfold processing_order. apply sorted_Permutation. Qed.

End GroupFacts.

(** ** One owner, then all owners *)

Section PlanFacts.

Context {R : Type} {N : Number R}.

Implicit Types (by_org : dict (list (Order R))) (plan : Plan R) (target : R).

Lemma used_and_unused_cover (n : nat) (used : set nat) :
  NoDup used ->
  (forall i, In i used -> (i < n)%nat) ->
  Permutation (seq 0 n)
              (used ++ filter (fun i => negb (in_used used i)) (seq 0 n)).
Proof.
  intros Hnd Hb. apply NoDup_Permutation.
  - apply seq_NoDup.
  - apply NoDup_app; [exact Hnd|apply NoDup_filter, seq_NoDup|].
    intros i Hi Hi'. apply filter_In in Hi'. destruct Hi' as [_ Hi'].
    apply negb_true_iff in Hi'. apply in_used_In in Hi. congruence.
  - intros i. rewrite in_app_iff, filter_In, in_seq, negb_true_iff. split.
    + intros Hi. destruct (in_used used i) eqn:E.
      * left. now apply in_used_In.
      * right. auto.
    + intros [Hi|[Hi _]]; [|exact Hi]. specialize (Hb i Hi). lia.
Qed.

Lemma process_org_spec by_org target max_size plan org plan' :
  process_org by_org target max_size plan org = Some plan' ->
  exists new lo,
    invoices plan' = invoices plan ++ new /\
    Forall (invoice_ok (dict_get by_org org) org target max_size) new /\
    (leftover plan' = dict_set (leftover plan) org lo \/
     lo = [] /\ leftover plan' = leftover plan) /\
    Permutation (flat_map inv_records new ++ map order_record lo)
                (map order_record (dict_get by_org org)).
Proof.
  unfold process_org. set (pool := dict_get by_org org).
  destruct (num_lt (pool_total pool) target).
  { intros [= <-]. exists [], pool. simpl. rewrite app_nil_r.
    repeat split; auto. }
  destruct (merge_loop _ _ _ _ _ _ _ _) as [[used invs]|] eqn:Hloop;
    [|discriminate].
  intros [= <-]. simpl.
  apply merge_loop_spec in Hloop; [|constructor|intros i []].
  destruct Hloop as (new & -> & Hnd & Hb & Hperm & Hok).
  rewrite (enumerate_filter_pick (fun i => negb (in_used used i)) pool).
  set (lo := pick pool (filter _ _)).
  exists new, lo. split; [reflexivity|]. split; [exact Hok|]. split.
  - destruct lo; [right|left]; auto.
  - simpl in Hperm. rewrite app_nil_r in Hperm. rewrite Hperm.
    unfold lo. rewrite <- map_app, <- pick_app.
    apply Permutation_map.
    rewrite <- (pick_all pool) at 3. apply pick_Permutation.
    symmetry. now apply used_and_unused_cover.
Qed.

Lemma process_org_returns by_org target max_size plan org :
  exists plan', process_org by_org target max_size plan org = Some plan'.
Proof.
  unfold process_org. set (pool := dict_get by_org org).
  destruct (num_lt (pool_total pool) target); [eauto|].
  assert (Hfuel : (length (filter
                     (fun ia : nat * R => negb (in_used (empty_set nat) (fst ia)))
                     (enumerate (map ivcAmount pool))) < S (length pool))%nat).
  { apply Nat.lt_succ_r.
    etransitivity; [apply filter_length_le|].
    unfold enumerate. rewrite length_combine, length_seq, length_map. lia. }
  destruct (@merge_loop_returns R N (S (length pool)) org pool target max_size
              (empty_set nat) (invoices plan) Hfuel) as ([used invs] & ->).
  eauto.
Qed.

Lemma process_orgs_returns by_org target max_size orgs plan :
  exists plan', process_orgs by_org target max_size plan orgs = Some plan'.
Proof.
  revert plan. induction orgs as [|org rest IH]; intros plan; simpl; [eauto|].
  destruct (process_org_returns by_org target max_size plan org) as (p & ->).
  apply IH.
Qed.

Lemma plan_records_step plan plan' org new lo (o : Z) :
  invoices plan' = invoices plan ++ new ->
  Forall (fun inv => org_id inv = org) new ->
  (leftover plan' = dict_set (leftover plan) org lo \/
   lo = [] /\ leftover plan' = leftover plan) ->
  ~ In org (map fst (leftover plan)) ->
  Permutation (plan_records plan' o)
              (plan_records plan o ++
               if org =? o then flat_map inv_records new ++ map order_record lo
               else []).
Proof.
  intros Hinv Hnew Hlo Hfresh. unfold plan_records.
  rewrite Hinv, filter_app, flat_map_app.
  assert (Hf : filter (fun inv => org_id inv =? o) new =
               if org =? o then new else []).
  { clear Hinv. induction Hnew as [|inv new Ho _ IH]; simpl.
    - now destruct (org =? o).
    - rewrite Ho, IH. now destruct (org =? o). }
  assert (Hl : flat_map snd (filter (fun e => fst e =? o) (leftover plan')) =
               flat_map snd (filter (fun e => fst e =? o) (leftover plan)) ++
               if org =? o then lo else []).
  { destruct Hlo as [->|[-> ->]].
    - rewrite dict_set_fresh by exact Hfresh.
      rewrite filter_app, flat_map_app. simpl.
      destruct (org =? o); simpl; now rewrite ?app_nil_r.
    - destruct (org =? o); now rewrite app_nil_r. }
  rewrite Hf, Hl, map_app. destruct (org =? o).
  - rewrite <- !app_assoc. apply Permutation_app_head.
    rewrite !app_assoc. apply Permutation_app_tail, Permutation_app_comm.
  - simpl. now rewrite !app_nil_r.
Qed.

Lemma leftover_keys_step plan plan' org lo (k : Z) :
  (leftover plan' = dict_set (leftover plan) org lo \/
   lo = [] /\ leftover plan' = leftover plan) ->
  ~ In org (map fst (leftover plan)) ->
  In k (map fst (leftover plan')) ->
  In k (map fst (leftover plan)) \/ k = org.
Proof.
  intros [->|[_ ->]] Hfresh; [|tauto].
  rewrite dict_set_fresh, map_app, in_app_iff by exact Hfresh.
  simpl. intuition.
Qed.

Lemma leftover_keys_NoDup_step plan plan' org lo :
  (leftover plan' = dict_set (leftover plan) org lo \/
   lo = [] /\ leftover plan' = leftover plan) ->
  ~ In org (map fst (leftover plan)) ->
  NoDup (map fst (leftover plan)) ->
  NoDup (map fst (leftover plan')).
Proof.
  intros [->|[_ ->]] Hfresh Hnd; [|exact Hnd].
  rewrite dict_set_fresh, map_app by exact Hfresh.
  apply NoDup_app; [exact Hnd|repeat constructor; intros []|].
  intros k Hk [<-|[]]. contradiction.
Qed.

Lemma process_orgs_spec by_org target max_size orgs plan plan' :
  process_orgs by_org target max_size plan orgs = Some plan' ->
  NoDup orgs ->
  (forall o, In o orgs -> ~ In o (map fst (leftover plan))) ->
  NoDup (map fst (leftover plan)) ->
  (forall o,
     Permutation (plan_records plan' o)
       (plan_records plan o ++
        if existsb (Z.eqb o) orgs then map order_record (dict_get by_org o)
        else [])) /\
  NoDup (map fst (leftover plan')) /\
  (forall k, In k (map fst (leftover plan')) ->
     In k (map fst (leftover plan)) \/ In k orgs) /\
  exists blocks,
    invoices plan' = invoices plan ++ concat blocks /\
    Forall2 (fun o blk =>
               Forall (invoice_ok (dict_get by_org o) o target max_size) blk)
            orgs blocks.
Proof.
  revert plan. induction orgs as [|org rest IH]; intros plan; simpl.
  - intros [= <-] _ _ Hnd. repeat split; auto.
    + intros o. now rewrite app_nil_r.
    + exists []. simpl. now rewrite app_nil_r.
  - destruct (process_org by_org target max_size plan org) as [plan1|] eqn:E1;
      [|discriminate].
    intros Hrun Hnd Hfresh Hkeys.
    inversion Hnd as [|? ? Horg Hrest]; subst.
    destruct (process_org_spec _ _ _ _ _ E1)
      as (new & lo & Hinv & Hok & Hlo & Hperm).
    assert (Hfresh_org : ~ In org (map fst (leftover plan)))
      by (apply Hfresh; now left).
    assert (Hown : Forall (fun inv => org_id inv = org) new).
    { eapply Forall_impl; [|exact Hok]. now intros inv (H & _). }
    destruct (IH plan1 Hrun Hrest) as (Hrec & Hnd' & Hk & blocks & Hinv' & Hblocks).
    { intros o Ho Hin.
      destruct (leftover_keys_step _ _ _ _ Hlo Hfresh_org Hin) as [H| ->].
      - apply (Hfresh o); auto.
      - contradiction. }
    { eapply leftover_keys_NoDup_step; eauto. }
    split; [|split; [exact Hnd'|split]].
    + intros o. rewrite Hrec.
      rewrite (plan_records_step plan plan1 (org := org) (new := new) (lo := lo) o)
        by assumption.
      rewrite <- app_assoc. apply Permutation_app_head.
      rewrite (Z.eqb_sym o org).
      destruct (org =? o) eqn:Eo; simpl; [|reflexivity].
      apply Z.eqb_eq in Eo. subst o.
      assert (Hno : existsb (Z.eqb org) rest = false).
      { destruct (existsb (Z.eqb org) rest) eqn:Ex; [|reflexivity].
        apply existsb_eqb_In in Ex. contradiction. }
      rewrite Hno, app_nil_r. exact Hperm.
    + intros k Hin. destruct (Hk k Hin) as [H|H]; [|auto].
      destruct (leftover_keys_step _ _ _ _ Hlo Hfresh_org H); auto.
    + exists (new :: blocks). split.
      * rewrite Hinv', Hinv. simpl. now rewrite <- app_assoc.
      * constructor; assumption.
Qed.

End PlanFacts.

(** ** The planner: coverage, invoice invariant, totality *)

Section PlannerTheorems.

Context {R : Type} {N : Number R}.

Implicit Types (orders : list (Order R)) (target : R) (max_size : Z).

Lemma optimize_spec orders target max_size :
  exists plan blocks,
    optimize orders target max_size = Some plan /\
    (forall o, Permutation (plan_records plan o)
                           (map order_record (eligible_of orders o))) /\
    NoDup (map fst (leftover plan)) /\
    invoices plan = concat blocks /\
    Forall2 (fun o blk =>
               Forall (invoice_ok (eligible_of orders o) o target max_size) blk)
            (processing_order (group_by_org orders)) blocks.
Proof.
  unfold optimize. set (by_org := group_by_org orders).
  destruct (process_orgs_returns by_org target max_size
              (processing_order by_org) {| invoices := []; leftover := [] |})
    as (plan & Hrun).
  assert (Hnd : NoDup (processing_order by_org)).
  { eapply Permutation_NoDup.
    - symmetry. apply processing_order_Permutation.
    - apply group_by_org_keys_NoDup. }
  destruct (@process_orgs_spec R N _ _ _ _ _ _ Hrun Hnd)
    as (Hrec & Hkeys & _ & blocks & Hinv & Hblocks);
    [intros o _ []|constructor|].
  exists plan, blocks. split; [exact Hrun|]. split; [|split; [exact Hkeys|split]].
  - intros o. rewrite Hrec. unfold plan_records at 1. simpl.
    unfold by_org. rewrite group_by_org_get.
    destruct (existsb (Z.eqb o) (processing_order (group_by_org orders))) eqn:E;
      [reflexivity|].
    rewrite eligible_of_absent; [reflexivity|].
    intros Hin. apply group_by_org_keys_In in Hin.
    assert (Hex : existsb (Z.eqb o) (processing_order (group_by_org orders))
                  = true).
    { apply existsb_eqb_In. eapply Permutation_in; [|exact Hin].
      symmetry. apply processing_order_Permutation. }
    congruence.
  - exact Hinv.
  - eapply Forall2_impl; [|exact Hblocks].
    intros o blk. simpl. unfold by_org. now rewrite group_by_org_get.
Qed.

Lemma blocks_Forall {A B : Type} (P : A -> B -> Prop) (l : list A)
    (blocks : list (list B)) :
  Forall2 (fun a blk => Forall (P a) blk) l blocks ->
  Forall (fun b => exists a, In a l /\ P a b) (concat blocks).
Proof.
  induction 1 as [|a blk l blocks Hblk _ IH]; simpl; [constructor|].
  apply Forall_app. split.
  - eapply Forall_impl; [|exact Hblk]. intros b Hb. exists a. split; [now left|auto].
  - eapply Forall_impl; [|exact IH]. intros b (a' & Ha' & Hb).
    exists a'. split; [now right|auto].
Qed.

(** C1.  For every list of input records and every target and maximum
    size, the planner returns a Plan in which, owner by owner, the records
    of the owner's invoices together with the owner's leftover records are
    the owner's eligible input records, each as often as the input has it:
    none is left out, none occurs twice or on both sides, and nothing that
    is not an eligible input record occurs.  An owner has at most one
    leftover list. *)
Theorem plan_partitions_eligible_records orders target max_size :
  exists plan,
    optimize orders target max_size = Some plan /\
    (forall o, Permutation (plan_records plan o)
                           (map order_record (eligible_of orders o))) /\
    NoDup (map fst (leftover plan)).
Proof.
  destruct (optimize_spec orders target max_size)
    as (plan & blocks & Hrun & Hrec & Hkeys & _).
  exists plan. auto.
Qed.

(** C2.  Every Invoice of the returned Plan has a total equal to the sum
    of its amounts, one amount per record, only records of eligible input
    records of the invoice's own owner, at most [max_size] records, and a
    total of at least [target]. *)
Theorem invoices_satisfy_invariant orders target max_size :
  exists plan,
    optimize orders target max_size = Some plan /\
    Forall (fun inv =>
              total inv = py_sum (amounts inv) /\
              length (order_ids inv) = length (amounts inv) /\
              (forall r, In r (inv_records inv) ->
                 exists x, In x orders /\ canHk x = true /\
                           orgId x = org_id inv /\ order_record x = r) /\
              Z.of_nat (count inv) <= max_size /\
              num_ge (total inv) target = true)
           (invoices plan).
Proof.
  destruct (optimize_spec orders target max_size)
    as (plan & blocks & Hrun & _ & _ & Hinv & Hblocks).
  exists plan. split; [exact Hrun|]. rewrite Hinv.
  eapply Forall_impl; [|apply (blocks_Forall _ Hblocks)].
  intros inv (o & _ & Ho & Htot & Hlen & _ & Hmax & Hge & Hincl).
  repeat split; auto.
  intros r Hr. apply Hincl, in_map_iff in Hr. destruct Hr as (x & <- & Hx).
  apply filter_In in Hx. destruct Hx as (Hx & Hel).
  apply andb_true_iff in Hel. destruct Hel as (Hhk & Heq).
  apply Z.eqb_eq in Heq. exists x. repeat split; auto. congruence.
Qed.

(** C9.  The combination search never returns fewer than two entries, and
    every Invoice of the returned Plan has at least two records, whatever
    the amounts are. *)
Theorem invoices_have_two_records :
  (forall (awi : Combo R) target max_size,
     match find_best_combo awi target max_size with
     | Some combo => (2 <= length combo)%nat
     | None => True
     end) /\
  (forall orders target max_size,
     exists plan,
       optimize orders target max_size = Some plan /\
       Forall (fun inv => (2 <= count inv)%nat) (invoices plan)).
Proof.
  split.
  - intros awi target max_size.
    destruct (find_best_combo awi target max_size) as [combo|] eqn:E; [|exact I].
    now apply find_best_combo_good in E as (H & _).
  - intros orders target max_size.
    destruct (optimize_spec orders target max_size)
      as (plan & blocks & Hrun & _ & _ & Hinv & Hblocks).
    exists plan. split; [exact Hrun|]. rewrite Hinv.
    eapply Forall_impl; [|apply (blocks_Forall _ Hblocks)].
    now intros inv (o & _ & _ & _ & _ & H2 & _).
Qed.

(** C5, as the code has it.  The planner checks neither [target] nor
    [max_size]: for every input, whatever their sign, it returns a Plan. *)
Theorem optimize_always_returns orders target max_size :
  exists plan, optimize orders target max_size = Some plan.
Proof.
  destruct (optimize_spec orders target max_size) as (plan & _ & Hrun & _).
  eauto.
Qed.

End PlannerTheorems.

(** C5, as stated, fails: with [target = 0] and [max_size = 0], both
    non-positive, the planner returns a Plan (everything left over). *)
Lemma optimize_accepts_nonpositive_parameters :
  ~ (forall (orders : list (Order float)) (target : float) (max_size : Z),
       optimize orders target max_size = None <->
       (PrimFloat.leb target 0 = true \/ max_size <= 0)).
Proof.
  intros H.
  destruct (H four_orders_float 0%float 0) as [_ Hnone].
  assert (E : optimize four_orders_float 0%float 0 =
              Some {| invoices := [];
                      leftover := [(1, four_orders_float)] |})
    by (vm_compute; reflexivity).
  rewrite Hnone in E; [discriminate|].
  left. vm_compute. reflexivity.
Qed.

(** C8.  Amounts [70, 60, 50, 40] of one owner, [target = 100],
    [max_size = 3]: the first invoice is [{60, 40}] with total 100, the
    second [{70, 50}] with total 120, nothing is left over, two invoices
    in all -- in binary64 and in exact arithmetic alike. *)
Theorem combination_optimality_example :
  optimize four_orders_float 100%float 3 =
    Some {| invoices :=
              [ {| org_id := 1; org_name := EmptyString;
                   order_ids := ["B"; "D"]%string;
                   amounts := [60; 40]%float; total := 100%float |};
                {| org_id := 1; org_name := EmptyString;
                   order_ids := ["A"; "C"]%string;
                   amounts := [70; 50]%float; total := 120%float |} ];
            leftover := [] |} /\
  optimize four_orders_Q (100#1)%Q 3 =
    Some {| invoices :=
              [ {| org_id := 1; org_name := EmptyString;
                   order_ids := ["B"; "D"]%string;
                   amounts := [60#1; 40#1]%Q; total := (100#1)%Q |};
                {| org_id := 1; org_name := EmptyString;
                   order_ids := ["A"; "C"]%string;
                   amounts := [70#1; 50#1]%Q; total := (120#1)%Q |} ];
            leftover := [] |} /\
  option_map (@total_invoices float) (optimize four_orders_float 100%float 3)
    = Some 2%nat.
Proof. repeat split; vm_compute; reflexivity. Qed.

(** ** Stable sorting *)

Section SortFacts.

Context {A K : Type} (lt : K -> K -> bool) (key : A -> K).

(** [ok]: the keys the comparison orders. *)
Variable ok : K -> Prop.

Hypothesis lt_irreflexive : forall a, lt a a = false.
Hypothesis lt_transitive :
  forall a b c, lt a b = true -> lt b c = true -> lt a c = true.
Hypothesis lt_cotransitive :
  forall a b c, ok b -> lt a c = true -> lt a b = true \/ lt b c = true.

Lemma Before_app (a b : A) (l1 l2 : list A) :
  Before a b (l1 ++ l2) <->
  Before a b l1 \/ Before a b l2 \/ (In a l1 /\ In b l2).
Proof.
  induction l1 as [|x l1 IH]; simpl.
  - split; [auto|]. intros [H|[H|[[] _]]]; [inversion H|exact H].
  - split.
    + intros H. inversion H as [t Hb|y t Hb]; subst.
      * apply in_app_or in Hb. destruct Hb as [Hb|Hb].
        -- left. now constructor.
        -- right. right. auto.
      * apply IH in Hb. destruct Hb as [Hb|[Hb|[Ha Hb]]].
        -- left. now apply Before_skip.
        -- auto.
        -- right. right. auto.
    + intros [H|[H|[[->|Ha] Hb]]].
      * inversion H as [t Hb|y t Hb]; subst.
        -- apply Before_here. apply in_or_app. now left.
        -- apply Before_skip, IH. now left.
      * apply Before_skip, IH. auto.
      * apply Before_here. apply in_or_app. now right.
      * apply Before_skip, IH. auto.
Qed.

Lemma Before_cons (a b x : A) (l : list A) :
  Before a b (x :: l) <-> (a = x /\ In b l) \/ Before a b l.
Proof.
  split.
  - intros H. inversion H; subst; auto.
  - intros [[-> H]|H]; [now apply Before_here|now apply Before_skip].
Qed.

Lemma Before_In (a b : A) (l : list A) :
  Before a b l -> In a l /\ In b l.
Proof.
  induction 1 as [t Hb|x t _ [Ha Hb]]; simpl; auto.
Qed.

(** Where [insert_sorted] puts the new element. *)
Lemma insert_sorted_split (x : A) (s : list A) :
  exists s1 s2,
    s = s1 ++ s2 /\
    insert_sorted lt key x s = s1 ++ x :: s2 /\
    Forall (fun y => lt (key y) (key x) = true) s1 /\
    match s2 with [] => True | y :: _ => lt (key y) (key x) = false end.
Proof.
  induction s as [|y s IH]; simpl.
  - exists [], []. repeat split; auto.
  - destruct (lt (key y) (key x)) eqn:E.
    + destruct IH as (s1 & s2 & -> & -> & Hs1 & Hs2).
      exists (y :: s1), s2. repeat split; auto.
    + exists [], (y :: s). repeat split; auto.
Qed.

(** No inversion: nothing stands before an element with a smaller key. *)
Lemma sorted_no_inversion (l : list A) (a b : A) :
  (forall y, In y l -> ok (key y)) ->
  Before a b (sorted lt key l) -> lt (key b) (key a) = false.
Proof.
  revert a b. induction l as [|x l IH]; intros a b Hok; simpl.
  - intros H. inversion H.
  - assert (Hok' : forall y, In y l -> ok (key y))
      by (intros y Hy; apply Hok; now right).
    specialize (fun a b => IH a b Hok').
    assert (Hin : forall y, In y (sorted lt key l) -> In y l)
      by (intros y; apply Permutation_in, (sorted_Permutation lt key)).
    destruct (insert_sorted_split x (sorted lt key l))
      as (s1 & s2 & Hs & -> & Hs1 & Hs2).
    rewrite Hs in IH, Hin. intros H.
    apply Before_app in H. destruct H as [H|[H|[Ha Hb]]].
    + apply IH, Before_app. now left.
    + apply Before_cons in H. destruct H as [[-> Hb]|H].
      * destruct s2 as [|y s2]; [destruct Hb|].
        destruct Hb as [->|Hb]; [exact Hs2|].
        destruct (lt (key b) (key x)) eqn:E; [|reflexivity].
        assert (Hy : ok (key y)).
        { apply Hok', Hin, in_or_app. right. now left. }
        destruct (lt_cotransitive Hy E) as [H1|H1]; [|congruence].
        rewrite (IH y b) in H1; [discriminate|].
        apply Before_app. right. left. now constructor.
      * apply IH, Before_app. auto.
    + destruct Hb as [<-|Hb].
      * rewrite Forall_forall in Hs1. specialize (Hs1 a Ha).
        destruct (lt (key x) (key a)) eqn:E; [|reflexivity].
        pose proof (lt_transitive E Hs1) as Hxx.
        now rewrite lt_irreflexive in Hxx.
      * apply IH, Before_app. auto.
Qed.

(** Stability: elements whose keys tie keep their input order. *)
Lemma sorted_stable (l : list A) (a b : A) :
  Before a b (sorted lt key l) ->
  lt (key a) (key b) = false ->
  Before a b l.
Proof.
  revert a b. induction l as [|x l IH]; intros a b; simpl.
  - intros H. inversion H.
  - destruct (insert_sorted_split x (sorted lt key l))
      as (s1 & s2 & Hs & -> & Hs1 & Hs2).
    rewrite Hs in IH. intros H Htie.
    assert (Hin : forall y, In y (s1 ++ s2) -> In y l).
    { intros y Hy. rewrite <- Hs in Hy.
      eapply Permutation_in; [apply (sorted_Permutation lt key)|exact Hy]. }
    apply Before_app in H. destruct H as [H|[H|[Ha Hb]]].
    + apply Before_skip, IH; [|exact Htie]. apply Before_app. now left.
    + apply Before_cons in H. destruct H as [[-> Hb]|H].
      * apply Before_here, Hin, in_or_app. now right.
      * apply Before_skip, IH; [|exact Htie]. apply Before_app. auto.
    + destruct Hb as [<-|Hb].
      * rewrite Forall_forall in Hs1. rewrite (Hs1 a Ha) in Htie. discriminate.
      * apply Before_skip, IH; [|exact Htie]. apply Before_app. auto.
Qed.

End SortFacts.

(** ** The comparisons of binary64 are lawful *)

Lemma SFltb_rank (x y : spec_float) :
  SFltb x y = true <->
  SF_number x = true /\ SF_number y = true /\ rank_lt (SF_rank x) (SF_rank y).
Proof.
  unfold SFltb, SFcompare.
  destruct x as [[|]|[|]| |[|] mx ex]; destruct y as [[|]|[|]| |[|] my ey];
    simpl; try (split; [discriminate|intros (Ha & Hb & Hr); try discriminate; lia]);
    try (split; [intros _; repeat split; lia|reflexivity]).
  - destruct (Z.compare_spec ex ey); 
      [rewrite Pos.compare_cont_spec; simpl; destruct (Pos.compare_spec mx my); simpl|..];
      (split; [try discriminate; intros _; repeat split; lia|intros (_ & _ & Hr); try reflexivity; lia]).
  - destruct (Z.compare_spec ex ey); 
      [rewrite Pos.compare_cont_spec; simpl; destruct (Pos.compare_spec mx my); simpl|..];
      (split; [try discriminate; intros _; repeat split; lia|intros (_ & _ & Hr); try reflexivity; lia]).
Qed.

Lemma SFleb_rank (x y : spec_float) :
  SFleb x y = true <->
  SF_number x = true /\ SF_number y = true /\ ~ rank_lt (SF_rank y) (SF_rank x).
Proof.
  unfold SFleb, SFcompare.
  destruct x as [[|]|[|]| |[|] mx ex]; destruct y as [[|]|[|]| |[|] my ey];
    simpl; try (split; [discriminate|intros (Ha & Hb & Hr); try discriminate; lia]);
    try (split; [intros _; repeat split; lia|reflexivity]).
  - destruct (Z.compare_spec ex ey); 
      [rewrite Pos.compare_cont_spec; simpl; destruct (Pos.compare_spec mx my); simpl|..];
      (split; [try discriminate; intros _; repeat split; lia|intros (_ & _ & Hr); try reflexivity; lia]).
  - destruct (Z.compare_spec ex ey); 
      [rewrite Pos.compare_cont_spec; simpl; destruct (Pos.compare_spec mx my); simpl|..];
      (split; [try discriminate; intros _; repeat split; lia|intros (_ & _ & Hr); try reflexivity; lia]).
Qed.

Lemma float_ltb_rank (a b : float) :
  PrimFloat.ltb a b = true <->
  float_number a = true /\ float_number b = true /\
  rank_lt (float_rank a) (float_rank b).
Proof. rewrite ltb_spec. apply SFltb_rank. Qed.

Lemma float_leb_rank (a b : float) :
  PrimFloat.leb a b = true <->
  float_number a = true /\ float_number b = true /\
  ~ rank_lt (float_rank b) (float_rank a).
Proof. rewrite leb_spec. apply SFleb_rank. Qed.

Lemma rank_lt_irrefl (a : Z * Z * Z) : ~ rank_lt a a.
Proof. destruct a as [[c e] m]. unfold rank_lt. lia. Qed.

Lemma rank_lt_trans (a b c : Z * Z * Z) :
  rank_lt a b -> rank_lt b c -> rank_lt a c.
Proof.
  destruct a as [[c1 e1] m1], b as [[c2 e2] m2], c as [[c3 e3] m3].
  unfold rank_lt. lia.
Qed.

Lemma rank_lt_cotrans (a b c : Z * Z * Z) :
  rank_lt a c -> rank_lt a b \/ rank_lt b c.
Proof.
  destruct a as [[c1 e1] m1], b as [[c2 e2] m2], c as [[c3 e3] m3].
  unfold rank_lt. lia.
Qed.

Lemma rank_lt_dec (a b : Z * Z * Z) : {rank_lt a b} + {~ rank_lt a b}.
Proof.
  destruct a as [[c1 e1] m1], b as [[c2 e2] m2]. unfold rank_lt.
  destruct (Z_lt_dec c1 c2); [left; lia|].
  destruct (Z.eq_dec c1 c2); [|right; lia].
  destruct (Z_lt_dec e1 e2); [left; lia|].
  destruct (Z.eq_dec e1 e2); [|right; lia].
  destruct (Z_lt_dec m1 m2); [left; lia|right; lia].
Qed.

Lemma bool_eq_iff (a b : bool) : (a = true <-> b = true) -> a = b.
Proof. destruct a, b; intuition congruence. Qed.

Lemma float_opp_rank (a : float) :
  float_number (- a) = float_number a /\
  float_rank (- a) =
    (let '(c, e, m) := float_rank a in (- c, - e, - m)).
Proof.
  unfold float_number, float_rank. rewrite opp_spec.
  destruct (Prim2SF a) as [[|]|[|]| |[|] m e]; simpl; split; try reflexivity;
    f_equal; try lia; f_equal; lia.
Qed.

Lemma float_lt_irrefl (a : float) : PrimFloat.ltb a a = false.
Proof.
  destruct (PrimFloat.ltb a a) eqn:E; [|reflexivity].
  apply float_ltb_rank in E. destruct E as (_ & _ & E).
  now apply rank_lt_irrefl in E.
Qed.

Lemma float_lt_trans (a b c : float) :
  PrimFloat.ltb a b = true -> PrimFloat.ltb b c = true ->
  PrimFloat.ltb a c = true.
Proof.
  rewrite !float_ltb_rank. intros (Ha & Hb & H1) (_ & Hc & H2).
  repeat split; auto. eapply rank_lt_trans; eauto.
Qed.

Lemma float_lt_cotrans (a b c : float) :
  PrimFloat.leb b b = true ->
  PrimFloat.ltb a c = true ->
  PrimFloat.ltb a b = true \/ PrimFloat.ltb b c = true.
Proof.
  rewrite !float_ltb_rank, float_leb_rank. intros (Hb & _ & _) (Ha & Hc & H).
  destruct (rank_lt_cotrans _ (float_rank b) _ H); [left|right];
    repeat split; auto.
Qed.

Lemma float_ge_not_lt (a b : float) :
  PrimFloat.leb a a = true -> PrimFloat.leb b b = true ->
  PrimFloat.leb b a = negb (PrimFloat.ltb a b).
Proof.
  rewrite !float_leb_rank. intros (Ha & _ & _) (Hb & _ & _).
  apply bool_eq_iff. rewrite negb_true_iff, float_leb_rank. split.
  - intros (_ & _ & H). destruct (PrimFloat.ltb a b) eqn:E; [|reflexivity].
    apply float_ltb_rank in E. tauto.
  - intros H. repeat split; auto. intros Hlt.
    assert (E : PrimFloat.ltb a b = true) by (apply float_ltb_rank; auto).
    congruence.
Qed.

Lemma float_lt_neg (a b : float) :
  PrimFloat.ltb (- a) (- b) = PrimFloat.ltb b a.
Proof.
  apply bool_eq_iff. rewrite !float_ltb_rank.
  destruct (float_opp_rank a) as [-> ->], (float_opp_rank b) as [-> ->].
  destruct (float_rank a) as [[c1 e1] m1], (float_rank b) as [[c2 e2] m2].
  unfold rank_lt. intuition lia.
Qed.

Lemma float_neg_ordered (a : float) :
  PrimFloat.leb a a = true -> PrimFloat.leb (- a) (- a) = true.
Proof.
  rewrite !float_leb_rank. destruct (float_opp_rank a) as [-> _].
  intros (Ha & _ & _). repeat split; auto. apply rank_lt_irrefl.
Qed.

Lemma float_ge_ordered (a b : float) :
  PrimFloat.leb b a = true ->
  PrimFloat.leb a a = true /\ PrimFloat.leb b b = true.
Proof.
  rewrite !float_leb_rank. intros (Hb & Ha & _).
  repeat split; auto; apply rank_lt_irrefl.
Qed.

Lemma float_lt_inf_not_ge (a : float) :
  PrimFloat.ltb a infinity = true -> PrimFloat.leb infinity a = false.
Proof.
  intros H. destruct (PrimFloat.leb infinity a) eqn:E; [|reflexivity].
  apply float_ltb_rank in H. apply float_leb_rank in E. tauto.
Qed.

#[export] Instance float_NumberOrder : NumberOrder float.
Proof.
  constructor; unfold ordered; simpl.
  - apply float_lt_irrefl.
  - apply float_lt_trans.
  - apply float_lt_cotrans.
  - apply float_ge_not_lt.
  - intros a b H. apply float_ge_ordered in H. tauto.
  - apply float_lt_neg.
  - apply float_neg_ordered.
  - intros a b. apply float_lt_trans.
  - apply float_lt_inf_not_ge.
Qed.

(** ** The order in which owners are visited *)

Section OrderFacts.

Context {R : Type} {N : Number R}.

Implicit Types (orders : list (Order R)) (by_org : dict (list (Order R))).

Lemma fold_dict_append_keys_Before (l : list (Order R)) by_org (a b : Z) :
  Before a b
    (map fst (fold_left (fun d x => dict_append d (orgId x) x) l by_org)) ->
  Before a b (map fst by_org) \/
  (In a (map fst by_org) /\ ~ In b (map fst by_org)) \/
  (~ In b (map fst by_org) /\ first_seen_before a b (map orgId l)).
Proof.
  revert by_org. induction l as [|x l IH]; intros by_org; simpl; [auto|].
  intros H. apply IH in H. rewrite dict_append_keys in H.
  destruct (existsb (Z.eqb (orgId x)) (map fst by_org)) eqn:E.
  - apply existsb_eqb_In in E.
    destruct H as [H|[H|(Hb & l1 & l2 & Hl & Hl1)]]; auto.
    right. right. split; [exact Hb|].
    exists (orgId x :: l1), l2. split; [simpl; now rewrite Hl|].
    intros [Heq|Hin]; [rewrite Heq in E|]; contradiction.
  - assert (Hx : ~ In (orgId x) (map fst by_org)).
    { intros Hin. apply existsb_eqb_In in Hin. congruence. }
    destruct H as [H|[[Ha Hb]|(Hb & l1 & l2 & Hl & Hl1)]].
    + apply Before_app in H. destruct H as [H|[H|[Ha [<-|[]]]]]; auto.
      apply Before_cons in H. destruct H as [[_ []]|H]. inversion H.
    + rewrite in_app_iff in Ha, Hb. simpl in Ha, Hb.
      destruct Ha as [Ha|[<-|[]]]; [tauto|].
      right. right. split; [tauto|].
      exists [], (map orgId l). split; [reflexivity|intros []].
    + rewrite in_app_iff in Hb. simpl in Hb.
      right. right. split; [tauto|].
      exists (orgId x :: l1), l2. split; [simpl; now rewrite Hl|].
      intros [Heq|Hin]; tauto.
Qed.

Lemma group_by_org_keys_Before orders (a b : Z) :
  Before a b (map fst (group_by_org orders)) ->
  first_seen_before a b (map orgId (filter canHk orders)).
Proof.
  intros H. apply fold_dict_append_keys_Before in H. simpl in H.
  destruct H as [H|[[[] _]|[_ H]]]; [inversion H|exact H].
Qed.

End OrderFacts.

(** C4, as the code has it.  Provided no owner's total is NaN: the
    owners visited are the owners of the eligible records, each once; an
    owner is never visited before one with a strictly larger total; and of
    two owners whose totals tie, the one whose first eligible record comes
    first in the input is visited first (the sort is stable and compares
    totals only; owner ids play no part).  The invoices of the Plan come
    in blocks in that order.  Totals and comparisons are those of the
    arithmetic at hand, binary64 for the program. *)
Theorem groups_processed_by_descending_total
    {R : Type} {N : Number R} {O : NumberOrder R}
    (orders : list (Order R)) (target : R) (max_size : Z) :
  (forall o, In o (map orgId (filter canHk orders)) ->
             ordered (owner_total orders o)) ->
  (forall o, In o (processing_order (group_by_org orders)) <->
             In o (map orgId (filter canHk orders))) /\
  NoDup (processing_order (group_by_org orders)) /\
  (forall a b,
     Before a b (processing_order (group_by_org orders)) ->
     num_lt (owner_total orders a) (owner_total orders b) = false) /\
  (forall a b,
     Before a b (processing_order (group_by_org orders)) ->
     num_lt (owner_total orders b) (owner_total orders a) = false ->
     first_seen_before a b (map orgId (filter canHk orders))) /\
  exists plan blocks,
    optimize orders target max_size = Some plan /\
    invoices plan = concat blocks /\
    Forall2 (fun o blk => Forall (fun inv => org_id inv = o) blk)
            (processing_order (group_by_org orders)) blocks.
Proof.
  intros Hnum.
  assert (Hperm := processing_order_Permutation (group_by_org orders)).
  assert (Hkey : forall a b,
            num_lt (num_neg (pool_total (dict_get (group_by_org orders) a)))
                   (num_neg (pool_total (dict_get (group_by_org orders) b))) =
            num_lt (owner_total orders b) (owner_total orders a)).
  { intros a b. rewrite lt_neg, !group_by_org_get. reflexivity. }
  assert (Hok : forall o, In o (map fst (group_by_org orders)) ->
            ordered (num_neg (pool_total (dict_get (group_by_org orders) o)))).
  { intros o Ho. apply neg_ordered. rewrite group_by_org_get.
    apply Hnum. now apply group_by_org_keys_In. }
  split; [|split; [|split; [|split]]].
  - intros o. rewrite <- group_by_org_keys_In. split; intros H.
    + eapply Permutation_in; eauto.
    + eapply Permutation_in; [symmetry|]; eauto.
  - eapply Permutation_NoDup; [symmetry; exact Hperm|].
    apply group_by_org_keys_NoDup.
  - intros a b H. unfold processing_order in H.
    pose proof (@sorted_no_inversion _ _ num_lt _ ordered lt_irrefl lt_trans
                  lt_cotrans _ a b Hok H) as Hinv.
    simpl in Hinv. now rewrite Hkey in Hinv.
  - intros a b H Htie. apply group_by_org_keys_Before.
    unfold processing_order in H.
    apply sorted_stable in H; [exact H|now rewrite Hkey].
  - destruct (optimize_spec orders target max_size)
      as (plan & blocks & Hrun & _ & _ & Hinv & Hblocks).
    exists plan, blocks. repeat split; auto.
    eapply Forall2_impl; [|exact Hblocks].
    intros o blk Hb. eapply Forall_impl; [|exact Hb]. now intros inv (H & _).
Qed.

Lemma tied_owners_totals_ordered :
  forall o, In o (map orgId (filter canHk tied_owners)) ->
            ordered (owner_total tied_owners o).
Proof.
  intros o Ho. simpl in Ho.
  destruct Ho as [<-|[<-|[<-|[<-|[]]]]]; vm_compute; reflexivity.
Defined.

Lemma groups_processed_by_descending_total_witness :
  (forall o, In o (map orgId (filter canHk tied_owners)) ->
             ordered (owner_total tied_owners o)) /\
  (forall o, In o (processing_order (group_by_org tied_owners)) <->
             In o (map orgId (filter canHk tied_owners))) /\
  NoDup (processing_order (group_by_org tied_owners)) /\
  (forall a b,
     Before a b (processing_order (group_by_org tied_owners)) ->
     num_lt (owner_total tied_owners a) (owner_total tied_owners b)
     = false) /\
  (forall a b,
     Before a b (processing_order (group_by_org tied_owners)) ->
     num_lt (owner_total tied_owners b) (owner_total tied_owners a)
     = false ->
     first_seen_before a b (map orgId (filter canHk tied_owners))) /\
  exists plan blocks,
    optimize tied_owners 100%float 3 = Some plan /\
    invoices plan = concat blocks /\
    Forall2 (fun o blk => Forall (fun inv => org_id inv = o) blk)
            (processing_order (group_by_org tied_owners)) blocks.
Proof.
  split; [exact tied_owners_totals_ordered|].
  exact (@groups_processed_by_descending_total float float_Number
           float_NumberOrder tied_owners 100%float 3
           tied_owners_totals_ordered).
Defined.

(** C4, as stated, fails on ties: owners 2 and 1 both total 100, owner 2
    comes first in the input and is visited first, although 1 < 2. *)
Lemma tie_not_broken_by_owner_id :
  processing_order (group_by_org tied_owners) = [2; 1] /\
  owner_total tied_owners 2 = owner_total tied_owners 1 /\
  option_map (fun p => map (@org_id float) (invoices p))
             (optimize tied_owners 100%float 3) = Some [2; 1] /\
  ~ (forall (orders : list (Order float)) (a b : Z),
       Before a b (processing_order (group_by_org orders)) ->
       num_lt (owner_total orders b) (owner_total orders a) = true \/
       (owner_total orders a = owner_total orders b /\ a < b)).
Proof.
  repeat split; try (vm_compute; reflexivity).
  intros H. destruct (H tied_owners 2 1) as [Hlt|[_ Hlt]].
  - replace (processing_order (group_by_org tied_owners)) with [2; 1]
      by (vm_compute; reflexivity).
    apply Before_here. now left.
  - vm_compute in Hlt. discriminate.
  - lia.
Qed.

(** ** The combination search against the rule of the specification *)

Section SearchRefinement.

Context {R : Type} {N : Number R} {O : NumberOrder R}.

Implicit Types (pool : Combo R) (target : R) (best : option (Combo R)).



(** What the sort returns is in descending order when no amount is NaN:
    [find_best_combo] is only ever called on such a pool. *)
Lemma sorted_is_descending pool :
  (forall x, In x pool -> ordered (snd x)) ->
  descending
    (map snd (sorted num_lt (fun x : nat * R => num_neg (snd x)) pool)) = true.
Proof.
  intros Hnum.
  assert (H : forall l : Combo R,
            (forall a b, Before a b l -> num_lt (snd a) (snd b) = false) ->
            descending (map snd l) = true).
  { induction l as [|x l IH]; [reflexivity|]. intros Hl.
    destruct l as [|y l]; [reflexivity|].
    simpl map. simpl descending. apply andb_true_iff. split.
    - rewrite (Hl x y); [reflexivity|]. apply Before_here. now left.
    - apply IH. intros a b Hab. apply Hl. now apply Before_skip. }
  apply H. intros a b Hab.
  pose proof (@sorted_no_inversion _ _ num_lt
                (fun x : nat * R => num_neg (snd x)) ordered
                lt_irrefl lt_trans lt_cotrans pool a b
                (fun y Hy => neg_ordered (Hnum y Hy)) Hab) as Hinv.
  simpl in Hinv. now rewrite lt_neg in Hinv.
Qed.









End SearchRefinement.

(** ** The executor *)

Section ExecutorFacts.

Context {R : Type}.

Variable submit_one_invoice : list (event R) -> Invoice R -> Z -> outcome.
Variable now : list (event R) -> string.
Variable connect : bool.
Variable retry_limit : Z.

Local Abbreviation attempt_loop := (attempt_loop submit_one_invoice).
Local Abbreviation process_invoice :=
  (process_invoice submit_one_invoice now retry_limit).
Local Abbreviation batch_merge :=
  (batch_merge submit_one_invoice now connect retry_limit).

Implicit Types (st : state R) (inv : Invoice R) (tr : list (event R)).

Lemma submit_events_nil inv (attempts : list Z) :
  submit_events inv attempts [] = [].
Proof. unfold submit_events. now rewrite combine_nil. Qed.

Lemma submit_events_cons inv (a : Z) (rest : list Z) (o : outcome)
    (outs : list outcome) :
  submit_events inv (a :: rest) (o :: outs) =
  Submit inv a o :: submit_events inv rest outs.
Proof. reflexivity. Qed.

Lemma attempt_loop_spec (attempts : list Z) inv tr (m0 : string) :
  exists outs,
    (length outs <= length attempts)%nat /\
    snd (attempt_loop attempts inv tr false m0) =
      tr ++ submit_events inv attempts outs /\
    driver_answers submit_one_invoice tr inv attempts outs /\
    ((exists fails o,
        outs = fails ++ [o] /\ all_failed fails /\ succeeded o = true /\
        fst (attempt_loop attempts inv tr false m0) = (true, message_of o)) \/
     (all_failed outs /\ length outs = length attempts /\
      fst (fst (attempt_loop attempts inv tr false m0)) = false)).
Proof.
  revert tr m0. induction attempts as [|a rest IH]; intros tr m0.
  - exists []. simpl. rewrite app_nil_r.
    split; [lia|]. split; [reflexivity|]. split.
    + intros i a o Ha. destruct i; discriminate.
    + right. repeat split; constructor.
  - simpl. destruct (succeeded (submit_one_invoice tr inv a)) eqn:E.
    + exists [submit_one_invoice tr inv a].
      split; [simpl; lia|].
      split; [now rewrite submit_events_cons, submit_events_nil|]. split.
      * intros [|i] a' o Ha Ho; simpl in *.
        -- injection Ha as <-. injection Ho as <-.
           now rewrite submit_events_nil, app_nil_r.
        -- destruct i; discriminate.
      * left. exists [], (submit_one_invoice tr inv a).
        repeat split; auto. constructor.
    + destruct (IH (tr ++ [Submit inv a (submit_one_invoice tr inv a)])
                   (message_of (submit_one_invoice tr inv a)))
        as (outs & Hlen & Htr & Hans & Hcases).
      exists (submit_one_invoice tr inv a :: outs). split; [simpl; lia|].
      split; [|split].
      * rewrite Htr, <- app_assoc. reflexivity.
      * intros [|i] a' o Ha Ho; simpl in *.
        -- injection Ha as <-. injection Ho as <-.
           now rewrite submit_events_nil, app_nil_r.
        -- rewrite (Hans i a' o Ha Ho), <- app_assoc. reflexivity.
      * destruct Hcases as [(fails & o & -> & Hf & Ho & Hres)|(Hf & Hl & Hres)].
        -- left. exists (submit_one_invoice tr inv a :: fails), o.
           repeat split; auto. now constructor.
        -- right. repeat split; auto; [now constructor|simpl; lia].
Qed.

Lemma range_length (lo hi : Z) : length (range lo hi) = Z.to_nat (hi - lo).
Proof. unfold range. now rewrite length_map, length_seq. Qed.

(** One invoice: its attempts, the single ledger entry, the save. *)
Lemma process_invoice_spec st inv :
  exists outs rec,
    trace (process_invoice st inv) =
      trace st ++ submit_events inv (range 1 (retry_limit + 1)) outs
               ++ [Save (progress (process_invoice st inv))] /\
    driver_answers submit_one_invoice (trace st) inv
                   (range 1 (retry_limit + 1)) outs /\
    file (process_invoice st inv) = Some (progress (process_invoice st inv)) /\
    record_of inv rec /\
    skipped (progress (process_invoice st inv)) = skipped (progress st) /\
    Z.of_nat (length outs) <= Z.max 0 retry_limit /\
    ((exists fails o,
        outs = fails ++ [o] /\ all_failed fails /\ succeeded o = true /\
        completed (progress (process_invoice st inv)) =
          completed (progress st) ++ [rec] /\
        failed (progress (process_invoice st inv)) = failed (progress st)) \/
     (all_failed outs /\
      Z.of_nat (length outs) = Z.max 0 retry_limit /\
      completed (progress (process_invoice st inv)) = completed (progress st) /\
      failed (progress (process_invoice st inv)) =
        failed (progress st) ++ [rec])).
Proof.
  unfold process_invoice.
  destruct (attempt_loop_spec (range 1 (retry_limit + 1)) inv (trace st)
                              EmptyString)
    as (outs & Hlen & Htr & Hans & Hcases).
  rewrite range_length in Hlen.
  destruct (attempt_loop (range 1 (retry_limit + 1)) inv (trace st) false
                         EmptyString) as [[success message] tr] eqn:E.
  simpl in Htr, Hcases. subst tr.
  exists outs.
  exists {| rec_org_id := org_id inv; rec_order_ids := order_ids inv;
            rec_total := total inv;
            rec_time := now (trace st ++ submit_events inv
                                        (range 1 (retry_limit + 1)) outs);
            rec_message := message |}.
  destruct Hcases as [(fails & o & -> & Hf & Ho & Hres)|(Hf & Hl & Hres)].
  - injection Hres as -> ->. simpl.
    rewrite <- app_assoc. repeat split; auto; [lia|].
    left. exists fails, o. repeat split; auto.
  - subst success. simpl. rewrite range_length in Hl.
    rewrite <- app_assoc. repeat split; auto; [lia|].
    right. repeat split; auto. lia.
Qed.

Lemma successes_app tr tr' :
  successes (tr ++ tr') = (successes tr + successes tr')%nat.
Proof.
  induction tr as [|e tr IH]; [reflexivity|].
  destruct e; simpl; rewrite IH; lia.
Qed.

Lemma successes_all_failed inv (attempts : list Z) (outs : list outcome) :
  all_failed outs -> successes (submit_events inv attempts outs) = 0%nat.
Proof.
  intros H. revert attempts.
  induction H as [|o outs Ho _ IH]; intros [|a rest];
    try reflexivity.
  rewrite submit_events_cons. simpl. now rewrite Ho, IH.
Qed.

Lemma successes_one_success inv (attempts : list Z)
    (fails : list outcome) (o : outcome) :
  (length (fails ++ [o]) <= length attempts)%nat ->
  all_failed fails -> succeeded o = true ->
  successes (submit_events inv attempts (fails ++ [o])) = 1%nat.
Proof.
  intros Hlen Hf Ho. revert attempts Hlen.
  induction Hf as [|f fails Hfail _ IH]; intros [|a rest] Hlen;
    simpl in Hlen; try lia.
  - simpl app. rewrite submit_events_cons, submit_events_nil. simpl.
    now rewrite Ho.
  - simpl app. rewrite submit_events_cons. simpl. rewrite Hfail.
    apply IH. simpl. lia.
Qed.

Lemma In_submit_events inv (attempts : list Z) (outs : list outcome)
    (e : event R) :
  In e (submit_events inv attempts outs) -> exists a o, e = Submit inv a o.
Proof.
  unfold submit_events. rewrite in_map_iff. intros ([a o] & <- & _). eauto.
Qed.

(** One invoice, in short: a block of submissions of that invoice, one new
    entry in exactly one of the two lists, and the save. *)
Lemma process_invoice_step st inv :
  exists rec block,
    record_of inv rec /\
    trace (process_invoice st inv) =
      trace st ++ block ++ [Save (progress (process_invoice st inv))] /\
    (forall e, In e block -> exists a o, e = Submit inv a o) /\
    file (process_invoice st inv) = Some (progress (process_invoice st inv)) /\
    skipped (progress (process_invoice st inv)) = skipped (progress st) /\
    ((completed (progress (process_invoice st inv)) =
        completed (progress st) ++ [rec] /\
      failed (progress (process_invoice st inv)) = failed (progress st) /\
      successes block = 1%nat) \/
     (completed (progress (process_invoice st inv)) = completed (progress st) /\
      failed (progress (process_invoice st inv)) =
        failed (progress st) ++ [rec] /\
      successes block = 0%nat)).
Proof.
  destruct (process_invoice_spec st inv)
    as (outs & rec & Htr & _ & Hfile & Hrec & Hsk & Hlen & Hcases).
  exists rec, (submit_events inv (range 1 (retry_limit + 1)) outs).
  split; [exact Hrec|]. split; [exact Htr|].
  split; [intros e; apply In_submit_events|].
  split; [exact Hfile|]. split; [exact Hsk|].
  destruct Hcases as [(fails & o & -> & Hf & Ho & Hc & Hfl)|(Hf & _ & Hc & Hfl)].
  - left. repeat split; auto.
    apply successes_one_success; auto. rewrite range_length. lia.
  - right. repeat split; auto. now apply successes_all_failed.
Qed.

(** All invoices of a list, one after the other. *)
Lemma process_all_ledger (l : list (Invoice R)) st :
  skipped (progress (fold_left process_invoice l st)) = skipped (progress st) /\
  exists newc newf,
    completed (progress (fold_left process_invoice l st)) =
      completed (progress st) ++ newc /\
    failed (progress (fold_left process_invoice l st)) =
      failed (progress st) ++ newf /\
    Permutation (map (@rec_order_ids R) (newc ++ newf))
                (map (@order_ids R) l) /\
    (length newc + successes (trace st))%nat =
      successes (trace (fold_left process_invoice l st)).
Proof.
  revert st. induction l as [|inv rest IH]; intros st; simpl.
  - split; [reflexivity|]. exists [], []. rewrite !app_nil_r. auto.
  - destruct (process_invoice_step st inv)
      as (rec & block & (_ & Hids & _) & Htr & _ & _ & Hsk & Hcases).
    destruct (IH (process_invoice st inv))
      as (Hsk' & newc & newf & Hc & Hf & Hperm & Hcount).
    split; [congruence|].
    rewrite Htr, !successes_app in Hcount. simpl in Hcount.
    destruct Hcases as [(Hc1 & Hf1 & Hs)|(Hc1 & Hf1 & Hs)].
    + exists (rec :: newc), newf. rewrite Hc, Hf, Hc1, Hf1, <- app_assoc.
      repeat split; auto.
      * simpl. rewrite Hids. now constructor.
      * simpl. lia.
    + exists newc, (rec :: newf). rewrite Hc, Hf, Hc1, Hf1, <- app_assoc.
      repeat split; auto.
      * rewrite map_app. simpl. rewrite Hids.
        rewrite <- Permutation_middle, <- map_app. now constructor.
      * lia.
Qed.

Lemma process_all_trace (l : list (Invoice R)) st :
  exists tail,
    trace (fold_left process_invoice l st) = trace st ++ tail /\
    (forall inv a o, In (Submit inv a o) tail -> In inv l) /\
    (forall p, In (Save p) tail -> skipped p = skipped (progress st)) /\
    ~ In (@Connect R) tail.
Proof.
  revert st. induction l as [|inv rest IH]; intros st; simpl.
  - exists []. rewrite app_nil_r. repeat split; auto; intros; contradiction.
  - destruct (process_invoice_step st inv)
      as (rec & block & _ & Htr & Hblock & _ & Hsk & _).
    destruct (IH (process_invoice st inv)) as (tail & Htail & Hsub & Hsave & Hcon).
    exists (block ++ [Save (progress (process_invoice st inv))] ++ tail).
    split; [rewrite Htail, Htr, <- !app_assoc; reflexivity|].
    split; [|split].
    + intros inv' a o Hin. apply in_app_or in Hin. destruct Hin as [Hin|Hin].
      * destruct (Hblock _ Hin) as (a' & o' & [= -> _ _]). now left.
      * destruct Hin as [Hin|Hin]; [discriminate|]. right. eauto.
    + intros p Hin. apply in_app_or in Hin. destruct Hin as [Hin|Hin].
      * destruct (Hblock _ Hin) as (a' & o' & Heq). discriminate.
      * destruct Hin as [[= <-]|Hin]; [exact Hsk|].
        rewrite <- Hsk. now apply Hsave.
    + intros Hin. apply in_app_or in Hin. destruct Hin as [Hin|Hin].
      * destruct (Hblock _ Hin) as (a' & o' & Heq). discriminate.
      * destruct Hin as [Hin|Hin]; [discriminate|contradiction].
Qed.

Lemma process_all_file (l : list (Invoice R)) st :
  l <> [] ->
  file (fold_left process_invoice l st) =
  Some (progress (fold_left process_invoice l st)).
Proof.
  revert st. induction l as [|inv rest IH]; intros st Hne; [congruence|].
  simpl. destruct rest as [|inv' rest].
  - simpl. now destruct (process_invoice_step st inv) as (? & ? & _ & _ & _ & H & _).
  - apply IH. discriminate.
Qed.

Lemma process_all_NoDup (l : list (Invoice R)) st :
  NoDup (map (@record_key R) (completed (progress st)) ++
         map (@invoice_key R) l) ->
  NoDup (map (@record_key R)
             (completed (progress (fold_left process_invoice l st)))).
Proof.
  revert st. induction l as [|inv rest IH]; intros st; simpl.
  - now rewrite app_nil_r.
  - intros Hnd. apply IH.
    destruct (process_invoice_step st inv)
      as (rec & block & (_ & Hids & _) & _ & _ & _ & _ & Hcases).
    destruct Hcases as [(Hc & _)|(Hc & _)]; rewrite Hc.
    + rewrite map_app, <- app_assoc. simpl.
      unfold record_key at 2. rewrite Hids. exact Hnd.
    + eapply NoDup_remove_1; eauto.
Qed.

Lemma completed_keys_In (p : Progress R) (k : list string) :
  In k (completed_keys p) <-> In k (map (@record_key R) (completed p)).
Proof.
  unfold completed_keys.
  assert (H : forall l s,
            In k (fold_left
                    (fun s (r : ProgressRecord R) =>
                       set_add key_dec (identity_key (rec_order_ids r)) s)
                    l s) <->
            In k s \/ In k (map (@record_key R) l)).
  { induction l as [|r l IH]; intros s; simpl; [tauto|].
    rewrite IH, set_add_iff. unfold record_key. intuition congruence. }
  rewrite H. simpl. tauto.
Qed.

Lemma remaining_invoices_In (invoices : list (Invoice R)) (p : Progress R) inv :
  In inv (remaining_invoices invoices p) <->
  In inv invoices /\ ~ already_completed p inv.
Proof.
  unfold remaining_invoices, already_completed.
  rewrite filter_In, negb_true_iff, <- completed_keys_In.
  split; intros [Hin H]; split; auto.
  - intros Hk. apply (set_mem_correct2 key_dec) in Hk.
    unfold invoice_key in Hk. congruence.
  - destruct (set_mem key_dec _ _) eqn:E; [|reflexivity].
    apply set_mem_correct1 in E. contradiction.
Qed.

Lemma batch_merge_connected (invoices : list (Invoice R))
    (file0 : option (Progress R)) :
  connect = true ->
  remaining_invoices invoices (load_progress file0) <> [] ->
  batch_merge invoices file0 =
  fold_left process_invoice
            (remaining_invoices invoices (load_progress file0))
            (connected file0).
Proof.
  intros Hc Hne. unfold batch_merge. rewrite Hc.
  destruct (remaining_invoices invoices (load_progress file0));
    [congruence|reflexivity].
Qed.

(** What every run comes to, whichever way it goes. *)
Lemma batch_merge_spec (invoices : list (Invoice R))
    (file0 : option (Progress R)) :
  skipped (progress (batch_merge invoices file0)) =
    skipped (load_progress file0) /\
  (file (batch_merge invoices file0) = file0 \/
   file (batch_merge invoices file0) =
     Some (progress (batch_merge invoices file0))) /\
  (exists newc newf,
     completed (progress (batch_merge invoices file0)) =
       completed (load_progress file0) ++ newc /\
     failed (progress (batch_merge invoices file0)) =
       failed (load_progress file0) ++ newf /\
     (length newc = successes (trace (batch_merge invoices file0))) /\
     (connect = true ->
      Permutation (map (@rec_order_ids R) (newc ++ newf))
                  (map (@order_ids R)
                       (remaining_invoices invoices (load_progress file0)))) /\
     (forall r, In r (newc ++ newf) ->
        exists inv, In inv (remaining_invoices invoices (load_progress file0))
                    /\ rec_order_ids r = order_ids inv)) /\
  (forall inv a o,
     In (Submit inv a o) (trace (batch_merge invoices file0)) ->
     In inv (remaining_invoices invoices (load_progress file0))) /\
  (forall p, In (Save p) (trace (batch_merge invoices file0)) ->
             skipped p = skipped (load_progress file0)) /\
  (NoDup (map (@record_key R) (completed (load_progress file0)) ++
          map (@invoice_key R)
              (remaining_invoices invoices (load_progress file0))) ->
   NoDup (map (@record_key R)
              (completed (progress (batch_merge invoices file0))))).
Proof.
  assert (Hidle : forall st : state R,
            progress st = load_progress file0 -> file st = file0 ->
            successes (trace st) = 0%nat ->
            (forall inv a o, ~ In (Submit inv a o) (trace st)) ->
            (forall p, ~ In (Save p) (trace st)) ->
            remaining_invoices invoices (load_progress file0) = [] \/
              connect = false ->
            skipped (progress st) = skipped (load_progress file0) /\
            (file st = file0 \/ file st = Some (progress st)) /\
            (exists newc newf,
               completed (progress st) =
                 completed (load_progress file0) ++ newc /\
               failed (progress st) = failed (load_progress file0) ++ newf /\
               length newc = successes (trace st) /\
               (connect = true ->
                Permutation (map (@rec_order_ids R) (newc ++ newf))
                  (map (@order_ids R)
                     (remaining_invoices invoices (load_progress file0)))) /\
               (forall r, In r (newc ++ newf) ->
                  exists inv,
                    In inv (remaining_invoices invoices (load_progress file0))
                    /\ rec_order_ids r = order_ids inv)) /\
            (forall inv a o, In (Submit inv a o) (trace st) ->
               In inv (remaining_invoices invoices (load_progress file0))) /\
            (forall p, In (Save p) (trace st) ->
               skipped p = skipped (load_progress file0)) /\
            (NoDup (map (@record_key R) (completed (load_progress file0)) ++
                    map (@invoice_key R)
                      (remaining_invoices invoices (load_progress file0))) ->
             NoDup (map (@record_key R) (completed (progress st))))).
  { intros st Hp Hf Hs Hsub Hsave Hwhy. rewrite Hp.
    split; [reflexivity|]. split; [now left|]. split; [|split; [|split]].
    - exists [], []. rewrite !app_nil_r. repeat split; auto.
      + intros Hc. destruct Hwhy as [-> | Hc']; [constructor|congruence].
      + intros r [].
    - intros inv a o Hin. now apply Hsub in Hin.
    - intros p Hin. now apply Hsave in Hin.
    - intros Hnd. now apply NoDup_app_remove_r in Hnd. }
  destruct (remaining_invoices invoices (load_progress file0))
    as [|inv0 rest] eqn:Hrem.
  { unfold batch_merge. rewrite Hrem.
    apply Hidle; simpl; auto. }
  destruct (Bool.bool_dec connect true) as [Hc|Hc].
  2:{ apply not_true_is_false in Hc.
      assert (Hbm : batch_merge invoices file0 = connected file0).
      { unfold batch_merge. now rewrite Hrem, Hc. }
      rewrite Hbm. apply Hidle; simpl; auto.
      - intros inv a o [H|[]]. discriminate.
      - intros p [H|[]]. discriminate. }
  clear Hidle.
  rewrite batch_merge_connected by (rewrite ?Hrem; congruence).
  rewrite Hrem. set (l := inv0 :: rest).
  destruct (process_all_ledger l (connected file0))
    as (Hsk & newc & newf & Hcomp & Hfail & Hperm & Hcount).
  destruct (process_all_trace l (connected file0))
    as (tail & Htail & Hsub & Hsave & _).
  split; [exact Hsk|]. split; [|split; [|split; [|split]]].
  - right. apply process_all_file. discriminate.
  - exists newc, newf. split; [exact Hcomp|]. split; [exact Hfail|].
    split.
    { change (successes (trace (connected file0))) with 0%nat in Hcount.
      now rewrite Nat.add_0_r in Hcount. }
    split; [auto|].
    intros r Hr.
    assert (Hin : In (rec_order_ids r) (map (@order_ids R) l)).
    { eapply Permutation_in; [exact Hperm|]. now apply in_map. }
    apply in_map_iff in Hin. destruct Hin as (inv & Heq & Hin). eauto.
  - intros inv a o Hin. rewrite Htail in Hin.
    destruct Hin as [Hin|Hin]; [discriminate|eauto].
  - intros p Hin. rewrite Htail in Hin.
    destruct Hin as [Hin|Hin]; [discriminate|]. now apply Hsave.
  - apply (process_all_NoDup l (connected file0)).
Qed.

(** C10.  A run leaves the skipped list as it found it, in memory, in the
    progress file and in every ledger it saves; it only appends to the
    completed and the failed list, and every entry it appends is for an
    invoice of the plan that the identity-key check let through. *)
Theorem skipped_list_is_left_unchanged (invoices : list (Invoice R))
    (file0 : option (Progress R)) :
  skipped (progress (batch_merge invoices file0)) =
    skipped (load_progress file0) /\
  skipped (load_progress (file (batch_merge invoices file0))) =
    skipped (load_progress file0) /\
  (forall p, In (Save p) (trace (batch_merge invoices file0)) ->
             skipped p = skipped (load_progress file0)) /\
  exists newc newf,
    completed (progress (batch_merge invoices file0)) =
      completed (load_progress file0) ++ newc /\
    failed (progress (batch_merge invoices file0)) =
      failed (load_progress file0) ++ newf /\
    forall r, In r (newc ++ newf) ->
      exists inv, In inv invoices /\
                  ~ already_completed (load_progress file0) inv /\
                  rec_order_ids r = order_ids inv.
Proof.
  destruct (batch_merge_spec invoices file0)
    as (Hsk & Hfile & (newc & newf & Hc & Hf & _ & _ & Hnew) & _ & Hsave & _).
  split; [exact Hsk|]. split; [|split; [exact Hsave|]].
  - destruct Hfile as [->| ->]; [reflexivity|exact Hsk].
  - exists newc, newf. split; [exact Hc|]. split; [exact Hf|].
    intros r Hr. destruct (Hnew r Hr) as (inv & Hin & Hids).
    apply remaining_invoices_In in Hin. destruct Hin. eauto.
Qed.

(** C6, as the code has it.  For every ledger and every plan: the run
    deals with exactly the invoices of the plan whose identity key is not
    among the completed entries it starts from; the others are never
    submitted and get no entry; and the completed list grows by one entry
    per successful submission.  When, moreover, the completed entries at
    the start have distinct keys and the invoices of the plan have
    distinct keys, so have the completed entries at the end. *)
Theorem completed_invoices_are_skipped (invoices : list (Invoice R))
    (file0 : option (Progress R)) :
  (forall inv, In inv (remaining_invoices invoices (load_progress file0)) <->
               In inv invoices /\
               ~ already_completed (load_progress file0) inv) /\
  (forall inv a o,
     In (Submit inv a o) (trace (batch_merge invoices file0)) ->
     In inv invoices /\ ~ already_completed (load_progress file0) inv) /\
  (exists newc newf,
     completed (progress (batch_merge invoices file0)) =
       completed (load_progress file0) ++ newc /\
     failed (progress (batch_merge invoices file0)) =
       failed (load_progress file0) ++ newf /\
     (forall r, In r (newc ++ newf) ->
        exists inv, In inv invoices /\
                    ~ already_completed (load_progress file0) inv /\
                    rec_order_ids r = order_ids inv) /\
     (connect = true ->
      Permutation (map (@rec_order_ids R) (newc ++ newf))
                  (map (@order_ids R)
                       (remaining_invoices invoices (load_progress file0))))) /\
  length (completed (progress (batch_merge invoices file0))) =
    (length (completed (load_progress file0)) +
     successes (trace (batch_merge invoices file0)))%nat /\
  (NoDup (map (@record_key R) (completed (load_progress file0))) ->
   NoDup (map (@invoice_key R) invoices) ->
   NoDup (map (@record_key R)
              (completed (progress (batch_merge invoices file0))))).
Proof.
  destruct (batch_merge_spec invoices file0)
    as (_ & _ & (newc & newf & Hc & Hf & Hcount & Hperm & Hnew) & Hsub & _
        & Hnd).
  split; [intros inv; apply remaining_invoices_In|].
  split; [intros inv a o Hin; now apply remaining_invoices_In, (Hsub inv a o)|].
  split; [|split].
  - exists newc, newf. split; [exact Hc|]. split; [exact Hf|].
    split; [|exact Hperm].
    intros r Hr. destruct (Hnew r Hr) as (inv & Hin & Hids).
    apply remaining_invoices_In in Hin. destruct Hin. eauto.
  - rewrite Hc, length_app. lia.
  - intros Hstart Hplan. apply Hnd. apply NoDup_app; [exact Hstart| |].
    + apply NoDup_map_filter. exact Hplan.
    + intros k Hk Hk'. apply in_map_iff in Hk'.
      destruct Hk' as (inv & <- & Hin).
      apply remaining_invoices_In in Hin. destruct Hin as [_ Hnot].
      now apply Hnot.
Qed.

(** C7, as the code has it.  Take any invoice [inv] the run does not
    skip, with [pre] the invoices dealt with before it and [post] those
    after it.  Its attempts are numbered 1, 2, ... and stop at the first
    success; if all fail there are exactly [retry_limit] of them (none
    when the limit is not positive).  Then one entry for [inv] is
    appended, to the completed list if the last attempt succeeded and to
    the failed list otherwise, never to both; the full ledger is saved;
    and only after that come the submissions of the invoices in [post].
    Over the whole run both lists only grow: no entry an earlier run left
    in the failed list is ever removed. *)
Theorem retries_are_bounded_and_ledger_saved (invoices : list (Invoice R))
    (file0 : option (Progress R)) (pre : list (Invoice R)) inv
    (post : list (Invoice R)) :
  connect = true ->
  remaining_invoices invoices (load_progress file0) = pre ++ inv :: post ->
  (exists outs rec tail,
    let before := fold_left process_invoice pre (connected file0) in
    let after := process_invoice before inv in
    trace after =
      trace before ++ submit_events inv (range 1 (retry_limit + 1)) outs
                   ++ [Save (progress after)] /\
    driver_answers submit_one_invoice (trace before) inv
                   (range 1 (retry_limit + 1)) outs /\
    file after = Some (progress after) /\
    record_of inv rec /\
    Z.of_nat (length outs) <= Z.max 0 retry_limit /\
    ((exists fails o,
        outs = fails ++ [o] /\ all_failed fails /\ succeeded o = true /\
        completed (progress after) = completed (progress before) ++ [rec] /\
        failed (progress after) = failed (progress before)) \/
     (all_failed outs /\
      Z.of_nat (length outs) = Z.max 0 retry_limit /\
      completed (progress after) = completed (progress before) /\
      failed (progress after) = failed (progress before) ++ [rec])) /\
    trace (batch_merge invoices file0) = trace after ++ tail /\
    (forall inv' a o, In (Submit inv' a o) tail -> In inv' post)) /\
  exists newc newf,
    completed (progress (batch_merge invoices file0)) =
      completed (load_progress file0) ++ newc /\
    failed (progress (batch_merge invoices file0)) =
      failed (load_progress file0) ++ newf.
Proof.
  intros Hc Hrem. split.
  - rewrite batch_merge_connected
      by (auto; rewrite Hrem; destruct pre; discriminate).
    rewrite Hrem, fold_left_app. simpl fold_left.
    set (before := fold_left process_invoice pre (connected file0)).
    destruct (process_invoice_spec before inv)
      as (outs & rec & Htr & Hans & Hfile & Hrec & _ & Hlen & Hcases).
    destruct (process_all_trace post (process_invoice before inv))
      as (tail & Htail & Hsub & _).
    exists outs, rec, tail. simpl.
    split; [exact Htr|]. split; [exact Hans|]. split; [exact Hfile|].
    split; [exact Hrec|]. split; [exact Hlen|]. split; [exact Hcases|].
    split; [exact Htail|exact Hsub].
  - destruct (batch_merge_spec invoices file0)
      as (_ & _ & (newc & newf & Hcomp & Hfail & _) & _).
    exists newc, newf. split; [exact Hcomp|exact Hfail].
Qed.

End ExecutorFacts.

(** ** The theorems at concrete inputs *)




Lemma two_distinct_keys (a b : list string) : a <> b -> NoDup [a; b].
Proof.
  intros H. constructor; [intros [E|[]]; congruence|].
  constructor; [intros []|constructor].
Qed.

Lemma completed_invoices_are_skipped_witness :
  NoDup (map (@record_key Q) (completed (load_progress (Some ledger_BD_done))))
  /\
  NoDup (map (@invoice_key Q) [invoice_BD; invoice_AC]) /\
  (forall inv a o,
     In (Submit inv a o)
        (trace (batch_merge driver_accepts still_clock true 2
                            [invoice_BD; invoice_AC] (Some ledger_BD_done))) ->
     In inv [invoice_BD; invoice_AC] /\
     ~ already_completed (load_progress (Some ledger_BD_done)) inv) /\
  length (completed (progress
            (batch_merge driver_accepts still_clock true 2
                         [invoice_BD; invoice_AC] (Some ledger_BD_done)))) =
    (length (completed (load_progress (Some ledger_BD_done))) +
     successes (trace (batch_merge driver_accepts still_clock true 2
                         [invoice_BD; invoice_AC] (Some ledger_BD_done))))%nat
  /\
  NoDup (map (@record_key Q)
           (completed (progress
              (batch_merge driver_accepts still_clock true 2
                           [invoice_BD; invoice_AC] (Some ledger_BD_done))))).
Proof.
  assert (H1 : NoDup (map (@record_key Q)
                        (completed (load_progress (Some ledger_BD_done))))).
  { repeat constructor. intros []. }
  assert (H2 : NoDup (map (@invoice_key Q) [invoice_BD; invoice_AC])).
  { apply two_distinct_keys. discriminate. }
  split; [exact H1|]. split; [exact H2|].
  destruct (@completed_invoices_are_skipped Q driver_accepts still_clock true 2
              [invoice_BD; invoice_AC] (Some ledger_BD_done))
    as (_ & Hsub & _ & Hlen & Hnd).
  split; [exact Hsub|]. split; [exact Hlen|exact (Hnd H1 H2)].
Defined.

(** C6, as stated, fails when the plan lists the same records twice: with
    an empty ledger and a driver that accepts, both copies are submitted
    and the completed list ends with two entries of one identity key. *)
Lemma duplicate_invoice_completed_twice :
  map (@record_key Q)
      (completed (progress
         (batch_merge driver_accepts still_clock true 2
                      [invoice_BD; invoice_BD] None))) =
    [["B"; "D"]; ["B"; "D"]]%string /\
  ~ NoDup (map (@record_key Q)
             (completed (progress
                (batch_merge driver_accepts still_clock true 2
                             [invoice_BD; invoice_BD] None)))).
Proof.
  assert (E : map (@record_key Q)
                (completed (progress
                   (batch_merge driver_accepts still_clock true 2
                                [invoice_BD; invoice_BD] None))) =
              [["B"; "D"]; ["B"; "D"]]%string)
    by (vm_compute; reflexivity).
  split; [exact E|]. rewrite E. intros H.
  inversion H as [|? ? Hin _]. apply Hin. now left.
Qed.

Lemma retries_are_bounded_and_ledger_saved_witness :
  remaining_invoices [invoice_BD; invoice_AC] (load_progress None) =
    [invoice_BD] ++ invoice_AC :: [] /\
  (exists outs rec tail,
    let before :=
      fold_left (process_invoice driver_second_try still_clock 2)
                [invoice_BD] (connected None) in
    let after :=
      process_invoice driver_second_try still_clock 2 before invoice_AC in
    trace after =
      trace before ++ submit_events invoice_AC (range 1 (2 + 1)) outs
                   ++ [Save (progress after)] /\
    driver_answers driver_second_try (trace before) invoice_AC
                   (range 1 (2 + 1)) outs /\
    file after = Some (progress after) /\
    record_of invoice_AC rec /\
    Z.of_nat (length outs) <= Z.max 0 2 /\
    ((exists fails o,
        outs = fails ++ [o] /\ all_failed fails /\ succeeded o = true /\
        completed (progress after) = completed (progress before) ++ [rec] /\
        failed (progress after) = failed (progress before)) \/
     (all_failed outs /\
      Z.of_nat (length outs) = Z.max 0 2 /\
      completed (progress after) = completed (progress before) /\
      failed (progress after) = failed (progress before) ++ [rec])) /\
    trace (batch_merge driver_second_try still_clock true 2
                       [invoice_BD; invoice_AC] None) = trace after ++ tail /\
    (forall inv' a o, In (Submit inv' a o) tail -> In inv' [])) /\
  exists newc newf,
    completed (progress (batch_merge driver_second_try still_clock true 2
                                     [invoice_BD; invoice_AC] None)) =
      completed (load_progress None) ++ newc /\
    failed (progress (batch_merge driver_second_try still_clock true 2
                                  [invoice_BD; invoice_AC] None)) =
      failed (load_progress None) ++ newf.
Proof.
  assert (H : remaining_invoices [invoice_BD; invoice_AC] (load_progress None)
              = [invoice_BD] ++ invoice_AC :: [])
    by (vm_compute; reflexivity).
  split; [exact H|].
  exact (@retries_are_bounded_and_ledger_saved Q driver_second_try still_clock
           true 2 [invoice_BD; invoice_AC] None [invoice_BD] invoice_AC []
           eq_refl H).
Defined.

(** C7, as stated, fails across runs: an invoice whose attempts all fail
    is recorded as failed; the next run submits it again, because only
    completed entries are looked up, and when it succeeds then it is
    recorded as completed as well.  The ledger ends with the same invoice
    in both lists. *)
Lemma failed_invoice_is_later_completed_too :
  let first_run :=
    batch_merge driver_rejects still_clock true 2 [invoice_BD] None in
  let second_run :=
    batch_merge driver_accepts still_clock true 2 [invoice_BD]
                (file first_run) in
  map (@rec_order_ids Q) (failed (progress first_run)) =
    [order_ids invoice_BD] /\
  completed (progress first_run) = [] /\
  map (@rec_order_ids Q) (failed (progress second_run)) =
    [order_ids invoice_BD] /\
  map (@rec_order_ids Q) (completed (progress second_run)) =
    [order_ids invoice_BD] /\
  ~ (forall inv : Invoice Q,
       In (order_ids inv)
          (map (@rec_order_ids Q) (failed (progress second_run))) ->
       In (order_ids inv)
          (map (@rec_order_ids Q) (completed (progress second_run))) ->
       False).
Proof.
  simpl. repeat split; try (vm_compute; reflexivity).
  intros H. apply (H invoice_BD); vm_compute; auto.
Qed.

(** * Further properties of the planner *)

Lemma dict_get_set_same {A : Type} (d : dict (list A)) (k : Z) (v : list A) :
  dict_get (dict_set d k v) k = v.
Proof.
  induction d as [|[k' v'] d IH]; simpl.
  - now rewrite Z.eqb_refl.
  - destruct (k' =? k) eqn:E; simpl; rewrite E; [reflexivity|exact IH].
Qed.

Lemma dict_get_set_other {A : Type} (d : dict (list A)) (k o : Z)
    (v : list A) :
  o <> k -> dict_get (dict_set d k v) o = dict_get d o.
Proof.
  intros Hne. induction d as [|[k' v'] d IH]; simpl.
  - destruct (k =? o) eqn:E; [|reflexivity].
    apply Z.eqb_eq in E. congruence.
  - destruct (k' =? k) eqn:E; simpl.
    + apply Z.eqb_eq in E. subst k'.
      destruct (k =? o) eqn:E'; [|reflexivity].
      apply Z.eqb_eq in E'. congruence.
    + destruct (k' =? o); [reflexivity|exact IH].
Qed.

Lemma filter_all {A : Type} (f : A -> bool) (l : list A) :
  (forall x, In x l -> f x = true) -> filter f l = l.
Proof.
  induction l as [|x l IH]; intros H; simpl; [reflexivity|].
  rewrite (H x (or_introl eq_refl)), IH; [reflexivity|].
  intros y Hy. apply H. now right.
Qed.

Lemma filter_none {A : Type} (f : A -> bool) (l : list A) :
  (forall x, In x l -> f x = false) -> filter f l = [].
Proof.
  induction l as [|x l IH]; intros H; simpl; [reflexivity|].
  rewrite (H x (or_introl eq_refl)). apply IH.
  intros y Hy. apply H. now right.
Qed.

Section PlannerEdges.

Context {R : Type} {N : Number R}.

Implicit Types (by_org : dict (list (Order R))) (plan : Plan R) (target : R).

(** Visiting an owner leaves what the Plan holds for the others alone. *)
Lemma process_org_frame by_org target max_size plan org plan' (o : Z) :
  process_org by_org target max_size plan org = Some plan' ->
  o <> org ->
  dict_get (leftover plan') o = dict_get (leftover plan) o /\
  filter (fun inv => org_id inv =? o) (invoices plan') =
  filter (fun inv => org_id inv =? o) (invoices plan).
Proof.
  intros Hrun Hne.
  destruct (process_org_spec _ _ _ _ _ Hrun) as (new & lo & Hinv & Hok & Hlo & _).
  split.
  - destruct Hlo as [->|[_ ->]]; [now apply dict_get_set_other|reflexivity].
  - rewrite Hinv, filter_app, (filter_none _ new), app_nil_r; [reflexivity|].
    intros inv Hin. rewrite Forall_forall in Hok.
    destruct (Hok inv Hin) as (Ho & _). apply Z.eqb_neq. congruence.
Qed.

Lemma process_orgs_frame by_org target max_size orgs plan plan' (o : Z) :
  process_orgs by_org target max_size plan orgs = Some plan' ->
  ~ In o orgs ->
  dict_get (leftover plan') o = dict_get (leftover plan) o /\
  filter (fun inv => org_id inv =? o) (invoices plan') =
  filter (fun inv => org_id inv =? o) (invoices plan).
Proof.
  revert plan. induction orgs as [|org rest IH]; intros plan; simpl.
  - intros [= <-] _. auto.
  - destruct (process_org by_org target max_size plan org) as [plan1|] eqn:E;
      [|discriminate].
    intros Hrun Hnot.
    assert (Hne : o <> org) by (intros ->; tauto).
    apply process_org_frame with (o := o) in E; [|exact Hne].
    destruct E as (H1 & H2).
    destruct (IH plan1 Hrun) as (H3 & H4); [tauto|].
    split; congruence.
Qed.

Lemma process_orgs_below_target by_org target max_size orgs plan plan' (o : Z) :
  process_orgs by_org target max_size plan orgs = Some plan' ->
  NoDup orgs -> In o orgs ->
  num_lt (pool_total (dict_get by_org o)) target = true ->
  dict_get (leftover plan') o = dict_get by_org o /\
  filter (fun inv => org_id inv =? o) (invoices plan') =
  filter (fun inv => org_id inv =? o) (invoices plan).
Proof.
  revert plan. induction orgs as [|org rest IH]; intros plan; simpl;
    [intros _ _ []|].
  destruct (process_org by_org target max_size plan org) as [plan1|] eqn:E;
    [|discriminate].
  intros Hrun Hnd Hin Hlow. inversion Hnd as [|? ? Hfresh Hrest]; subst.
  destruct (Z.eq_dec o org) as [->|Hne].
  - apply process_orgs_frame with (o := org) in Hrun; [|exact Hfresh].
    destruct Hrun as (H1 & H2). rewrite H1, H2. unfold process_org in E. rewrite Hlow in E.
    injection E as <-. simpl. split; [apply dict_get_set_same|reflexivity].
  - apply process_org_frame with (o := o) in E; [|exact Hne].
    destruct E as (_ & H2).
    destruct Hin as [Heq|Hin]; [congruence|].
    destruct (IH plan1 Hrun Hrest Hin Hlow) as (H3 & H4).
    split; congruence.
Qed.

(** X1.  An owner whose eligible amounts sum below the target gets no
    invoice, and the owner's leftover list is the owner's eligible records
    in input order. *)
Theorem short_group_is_left_over (orders : list (Order R)) target max_size
    (o : Z) :
  num_lt (owner_total orders o) target = true ->
  exists plan,
    optimize orders target max_size = Some plan /\
    dict_get (leftover plan) o = eligible_of orders o /\
    filter (fun inv => org_id inv =? o) (invoices plan) = [].
Proof.
  intros Hlow.
  destruct (process_orgs_returns (group_by_org orders) target max_size
              (processing_order (group_by_org orders))
              {| invoices := []; leftover := [] |}) as (plan & Hrun).
  exists plan. split; [exact Hrun|].
  destruct (in_dec Z.eq_dec o (processing_order (group_by_org orders)))
    as [Hin|Hnot].
  - rewrite <- group_by_org_get.
    change (@nil (Invoice R))
      with (filter (fun inv : Invoice R => org_id inv =? o)
                   (invoices {| invoices := []; leftover := [] |})).
    apply process_orgs_below_target
      with (orgs := processing_order (group_by_org orders)) (target := target)
           (max_size := max_size); auto.
    + eapply Permutation_NoDup;
        [symmetry; apply processing_order_Permutation|].
      apply group_by_org_keys_NoDup.
    + now rewrite group_by_org_get.
  - apply process_orgs_frame with (o := o) in Hrun; [|exact Hnot].
    destruct Hrun as (H1 & H2). rewrite H1, H2. simpl. split; [|reflexivity].
    symmetry. apply eligible_of_absent. intros Hin. apply Hnot.
    eapply Permutation_in;
      [symmetry; apply processing_order_Permutation|].
    now apply group_by_org_keys_In.
Qed.

Lemma find_best_combo_no_sizes (awi : Combo R) target max_size :
  max_size < 2 -> find_best_combo awi target max_size = None.
Proof.
  intros H. unfold find_best_combo, range.
  replace (Z.to_nat (Z.min (max_size + 1) (Z.of_nat (length awi) + 1) - 2))
    with 0%nat by lia.
  reflexivity.
Qed.

Lemma process_org_small by_org target max_size plan org :
  max_size < 2 ->
  dict_get by_org org <> [] ->
  process_org by_org target max_size plan org =
  Some {| invoices := invoices plan;
          leftover := dict_set (leftover plan) org (dict_get by_org org) |}.
Proof.
  intros Hsmall Hne. unfold process_org.
  destruct (num_lt _ target); [reflexivity|].
  simpl merge_loop. rewrite find_best_combo_no_sizes by exact Hsmall.
  destruct (num_lt _ target);
    (rewrite filter_all by (intros; reflexivity);
     rewrite enumerate_snd;
     destruct (dict_get by_org org); [congruence|reflexivity]).
Qed.

Lemma process_orgs_small by_org target max_size orgs plan :
  max_size < 2 ->
  (forall o, In o orgs -> dict_get by_org o <> []) ->
  NoDup orgs ->
  (forall o, In o orgs -> ~ In o (map fst (leftover plan))) ->
  process_orgs by_org target max_size plan orgs =
  Some {| invoices := invoices plan;
          leftover := leftover plan ++
                      map (fun o => (o, dict_get by_org o)) orgs |}.
Proof.
  intros Hsmall. revert plan.
  induction orgs as [|org rest IH]; intros plan Hpools Hnd Hfresh; simpl.
  - rewrite app_nil_r. now destruct plan.
  - inversion Hnd as [|? ? Horg Hrest]; subst.
    rewrite process_org_small by (auto; apply Hpools; now left).
    rewrite IH; [|intros o Ho; apply Hpools; now right|exact Hrest|].
    + simpl. rewrite dict_set_fresh by (apply Hfresh; now left).
      now rewrite <- app_assoc.
    + intros o Ho. simpl.
      rewrite dict_set_fresh by (apply Hfresh; now left).
      rewrite map_app, in_app_iff. simpl.
      intros [Hin|[<-|[]]]; [|contradiction].
      apply (Hfresh o); [now right|exact Hin].
Qed.

Lemma eligible_of_present (orders : list (Order R)) (o : Z) :
  In o (map orgId (filter canHk orders)) -> eligible_of orders o <> [].
Proof.
  intros Hin. apply in_map_iff in Hin. destruct Hin as (x & <- & Hx).
  apply filter_In in Hx. destruct Hx as [Hx Hhk].
  assert (Hel : In x (eligible_of orders (orgId x))).
  { apply filter_In. split; [exact Hx|]. now rewrite Hhk, Z.eqb_refl. }
  intros E. rewrite E in Hel. destruct Hel.
Qed.

(** X2.  With a maximum of fewer than two orders per invoice nothing can
    be merged: the Plan has no invoice, and every owner's eligible records
    are left over, owner by owner in processing order. *)
Theorem no_invoice_when_max_size_below_two (orders : list (Order R)) target
    max_size :
  max_size < 2 ->
  optimize orders target max_size =
  Some {| invoices := [];
          leftover := map (fun o => (o, eligible_of orders o))
                          (processing_order (group_by_org orders)) |}.
Proof.
  intros Hsmall. unfold optimize.
  rewrite process_orgs_small; auto.
  - simpl. do 2 f_equal. apply map_ext. intros o.
    now rewrite group_by_org_get.
  - intros o Ho. rewrite group_by_org_get. apply eligible_of_present.
    apply group_by_org_keys_In.
    eapply Permutation_in; [apply processing_order_Permutation|exact Ho].
  - eapply Permutation_NoDup; [symmetry; apply processing_order_Permutation|].
    apply group_by_org_keys_NoDup.
Qed.

Lemma dict_append_values {A : Type} (d : dict (list A)) (k : Z) (x : A) :
  Permutation (flat_map snd (dict_append d k x)) (flat_map snd d ++ [x]).
Proof.
  induction d as [|[k' v] d IH]; simpl; [reflexivity|].
  destruct (k' =? k); simpl.
  - rewrite <- !app_assoc. apply Permutation_app_head, Permutation_app_comm.
  - rewrite IH. now rewrite app_assoc.
Qed.

Lemma group_by_org_values (orders : list (Order R)) :
  Permutation (flat_map snd (group_by_org orders)) (filter canHk orders).
Proof.
  unfold group_by_org.
  assert (H : forall (l : list (Order R)) d,
            Permutation
              (flat_map snd
                 (fold_left (fun by_org o => dict_append by_org (orgId o) o)
                            l d))
              (flat_map snd d ++ l)).
  { induction l as [|x l IH]; intros d; simpl; [now rewrite app_nil_r|].
    rewrite IH, dict_append_values, <- app_assoc. reflexivity. }
  apply (H (filter canHk orders) []).
Qed.

Lemma dict_get_own_keys {A : Type} (d : dict (list A)) :
  NoDup (map fst d) -> map (dict_get d) (map fst d) = map snd d.
Proof.
  induction d as [|[k v] d IH]; simpl; intros Hnd; [reflexivity|].
  inversion Hnd as [|? ? Hk Hd]; subst.
  rewrite Z.eqb_refl. f_equal. rewrite <- IH by exact Hd.
  apply map_ext_in. intros k' Hk'.
  destruct (k =? k') eqn:E; [|reflexivity].
  apply Z.eqb_eq in E. congruence.
Qed.

(** Everything the Plan holds, invoices and leftover together. *)
Lemma process_orgs_all_records by_org target max_size orgs plan plan' :
  process_orgs by_org target max_size plan orgs = Some plan' ->
  NoDup orgs ->
  (forall o, In o orgs -> ~ In o (map fst (leftover plan))) ->
  Permutation
    (flat_map inv_records (invoices plan') ++
     map order_record (flat_map snd (leftover plan')))
    ((flat_map inv_records (invoices plan) ++
      map order_record (flat_map snd (leftover plan))) ++
     map order_record (flat_map (dict_get by_org) orgs)).
Proof.
  revert plan. induction orgs as [|org rest IH]; intros plan; simpl.
  - intros [= <-] _ _. now rewrite app_nil_r.
  - destruct (process_org by_org target max_size plan org) as [plan1|] eqn:E;
      [|discriminate].
    intros Hrun Hnd Hfresh. inversion Hnd as [|? ? Horg Hrest]; subst.
    assert (Hfresh_org : ~ In org (map fst (leftover plan)))
      by (apply Hfresh; now left).
    destruct (process_org_spec _ _ _ _ _ E) as (new & lo & Hinv & _ & Hlo & Hperm).
    rewrite (IH plan1 Hrun Hrest).
    2:{ intros o Ho Hin.
        destruct (leftover_keys_step _ _ _ _ Hlo Hfresh_org Hin) as [H| ->];
          [apply (Hfresh o); auto|contradiction]. }
    rewrite map_app, app_assoc. apply Permutation_app_tail.
    rewrite <- Hperm, Hinv, flat_map_app.
    assert (Hl : flat_map snd (leftover plan1) =
                 flat_map snd (leftover plan) ++ lo).
    { destruct Hlo as [->|[-> ->]]; [|now rewrite app_nil_r].
      rewrite dict_set_fresh by exact Hfresh_org.
      rewrite flat_map_app. simpl. now rewrite app_nil_r. }
    rewrite Hl, map_app, <- !app_assoc. apply Permutation_app_head.
    rewrite !app_assoc. apply Permutation_app_tail, Permutation_app_comm.
Qed.

(** X3.  The summary of the returned Plan adds up: the orders used by
    invoices plus the orders left over are the eligible input orders, and
    an invoice uses two orders at least and [max_size] at most. *)
Theorem plan_summary_accounts_for_every_order (orders : list (Order R))
    target max_size :
  exists plan,
    optimize orders target max_size = Some plan /\
    (total_orders_used plan + length (leftover_orders_of plan))%nat =
      length (filter canHk orders) /\
    (2 * total_invoices plan <= total_orders_used plan)%nat /\
    Z.of_nat (total_orders_used plan) <=
      max_size * Z.of_nat (total_invoices plan).
Proof.
  destruct (optimize_spec orders target max_size)
    as (plan & blocks & Hrun & _ & _ & Hinv & Hblocks).
  exists plan. split; [exact Hrun|].
  assert (Hok : Forall (fun inv =>
                          length (inv_records inv) = count inv /\
                          (2 <= count inv)%nat /\
                          Z.of_nat (count inv) <= max_size)
                       (invoices plan)).
  { rewrite Hinv. eapply Forall_impl; [|apply (blocks_Forall _ Hblocks)].
    intros inv (o & _ & _ & _ & Hlen & H2 & Hmax & _).
    repeat split; auto. unfold inv_records, count.
    rewrite length_combine. lia. }
  assert (Hused : length (flat_map inv_records (invoices plan)) =
                  total_orders_used plan).
  { unfold total_orders_used. revert Hok. generalize (invoices plan).
    intros l Hok. induction Hok as [|inv l (H & _) _ IH]; simpl;
      [reflexivity|]. rewrite length_app, H, IH. reflexivity. }
  split; [|split].
  - unfold optimize in Hrun.
    apply process_orgs_all_records in Hrun;
      [|eapply Permutation_NoDup;
          [symmetry; apply processing_order_Permutation
          |apply group_by_org_keys_NoDup]
       |intros o _ []].
    apply Permutation_length in Hrun. simpl in Hrun.
    rewrite length_app, !length_map, Hused in Hrun.
    unfold leftover_orders_of. rewrite Hrun.
    apply Permutation_length.
    rewrite (Permutation_flat_map _
               (processing_order_Permutation (group_by_org orders))).
    rewrite flat_map_concat_map, dict_get_own_keys, <- flat_map_concat_map
      by apply group_by_org_keys_NoDup.
    apply group_by_org_values.
  - unfold total_orders_used, total_invoices. clear Hused. revert Hok.
    generalize (invoices plan). intros l Hok.
    induction Hok as [|inv l (_ & H2 & _) _ IH]; simpl; lia.
  - unfold total_orders_used, total_invoices. clear Hused. revert Hok.
    generalize (invoices plan). intros l Hok.
    induction Hok as [|inv l (_ & _ & Hmax) _ IH]; simpl length;
      simpl list_sum; lia.
Qed.

End PlannerEdges.

(** ** Why the loop over a group stops *)

Lemma dict_set_Forall {V : Type} (P : Z * V -> Prop) (d : dict V) (k : Z)
    (v : V) :
  Forall P d -> P (k, v) -> Forall P (dict_set d k v).
Proof.
  intros Hd Hv. induction Hd as [|[k' v'] d Hx Hd' IH]; simpl.
  - constructor; [exact Hv|constructor].
  - destruct (k' =? k) eqn:E.
    + apply Z.eqb_eq in E. subst k'. now constructor.
    + now constructor.
Qed.

Lemma dict_get_In {A : Type} (d : dict (list A)) (o : Z) :
  dict_get d o = [] \/ In (o, dict_get d o) d.
Proof.
  induction d as [|[k v] d IH]; simpl; [now left|].
  destruct (k =? o) eqn:E.
  - apply Z.eqb_eq in E. subst k. right. now left.
  - destruct IH; auto.
Qed.

Lemma combine_map_r {A B C : Type} (g : B -> C) (l : list A) (l' : list B) :
  combine l (map g l') = map (fun p => (fst p, g (snd p))) (combine l l').
Proof.
  revert l'. induction l as [|x l IH]; intros [|y l']; simpl;
    try reflexivity.
  now rewrite IH.
Qed.

Lemma enumerated_amounts {A B : Type} (g : A -> B) (f : nat -> bool)
    (l : list A) :
  map snd (filter (fun ib : nat * B => f (fst ib)) (enumerate (map g l))) =
  map g (map snd (filter (fun ia : nat * A => f (fst ia)) (enumerate l))).
Proof.
  unfold enumerate. rewrite length_map, combine_map_r.
  induction (combine (seq 0 (length l)) l) as [|[i a] t IH]; simpl;
    [reflexivity|].
  destruct (f i); simpl; now rewrite IH.
Qed.

Section LeftoverFacts.

Context {R : Type} {N : Number R}.

Implicit Types (by_org : dict (list (Order R))) (plan : Plan R) (target : R).

(** When the loop returns, what is unused sums below the target or holds
    no combination. *)
Lemma merge_loop_final fuel org (pool : list (Order R)) (available : Combo R)
    target max_size used invs used' invs' :
  merge_loop fuel org pool available target max_size used invs =
    Some (used', invs') ->
  num_lt (py_sum (map snd
            (filter (fun ia => negb (in_used used' (fst ia))) available)))
         target = true \/
  find_best_combo
    (sorted num_lt (fun x => num_neg (snd x))
            (filter (fun ia => negb (in_used used' (fst ia))) available))
    target max_size = None.
Proof.
  revert used invs. induction fuel as [|fuel IH]; intros used invs;
    [discriminate|].
  cbn [merge_loop]. intros Hrun.
  match type of Hrun with
  | context [if ?c then _ else _] => destruct c eqn:Hlt
  end.
  { injection Hrun as <- <-. now left. }
  match type of Hrun with
  | context [match ?c with Some _ => _ | None => _ end] =>
      destruct c as [combo|] eqn:Hfind
  end.
  - exact (IH _ _ Hrun).
  - injection Hrun as <- <-. now right.
Qed.

Lemma process_org_leftover by_org target max_size plan org plan' :
  process_org by_org target max_size plan org = Some plan' ->
  leftover plan' = leftover plan \/
  exists lo,
    leftover plan' = dict_set (leftover plan) org lo /\
    incl lo (dict_get by_org org) /\
    loop_stopped target max_size lo.
Proof.
  unfold process_org. set (pool := dict_get by_org org).
  destruct (num_lt (pool_total pool) target) eqn:Hlow.
  { intros [= <-]. right. exists pool. simpl.
    split; [reflexivity|]. split; [apply incl_refl|now left]. }
  destruct (merge_loop _ _ _ _ _ _ _ _) as [[used invs]|] eqn:Hloop;
    [|discriminate].
  intros [= <-]. simpl.
  set (lo := map snd (filter (fun ip => negb (in_used used (fst ip)))
                             (enumerate pool))).
  destruct lo as [|x lo'] eqn:Hlo; [now left|]. right.
  exists (x :: lo'). split; [reflexivity|]. rewrite <- Hlo. split.
  - intros y Hy. unfold lo in Hy. apply in_map_iff in Hy.
    destruct Hy as ([i y'] & <- & Hy). apply filter_In in Hy.
    destruct Hy as [Hy _]. apply in_enumerate in Hy.
    eapply nth_error_In; eauto.
  - assert (Hamt : map snd
                     (filter (fun ia : nat * R => negb (in_used used (fst ia)))
                             (enumerate (map ivcAmount pool))) =
                   map (@ivcAmount R) lo).
    { unfold lo.
      apply (enumerated_amounts (@ivcAmount R)
               (fun i => negb (in_used used i)) pool). }
    apply merge_loop_final in Hloop. destruct Hloop as [Hsum|Hnone].
    + left. now rewrite <- Hamt.
    + right. eexists. split; [exact Hamt|exact Hnone].
Qed.

Lemma process_orgs_leftover by_org target max_size orgs plan plan' :
  process_orgs by_org target max_size plan orgs = Some plan' ->
  Forall (fun e => incl (snd e) (dict_get by_org (fst e)) /\
                   loop_stopped target max_size (snd e)) (leftover plan) ->
  Forall (fun e => incl (snd e) (dict_get by_org (fst e)) /\
                   loop_stopped target max_size (snd e)) (leftover plan').
Proof.
  revert plan. induction orgs as [|org rest IH]; intros plan; simpl.
  - now intros [= <-].
  - destruct (process_org by_org target max_size plan org) as [plan1|] eqn:E;
      [|discriminate].
    intros Hrun Hall. apply (IH plan1 Hrun).
    destruct (process_org_leftover _ _ _ _ _ E) as [->|(lo & -> & Hincl & Hstop)];
      [exact Hall|].
    apply dict_set_Forall; auto.
Qed.

End LeftoverFacts.

(** ** Where the records of a Plan come from *)

Section PlanOrigins.

Context {R : Type} {N : Number R}.

Lemma optimize_returns (orders : list (Order R)) (target : R) (max_size : Z) :
  exists plan, optimize orders target max_size = Some plan.
Proof. apply process_orgs_returns. Qed.

Lemma optimize_invoices_ok (orders : list (Order R)) (target : R)
    (max_size : Z) (plan : Plan R) :
  optimize orders target max_size = Some plan ->
  Forall (fun inv => invoice_ok (eligible_of orders (org_id inv)) (org_id inv)
                                target max_size inv)
         (invoices plan).
Proof.
  intros Hrun.
  destruct (optimize_spec orders target max_size)
    as (plan' & blocks & Hrun' & _ & _ & Hinv & Hblocks).
  assert (plan' = plan) by congruence. subst plan'.
  rewrite Hinv. eapply Forall_impl; [|apply (blocks_Forall _ Hblocks)].
  intros inv (o & _ & Hok). destruct Hok as (Ho & Hrest).
  subst o. split; [reflexivity|exact Hrest].
Qed.

Lemma in_combine_fst {A B : Type} (l : list A) (l' : list B) (a : A) :
  length l = length l' -> In a l -> exists b, In (a, b) (combine l l').
Proof.
  revert l'. induction l as [|x l IH]; intros [|y l'] Hlen Hin;
    simpl in *; try contradiction; try discriminate.
  destruct Hin as [<-|Hin]; [exists y; now left|].
  destruct (@IH l' ltac:(lia) Hin) as (b & Hb). exists b. now right.
Qed.

(** An order id of an invoice is the id of an eligible input order of the
    invoice's owner. *)
Lemma invoice_ids_from_orders (orders : list (Order R)) (target : R)
    (max_size : Z) (plan : Plan R) (inv : Invoice R) (id : string) :
  optimize orders target max_size = Some plan ->
  In inv (invoices plan) -> In id (order_ids inv) ->
  exists x, In x orders /\ canHk x = true /\ orgId x = org_id inv /\
            orderId x = id.
Proof.
  intros Hrun Hinv Hid.
  pose proof (optimize_invoices_ok _ _ _ Hrun) as Hok.
  rewrite Forall_forall in Hok.
  destruct (Hok inv Hinv) as (_ & _ & Hlen & _ & _ & _ & Hincl).
  destruct (@in_combine_fst _ _ _ _ id Hlen Hid) as (a & Ha).
  apply Hincl in Ha. apply in_map_iff in Ha. destruct Ha as (x & Hx & Hin).
  apply filter_In in Hin. destruct Hin as [Hin Hf].
  apply andb_true_iff in Hf. destruct Hf as [Hhk Ho].
  apply Z.eqb_eq in Ho. injection Hx as Hx _.
  exists x. auto.
Qed.

(** A leftover record is an eligible input order of the owner it is filed
    under. *)
Lemma leftover_from_orders (orders : list (Order R)) (target : R)
    (max_size : Z) (plan : Plan R) (o : Z) (lo : list (Order R))
    (x : Order R) :
  optimize orders target max_size = Some plan ->
  In (o, lo) (leftover plan) -> In x lo ->
  In x orders /\ canHk x = true /\ orgId x = o.
Proof.
  intros Hrun Hin Hx.
  pose proof (@process_orgs_leftover R _ _ _ _ _ _ _ Hrun (Forall_nil _))
    as Hall.
  rewrite Forall_forall in Hall. destruct (Hall _ Hin) as [Hincl _].
  simpl in Hincl. apply Hincl in Hx. rewrite group_by_org_get in Hx.
  apply filter_In in Hx. destruct Hx as [Hx Hf].
  apply andb_true_iff in Hf. destruct Hf as [Hhk Ho].
  apply Z.eqb_eq in Ho. auto.
Qed.

End PlanOrigins.

(** ** [main] of the planner and the progress ledger *)

Section Replanning.

Context {R : Type} {N : Number R}.

Lemma fold_set_add_string (l : list string) (s : set string) (id : string) :
  In id (fold_left (fun ids id' => set_add string_dec id' ids) l s) <->
  In id s \/ In id l.
Proof.
  revert s. induction l as [|x l IH]; intros s; simpl; [tauto|].
  rewrite IH, set_add_iff. intuition congruence.
Qed.

Lemma done_ids_In (progress : Progress R) (id : string) :
  In id (done_ids (Some progress)) <->
  exists r, In r (completed progress) /\ In id (rec_order_ids r).
Proof.
  unfold done_ids.
  assert (H : forall (l : list (ProgressRecord R)) s,
            In id (fold_left
                     (fun ids (inv : ProgressRecord R) =>
                        fold_left (fun ids id' => set_add string_dec id' ids)
                                  (rec_order_ids inv) ids) l s) <->
            In id s \/ exists r, In r l /\ In id (rec_order_ids r)).
  { induction l as [|r l IH]; intros s; simpl.
    - split; [auto|]. intros [G|(r & [] & _)]. exact G.
    - rewrite IH, fold_set_add_string. split.
      + intros [[G|G]|(r' & Hr' & G)]; eauto.
      + intros [G|(r' & [<-|Hr'] & G)]; eauto. }
  rewrite H. simpl. split; [intros [[]|G]; exact G|auto].
Qed.

Lemma pending_orders_In (all_orders : list (Order R))
    (progress : Progress R) (x : Order R) :
  In x (pending_orders all_orders (Some progress)) ->
  In x all_orders /\
  forall r, In r (completed progress) -> ~ In (orderId x) (rec_order_ids r).
Proof.
  unfold pending_orders. rewrite filter_In, negb_true_iff.
  intros [Hin Hmem]. split; [exact Hin|]. intros r Hr Hid.
  assert (Hdone : In (orderId x) (done_ids (Some progress)))
    by (apply done_ids_In; eauto).
  apply (set_mem_correct2 string_dec) in Hdone. congruence.
Qed.

(** X6.  [main] plans without the orders of the completed ledger entries:
    no order id of a completed entry of the progress file shows up in the
    new Plan, neither in an invoice nor among the leftover records. *)
Theorem main_leaves_completed_orders_out (all_orders : list (Order R))
    (progress : Progress R) (target : R) (max_size : Z) :
  exists plan,
    main_plan all_orders (Some progress) target max_size = Some plan /\
    (forall inv id r,
       In inv (invoices plan) -> In id (order_ids inv) ->
       In r (completed progress) -> ~ In id (rec_order_ids r)) /\
    (forall o lo x r,
       In (o, lo) (leftover plan) -> In x lo ->
       In r (completed progress) -> ~ In (orderId x) (rec_order_ids r)).
Proof.
  unfold main_plan.
  destruct (optimize_returns (pending_orders all_orders (Some progress))
                             target max_size) as (plan & Hrun).
  exists plan. split; [exact Hrun|]. split.
  - intros inv id r Hinv Hid Hr.
    destruct (invoice_ids_from_orders _ _ _ _ _ Hrun Hinv Hid)
      as (x & Hx & _ & _ & <-).
    apply pending_orders_In in Hx. destruct Hx as [_ Hx]. now apply Hx.
  - intros o lo x r Hin Hx Hr.
    destruct (leftover_from_orders _ _ _ _ _ _ Hrun Hin Hx) as (Hp & _).
    apply pending_orders_In in Hp. destruct Hp as [_ Hp]. now apply Hp.
Qed.

(** X7.  The executor skips none of the invoices [main] plans from the
    progress file the executor then reads: the new Plan holds no invoice
    whose identity key is that of a completed entry. *)
Theorem replanned_invoices_are_all_pending (all_orders : list (Order R))
    (progress : Progress R) (target : R) (max_size : Z) :
  exists plan,
    main_plan all_orders (Some progress) target max_size = Some plan /\
    remaining_invoices (invoices plan) (load_progress (Some progress)) =
      invoices plan.
Proof.
  unfold main_plan.
  destruct (optimize_returns (pending_orders all_orders (Some progress))
                             target max_size) as (plan & Hrun).
  exists plan. split; [exact Hrun|].
  unfold remaining_invoices. apply filter_all. intros inv Hinv.
  apply negb_true_iff.
  destruct (set_mem key_dec _ _) eqn:E; [|reflexivity]. exfalso.
  apply set_mem_correct1, completed_keys_In, in_map_iff in E.
  destruct E as (r & Hkey & Hr). unfold record_key, identity_key in Hkey.
  assert (Hperm : Permutation (rec_order_ids r) (order_ids inv)).
  { rewrite <- (sorted_Permutation String.ltb (fun id => id)
                                   (rec_order_ids r)), Hkey.
    apply sorted_Permutation. }
  pose proof (optimize_invoices_ok _ _ _ Hrun) as Hok.
  rewrite Forall_forall in Hok.
  destruct (Hok inv Hinv) as (_ & _ & _ & H2 & _).
  unfold count in H2.
  destruct (order_ids inv) as [|id ids] eqn:Hids; [simpl in H2; lia|].
  assert (Hid : In id (order_ids inv)) by (rewrite Hids; now left).
  destruct (invoice_ids_from_orders _ _ _ _ _ Hrun Hinv Hid)
    as (x & Hx & _ & _ & Hxid).
  apply pending_orders_In in Hx. destruct Hx as [_ Hx].
  apply (Hx r Hr). rewrite Hxid.
  eapply Permutation_in; [symmetry; exact Hperm|]. now left.
Qed.

End Replanning.

(** ** Further properties of the executor *)

Section ExecutorEdges.

Context {R : Type}.

Variable submit_one_invoice : list (event R) -> Invoice R -> Z -> outcome.
Variable now : list (event R) -> string.
Variable connect : bool.
Variable retry_limit : Z.

Local Abbreviation run :=
  (batch_merge submit_one_invoice now connect retry_limit).
Local Abbreviation one_invoice :=
  (process_invoice submit_one_invoice now retry_limit).

Implicit Types (st : state R) (inv : Invoice R).

Lemma range_empty (lo hi : Z) : hi <= lo -> range lo hi = [].
Proof.
  intros H. unfold range. replace (Z.to_nat (hi - lo)) with 0%nat by lia.
  reflexivity.
Qed.

(** With no attempt to make, an invoice goes to the failed list right
    away, with an empty message. *)
Lemma process_invoice_no_attempt st inv :
  retry_limit <= 0 ->
  exists rec,
    record_of inv rec /\ rec_message rec = EmptyString /\
    progress (one_invoice st inv) =
      {| completed := completed (progress st);
         failed := failed (progress st) ++ [rec];
         skipped := skipped (progress st) |} /\
    trace (one_invoice st inv) =
      trace st ++ [Save (progress (one_invoice st inv))].
Proof.
  intros Hlim. unfold process_invoice.
  rewrite range_empty by lia. simpl.
  eexists. split; [|split; [|split; reflexivity]].
  - repeat split.
  - reflexivity.
Qed.

Lemma process_all_no_attempt (l : list (Invoice R)) st :
  retry_limit <= 0 ->
  exists newf,
    completed (progress (fold_left one_invoice l st)) =
      completed (progress st) /\
    failed (progress (fold_left one_invoice l st)) =
      failed (progress st) ++ newf /\
    Forall2 (fun inv rec => record_of inv rec /\
                            rec_message rec = EmptyString) l newf /\
    (forall inv a o,
       In (Submit inv a o) (trace (fold_left one_invoice l st)) ->
       In (Submit inv a o) (trace st)).
Proof.
  intros Hlim. revert st. induction l as [|inv rest IH]; intros st; simpl.
  - exists []. rewrite app_nil_r. repeat split; auto.
  - destruct (process_invoice_no_attempt st inv Hlim)
      as (rec & Hrec & Hmsg & Hp & Htr).
    destruct (IH (one_invoice st inv)) as (newf & Hc & Hf & Hall & Hsub).
    exists (rec :: newf). rewrite Hc, Hf, Hp. simpl.
    rewrite <- app_assoc. repeat split; auto.
    intros inv' a o Hin. apply Hsub in Hin. rewrite Htr in Hin.
    apply in_app_or in Hin. destruct Hin as [Hin|[Hin|[]]];
      [exact Hin|discriminate].
Qed.

(** X8.  With a retry limit of zero or less the run submits nothing: every
    invoice it does not skip is recorded as failed, in plan order and with
    an empty message, and the completed list stays as it was. *)
Theorem nothing_is_submitted_without_retries (invoices : list (Invoice R))
    (file0 : option (Progress R)) :
  retry_limit <= 0 ->
  connect = true ->
  (forall inv a o, ~ In (Submit inv a o) (trace (run invoices file0))) /\
  completed (progress (run invoices file0)) =
    completed (load_progress file0) /\
  exists newf,
    failed (progress (run invoices file0)) =
      failed (load_progress file0) ++ newf /\
    Forall2 (fun inv rec => record_of inv rec /\
                            rec_message rec = EmptyString)
            (remaining_invoices invoices (load_progress file0)) newf.
Proof.
  intros Hlim Hc. unfold batch_merge. rewrite Hc.
  destruct (remaining_invoices invoices (load_progress file0))
    as [|inv0 rest] eqn:Hrem.
  - simpl. split; [intros inv a o []|]. split; [reflexivity|].
    exists []. rewrite app_nil_r. split; [reflexivity|constructor].
  - destruct (process_all_no_attempt (inv0 :: rest) (connected file0) Hlim)
      as (newf & Hcomp & Hfail & Hall & Hsub).
    split; [|split; [exact Hcomp|exists newf; split; [exact Hfail|exact Hall]]].
    intros inv a o Hin. apply Hsub in Hin. simpl in Hin.
    destruct Hin as [Hin|[]]. discriminate.
Qed.

(** A later run, with a driver, a clock and settings of its own. *)
Variable submit_one_invoice' : list (event R) -> Invoice R -> Z -> outcome.
Variable now' : list (event R) -> string.
Variable connect' : bool.
Variable retry_limit' : Z.

Local Abbreviation rerun :=
  (batch_merge submit_one_invoice' now' connect' retry_limit').

(** X9.  Running the same plan again after a run that recorded no
    failure does nothing: the second run finds every invoice completed,
    opens no connection, submits nothing and leaves the progress file as
    the first run wrote it. *)
Theorem rerun_after_success_does_nothing (invoices : list (Invoice R))
    (file0 : option (Progress R)) :
  connect = true ->
  failed (progress (run invoices file0)) = failed (load_progress file0) ->
  rerun invoices (file (run invoices file0)) =
    at_start (file (run invoices file0)).
Proof.
  intros Hc Hnofail.
  destruct (batch_merge_spec submit_one_invoice now connect retry_limit
                             invoices file0)
    as (_ & Hfile & (newc & newf & Hcomp & Hfail & _ & Hperm & _) & _).
  assert (Hnewf : newf = []).
  { rewrite Hnofail in Hfail. rewrite <- (app_nil_r (failed _)) in Hfail at 1.
    apply app_inv_head in Hfail. now symmetry. }
  subst newf. rewrite app_nil_r in Hperm. specialize (Hperm Hc).
  assert (Hnone : remaining_invoices invoices
                    (load_progress (file (run invoices file0))) = []).
  { destruct (remaining_invoices invoices (load_progress file0))
      as [|inv0 rest] eqn:Hrem.
    - unfold batch_merge. rewrite Hrem. simpl. exact Hrem.
    - assert (Hf : file (run invoices file0) =
                   Some (progress (run invoices file0))).
      { rewrite batch_merge_connected by (auto; rewrite Hrem; discriminate).
        rewrite Hrem. apply process_all_file. discriminate. }
      rewrite Hf. simpl load_progress.
      apply filter_none. intros inv Hinv. apply negb_false_iff.
      apply (set_mem_correct2 key_dec), completed_keys_In.
      rewrite Hcomp, map_app, in_app_iff.
      destruct (in_dec key_dec (invoice_key inv)
                  (map (@record_key R) (completed (load_progress file0))))
        as [Hold|Hnew]; [now left|right].
      assert (Hin : In inv (inv0 :: rest)).
      { rewrite <- Hrem. apply remaining_invoices_In. split; assumption. }
      assert (Hids : In (order_ids inv) (map (@rec_order_ids R) newc)).
      { eapply Permutation_in; [symmetry; exact Hperm|]. now apply in_map. }
      apply in_map_iff in Hids. destruct Hids as (r & Hr & Hrin).
      apply in_map_iff. exists r. split; [|exact Hrin].
      unfold record_key, invoice_key. now rewrite Hr. }
  unfold batch_merge at 1. now rewrite Hnone.
Qed.

End ExecutorEdges.

(** ** The orders of an invoice, looked up by the executor *)

Lemma str_get_set_same {V : Type} (d : str_dict V) (k : string) (v : V) :
  str_get (str_set d k v) k = Some v.
Proof.
  induction d as [|[k' v'] d IH]; simpl.
  - now rewrite String.eqb_refl.
  - destruct (String.eqb k' k) eqn:E; simpl; rewrite E; [reflexivity|exact IH].
Qed.

Lemma str_get_set_other {V : Type} (d : str_dict V) (k k0 : string) (v : V) :
  k0 <> k -> str_get (str_set d k v) k0 = str_get d k0.
Proof.
  intros Hne. induction d as [|[k' v'] d IH]; simpl.
  - destruct (String.eqb k k0) eqn:E; [|reflexivity].
    apply String.eqb_eq in E. congruence.
  - destruct (String.eqb k' k) eqn:E; simpl.
    + apply String.eqb_eq in E. subst k'.
      destruct (String.eqb k k0) eqn:E'; [|reflexivity].
      apply String.eqb_eq in E'. congruence.
    + destruct (String.eqb k' k0); [reflexivity|exact IH].
Qed.

Section GatherFacts.

Context {R : Type} {N : Number R}.

Variable Info : Type.
Variable truthy : Info -> bool.

Implicit Types (all_orders : list (OrderData R Info))
         (orders_map : str_dict (OrderData R Info)).

Lemma fold_str_set_keeps (l : list (OrderData R Info)) orders_map
    (id : string) :
  str_get orders_map id <> None ->
  str_get (fold_left (fun m o => str_set m (orderId (order_of o)) o)
                     l orders_map) id <> None.
Proof.
  revert orders_map. induction l as [|x l IH]; intros orders_map Hm; simpl;
    [exact Hm|].
  apply IH. destruct (string_dec id (orderId (order_of x))) as [->|Hne].
  - rewrite str_get_set_same. discriminate.
  - rewrite str_get_set_other by exact Hne. exact Hm.
Qed.

Lemma fold_str_set_get (l : list (OrderData R Info)) orders_map
    (id : string) :
  (forall o, str_get orders_map id = Some o -> orderId (order_of o) = id) ->
  (forall o,
     str_get (fold_left (fun m o => str_set m (orderId (order_of o)) o)
                        l orders_map) id = Some o ->
     orderId (order_of o) = id /\
     (In o l \/ str_get orders_map id = Some o)) /\
  ((exists o, In o l /\ orderId (order_of o) = id) ->
   str_get (fold_left (fun m o => str_set m (orderId (order_of o)) o)
                      l orders_map) id <> None).
Proof.
  revert orders_map. induction l as [|x l IH]; intros orders_map Hm; simpl.
  - split; [auto|]. intros (o & [] & _).
  - assert (Hm' : forall o,
              str_get (str_set orders_map (orderId (order_of x)) x) id =
                Some o -> orderId (order_of o) = id).
    { intros o. destruct (string_dec id (orderId (order_of x))) as [->|Hne].
      - rewrite str_get_set_same. now intros [= <-].
      - rewrite str_get_set_other by exact Hne. apply Hm. }
    destruct (IH _ Hm') as [IH1 IH2]. split.
    + intros o Ho. destruct (IH1 o Ho) as [Hid [Hin|Hget]]; [auto| ].
      split; [exact Hid|].
      destruct (string_dec id (orderId (order_of x))) as [->|Hne].
      * rewrite str_get_set_same in Hget. injection Hget as <-. auto.
      * rewrite str_get_set_other in Hget by exact Hne. auto.
    + intros (o & [<-|Hin] & Hid); [|apply IH2; eauto].
      apply fold_str_set_keeps. rewrite Hid, str_get_set_same. discriminate.
Qed.

(** What the map holds under an order id of the orders file. *)
Lemma all_orders_map_get all_orders (id : string) :
  (forall o, str_get (all_orders_map all_orders) id = Some o ->
             orderId (order_of o) = id /\ In o all_orders) /\
  ((exists o, In o all_orders /\ orderId (order_of o) = id) ->
   str_get (all_orders_map all_orders) id <> None).
Proof.
  unfold all_orders_map.
  destruct (@fold_str_set_get all_orders [] id) as [H1 H2];
    [discriminate|].
  split; [|exact H2].
  intros o Ho. destruct (H1 o Ho) as [Hid [Hin|Hget]]; [auto|discriminate].
Qed.

(** The loop over the order ids, when every id is in the map. *)
Lemma gather_spec orders_map (order_ids : list string)
    (selected : list (OrderData R Info)) :
  (forall id, In id order_ids -> str_get orders_map id <> None) ->
  (exists more,
     gather truthy orders_map order_ids selected =
       Selected (selected ++ more) /\
     Forall2 (fun id o =>
                str_get orders_map id = Some o /\
                exists info, originalOrderInfo o = Some info /\
                             truthy info = true)
             order_ids more) \/
  (exists oid, In oid order_ids /\
               gather truthy orders_map order_ids selected =
                 Missing_info oid).
Proof.
  revert selected. induction order_ids as [|id rest IH]; intros selected Hall.
  - left. exists []. simpl. rewrite app_nil_r. split; [reflexivity|constructor].
  - simpl. destruct (str_get orders_map id) as [o|] eqn:Hget;
      [|exfalso; apply (Hall id); [now left|exact Hget]].
    destruct (originalOrderInfo o) as [info|] eqn:Hinfo;
      [|right; exists id; split; [now left|reflexivity]].
    destruct (truthy info) eqn:Htruthy;
      [|right; exists id; split; [now left|reflexivity]].
    destruct (IH (selected ++ [o]))
      as [(more & Hres & Hmore)|(oid & Hin & Hres)].
    + intros id' Hid'. apply Hall. now right.
    + left. exists (o :: more). rewrite Hres, <- app_assoc.
      split; [reflexivity|]. constructor; [|exact Hmore].
      split; [exact Hget|]. eauto.
    + right. exists oid. split; [now right|exact Hres].
Qed.

(** X10.  The executor finds every order of a planned invoice in the
    orders file the plan was made from: for an invoice of the Plan of
    [main], the first step of [submit_one_invoice] never stops at an order
    that is not in the data.  It ends with the orders selected, one per
    order id and in that order, or at an order that has no
    [originalOrderInfo]. *)
Theorem planned_orders_are_found all_orders
    (progress_file : option (Progress R)) (target : R) (max_size : Z) :
  exists plan,
    main_plan (map (@order_of R Info) all_orders) progress_file
              target max_size = Some plan /\
    forall inv, In inv (invoices plan) ->
      (forall oid,
         gather truthy (all_orders_map all_orders) (order_ids inv) [] <>
           Not_found oid) /\
      ((exists selected,
          gather truthy (all_orders_map all_orders) (order_ids inv) [] =
            Selected selected /\
          map (fun o => orderId (order_of o)) selected = order_ids inv /\
          Forall (fun o => In o all_orders /\
                           exists info, originalOrderInfo o = Some info /\
                                        truthy info = true) selected) \/
       (exists oid,
          In oid (order_ids inv) /\
          gather truthy (all_orders_map all_orders) (order_ids inv) [] =
            Missing_info oid)).
Proof.
  unfold main_plan.
  destruct (optimize_returns
              (pending_orders (map (@order_of R Info) all_orders)
                              progress_file) target max_size)
    as (plan & Hrun).
  exists plan. split; [exact Hrun|]. intros inv Hinv.
  assert (Hfound : forall id, In id (order_ids inv) ->
            str_get (all_orders_map all_orders) id <> None).
  { intros id Hid.
    destruct (invoice_ids_from_orders _ _ _ _ _ Hrun Hinv Hid)
      as (x & Hx & _ & _ & Hxid).
    unfold pending_orders in Hx. apply filter_In in Hx.
    destruct Hx as [Hx _]. apply in_map_iff in Hx.
    destruct Hx as (o & <- & Ho).
    apply all_orders_map_get. eauto. }
  destruct (gather_spec (all_orders_map all_orders) (order_ids inv) []
                        Hfound)
    as [(more & Hres & Hmore)|(oid & Hin & Hres)].
  - simpl in Hres. split; [intros oid; rewrite Hres; discriminate|].
    left. exists more. split; [exact Hres|].
    clear Hres. revert Hmore. generalize (order_ids inv) as ids.
    intros ids Hmore.
    induction Hmore as [|id o ids more (Hget & Hinfo) _ IH].
    + split; [reflexivity|constructor].
    + apply all_orders_map_get in Hget. destruct Hget as [Hid Hin].
      destruct IH as [IH1 IH2].
      split; [simpl; now rewrite Hid, IH1|].
      constructor; [split; [exact Hin|exact Hinfo]|exact IH2].
  - split; [intros oid'; rewrite Hres; discriminate|].
    right. exists oid. auto.
Qed.

End GatherFacts.

(** ** The configuration *)

Lemma _deep_merge_cons (base : str_dict json) (k : string) (v : json)
    (rest : str_dict json) :
  _deep_merge base ((k, v) :: rest) = _deep_merge (merge_entry base k v) rest.
Proof.
  unfold _deep_merge, merge_entry. simpl.
  destruct (str_get base k) as [[]|]; destruct v; reflexivity.
Qed.

Lemma str_get_None {V : Type} (d : str_dict V) (k : string) :
  ~ In k (map fst d) -> str_get d k = None.
Proof.
  induction d as [|[k' v] d IH]; simpl; [reflexivity|]. intros H.
  destruct (String.eqb k' k) eqn:E.
  - apply String.eqb_eq in E. tauto.
  - apply IH. tauto.
Qed.

Lemma str_mem_In {V : Type} (d : str_dict V) (k : string) :
  str_mem d k = true <-> In k (map fst d).
Proof.
  unfold str_mem. rewrite existsb_exists. split.
  - intros (x & Hx & E). apply String.eqb_eq in E. now subst.
  - intros H. exists k. split; [exact H|apply String.eqb_refl].
Qed.

Lemma str_set_keys {V : Type} (d : str_dict V) (k : string) (v : V) :
  map fst (str_set d k v) =
  if str_mem d k then map fst d else map fst d ++ [k].
Proof.
  unfold str_mem. induction d as [|[k' v'] d IH]; simpl; [reflexivity|].
  rewrite (String.eqb_sym k k').
  destruct (String.eqb k' k) eqn:E; simpl; [reflexivity|].
  rewrite IH. now destruct (existsb (String.eqb k) (map fst d)).
Qed.

Lemma merge_entry_get_same (base : str_dict json) (k : string) (v : json) :
  str_get (merge_entry base k v) k =
  match str_get base k, v with
  | Some (JDict b), JDict o => Some (JDict (_deep_merge b o))
  | _, _ => Some v
  end.
Proof.
  unfold merge_entry.
  destruct (str_get base k) as [[]|]; destruct v;
    apply str_get_set_same.
Qed.

Lemma merge_entry_get_other (base : str_dict json) (k k0 : string)
    (v : json) :
  k0 <> k -> str_get (merge_entry base k v) k0 = str_get base k0.
Proof.
  intros Hne. unfold merge_entry.
  destruct (str_get base k) as [[]|]; destruct v;
    now apply str_get_set_other.
Qed.

Lemma merge_entry_keys (base : str_dict json) (k : string) (v : json) :
  map fst (merge_entry base k v) =
  if str_mem base k then map fst base else map fst base ++ [k].
Proof.
  unfold merge_entry.
  destruct (str_get base k) as [[]|]; destruct v; apply str_set_keys.
Qed.

(** X11.  What the merged configuration holds under a key: the value of
    [base] when [override] has no such key; the merge of the two values
    when both are dicts; the value of [override] in every other case, also
    when that replaces a dict of [base] by something that is none. *)
Theorem deep_merge_lookup (base override : str_dict json) (k : string) :
  NoDup (map fst override) ->
  str_get (_deep_merge base override) k =
  match str_get override k with
  | None => str_get base k
  | Some v =>
      match str_get base k, v with
      | Some (JDict b), JDict o => Some (JDict (_deep_merge b o))
      | _, _ => Some v
      end
  end.
Proof.
  revert base. induction override as [|[k' v'] rest IH]; intros base Hnd;
    [reflexivity|].
  simpl in Hnd. inversion Hnd as [|? ? Hfresh Hrest]; subst.
  rewrite _deep_merge_cons, (IH _ Hrest). simpl.
  destruct (String.eqb k' k) eqn:E.
  - apply String.eqb_eq in E. subst k'.
    rewrite (str_get_None rest k Hfresh). apply merge_entry_get_same.
  - assert (Hne : k <> k') by (intros ->; rewrite String.eqb_refl in E;
                               discriminate).
    now rewrite (merge_entry_get_other base v' Hne).
Qed.

(** X12.  A merge never drops or moves a key of [base]: the keys
    afterwards are the keys of [base] in their order, followed by the keys
    of [override] that [base] did not have, in the order of [override]. *)
Theorem deep_merge_keeps_the_keys (base override : str_dict json) :
  NoDup (map fst override) ->
  map fst (_deep_merge base override) =
  map fst base ++ filter (fun k => negb (str_mem base k)) (map fst override).
Proof.
  revert base. induction override as [|[k v] rest IH]; intros base Hnd.
  - simpl. now rewrite app_nil_r.
  - simpl in Hnd. inversion Hnd as [|? ? Hfresh Hrest]; subst.
    rewrite _deep_merge_cons, (IH _ Hrest), merge_entry_keys. simpl.
    assert (Hsame : forall k0, In k0 (map fst rest) ->
              negb (str_mem (merge_entry base k v) k0) =
              negb (str_mem base k0)).
    { intros k0 Hk0. f_equal.
      assert (Hne : k0 <> k) by congruence.
      destruct (str_mem base k0) eqn:E.
      - apply str_mem_In. rewrite merge_entry_keys.
        apply str_mem_In in E. destruct (str_mem base k); [exact E|].
        apply in_or_app. now left.
      - destruct (str_mem (merge_entry base k v) k0) eqn:E';
          [|reflexivity].
        apply str_mem_In in E'. rewrite merge_entry_keys in E'.
        destruct (str_mem base k).
        + apply str_mem_In in E'. congruence.
        + apply in_app_or in E'. destruct E' as [E'|[E'|[]]];
            [apply str_mem_In in E'|]; congruence. }
    rewrite (filter_ext_in _ _ _ Hsame).
    destruct (str_mem base k); simpl; [reflexivity|].
    now rewrite <- app_assoc.
Qed.

(** X13.  The configuration is loaded once: after a call that returned a
    configuration, every later [load_config] and [get_config] returns that
    same configuration, whatever path is asked for and whatever the files
    hold by then; a call that raised leaves nothing behind. *)
Theorem config_is_loaded_once (files : string -> config_file) (path : string)
    (_config : option (str_dict json)) :
  match load_config files path _config with
  | (Some config, _config') =>
      forall (files' : string -> config_file) (path' : string),
        load_config files' path' _config' = (Some config, _config') /\
        get_config files' _config' = (Some config, _config')
  | (None, _config') => _config = None /\ _config' = None
  end.
Proof.
  unfold load_config. destruct _config as [config|]; [now split|].
  destruct (files path) as [| |[| | | | |user_config]]; try now split.
Qed.

(** ** Fetching the orders page by page *)

Lemma range_cons (lo hi : Z) : lo < hi -> range lo hi = lo :: range (lo + 1) hi.
Proof.
  intros H. unfold range.
  replace (Z.to_nat (hi - lo)) with (S (Z.to_nat (hi - (lo + 1)))) by lia.
  simpl. rewrite Z.add_0_r. f_equal.
  rewrite <- seq_shift, map_map. apply map_ext. intros i. lia.
Qed.

Section FetchFacts.

Variable Item : Type.
Variable request : Z -> page_reply Item.

Lemma fetch_loop_spec (n : nat) :
  forall (fuel : nat) (all_data : list Item) (page : Z) (requested : list Z),
    (forall i, page <= i < page + Z.of_nat n ->
               page_items_of (request i) <> []) ->
    last_page (request (page + Z.of_nat n)) = true ->
    (n < fuel)%nat ->
    fetch_loop request fuel all_data page requested =
    Some (Some (all_data ++
                flat_map (fun i => page_items_of (request i))
                         (range page (page + Z.of_nat n))),
          requested ++ range page (page + Z.of_nat n + 1)).
Proof.
  induction n as [|n IH]; intros fuel all_data page requested Hpages Hlast Hfuel;
    (destruct fuel as [|fuel]; [lia|]).
  - rewrite Z.add_0_r in *. rewrite range_empty by lia.
    rewrite range_cons, range_empty by lia. simpl. rewrite app_nil_r.
    destruct (request page) as [| | | |[|x items]]; try discriminate;
      reflexivity.
  - assert (Hpage : page_items_of (request page) <> []) by (apply Hpages; lia).
    rewrite (range_cons (lo := page)) by lia.
    rewrite (range_cons (lo := page) (hi := page + Z.of_nat (S n) + 1)) by lia.
    simpl flat_map. simpl fetch_loop.
    destruct (request page) as [| | | |[|x items]] eqn:E;
      try (simpl in Hpage; congruence).
    simpl page_items_of.
    rewrite (IH fuel (all_data ++ x :: items) (page + 1) (requested ++ [page])).
    + replace (page + 1 + Z.of_nat n) with (page + Z.of_nat (S n)) by lia.
      now rewrite <- !app_assoc.
    + intros i Hi. apply Hpages. lia.
    + replace (page + 1 + Z.of_nat n) with (page + Z.of_nat (S n)) by lia.
      exact Hlast.
    + lia.
Qed.

(** X14.  When pages 1 to [n] come back with orders and page [n + 1]
    comes back empty, unreadable or with an error, [fetch_hk_tab] returns:
    it has asked for the pages 1 to [n + 1], each once and in order, and
    what it returns are the orders of the pages 1 to [n], page after
    page. *)
Theorem fetch_hk_tab_stops_at_the_first_empty_page (n fuel : nat) :
  (forall i, 1 <= i <= Z.of_nat n -> page_items_of (request i) <> []) ->
  last_page (request (Z.of_nat n + 1)) = true ->
  (n < fuel)%nat ->
  fetch_hk_tab request fuel =
  Some (Some (flat_map (fun i => page_items_of (request i))
                       (range 1 (Z.of_nat n + 1))),
        range 1 (Z.of_nat n + 2)).
Proof.
  intros Hpages Hlast Hfuel. unfold fetch_hk_tab.
  replace (Z.of_nat n + 2) with (1 + Z.of_nat n + 1) by lia.
  replace (Z.of_nat n + 1) with (1 + Z.of_nat n) in * by lia.
  apply (@fetch_loop_spec n fuel [] 1 []); auto.
  intros i Hi. apply Hpages. lia.
Qed.

End FetchFacts.

(** ** The orders exchanged one by one *)

Section SingleTargetFacts.

Context {R : Type} {N : Number R} {O : NumberOrder R}.

Lemma hk_ids_In (hk_orders : list (Order R)) (id : string) :
  In id (hk_ids hk_orders) <-> In id (map (@orderId R) hk_orders).
Proof.
  unfold hk_ids.
  assert (H : forall (l : list (Order R)) s,
            In id (fold_left (fun ids o => set_add string_dec (orderId o) ids)
                             l s) <->
            In id s \/ In id (map (@orderId R) l)).
  { induction l as [|x l IH]; intros s; simpl; [tauto|].
    rewrite IH, set_add_iff. intuition congruence. }
  rewrite H. simpl. tauto.
Qed.

(** X15.  The orders [work] exchanges one by one are the orders of the
    all-tab file that can be exchanged, have status 1, reach the target by
    themselves and are not in the orders file of the merge; they come in
    descending order of amount; and none of them is an order of an invoice
    that [main] plans from that orders file. *)
Theorem single_targets_are_apart_from_the_plan
    (all_tab : list (TabOrder R)) (hk_orders : list (Order R))
    (progress_file : option (Progress R)) (target : R) (max_size : Z) :
  (forall t, In t (targets all_tab hk_orders target) <->
             In t all_tab /\
             ~ In (tab_orderId t) (map (@orderId R) hk_orders) /\
             tab_canHk t = true /\
             tab_ivcStatus t = "1"%string /\
             num_ge (tab_amount t) target = true) /\
  (forall a b, Before a b (targets all_tab hk_orders target) ->
               num_lt (tab_amount a) (tab_amount b) = false) /\
  exists plan,
    main_plan hk_orders progress_file target max_size = Some plan /\
    forall inv id t,
      In inv (invoices plan) -> In id (order_ids inv) ->
      In t (targets all_tab hk_orders target) ->
      tab_orderId t <> id.
Proof.
  assert (Hin : forall t, In t (targets all_tab hk_orders target) <->
             In t all_tab /\
             ~ In (tab_orderId t) (map (@orderId R) hk_orders) /\
             tab_canHk t = true /\
             tab_ivcStatus t = "1"%string /\
             num_ge (tab_amount t) target = true).
  { intros t. unfold targets. split.
    - intros H. eapply Permutation_in in H; [|apply sorted_Permutation].
      apply filter_In in H. destruct H as [H Hf].
      rewrite !andb_true_iff, negb_true_iff in Hf.
      destruct Hf as [[[Hid Hhk] Hst] Hge].
      split; [exact H|]. split.
      + intros Hmem. apply hk_ids_In in Hmem.
        apply (set_mem_correct2 string_dec) in Hmem. congruence.
      + split; [exact Hhk|]. split; [now apply String.eqb_eq|exact Hge].
    - intros (H & Hid & Hhk & Hst & Hge).
      eapply Permutation_in; [symmetry; apply sorted_Permutation|].
      apply filter_In. split; [exact H|].
      rewrite !andb_true_iff, negb_true_iff. repeat split; auto.
      + destruct (set_mem string_dec _ _) eqn:E; [|reflexivity].
        apply set_mem_correct1, hk_ids_In in E. contradiction.
      + now apply String.eqb_eq. }
  split; [exact Hin|]. split.
  - intros a b H. unfold targets in H.
    apply (@sorted_no_inversion _ _ num_lt _ ordered lt_irrefl lt_trans
             lt_cotrans) in H.
    + now rewrite lt_neg in H.
    + intros y Hy. apply filter_In in Hy. destruct Hy as [_ Hf].
      rewrite !andb_true_iff in Hf. destruct Hf as [_ Hge].
      apply neg_ordered. exact (proj1 (ge_ordered _ _ Hge)).
  - unfold main_plan.
    destruct (optimize_returns (pending_orders hk_orders progress_file)
                               target max_size) as (plan & Hrun).
    exists plan. split; [exact Hrun|].
    intros inv id t Hinv Hid Ht Heq.
    destruct (invoice_ids_from_orders _ _ _ _ _ Hrun Hinv Hid)
      as (x & Hx & _ & _ & Hxid).
    unfold pending_orders in Hx. apply filter_In in Hx. destruct Hx as [Hx _].
    apply Hin in Ht. destruct Ht as (_ & Hnot & _). apply Hnot.
    rewrite Heq, <- Hxid. now apply in_map.
Qed.

End SingleTargetFacts.

(** ** The further properties at concrete inputs *)

Lemma short_group_is_left_over_witness :
  num_lt (owner_total four_orders_float 1) 1000%float = true /\
  exists plan,
    optimize four_orders_float 1000%float 3 = Some plan /\
    dict_get (leftover plan) 1 = eligible_of four_orders_float 1 /\
    filter (fun inv => org_id inv =? 1) (invoices plan) = [].
Proof.
  split; [reflexivity|].
  apply (@short_group_is_left_over float float_Number four_orders_float
           1000%float 3 1).
  reflexivity.
Defined.

Lemma no_invoice_when_max_size_below_two_witness :
  1 < 2 /\
  optimize four_orders_float 100%float 1 =
  Some {| invoices := [];
          leftover := map (fun o => (o, eligible_of four_orders_float o))
                          (processing_order
                             (group_by_org four_orders_float)) |}.
Proof.
  split; [lia|].
  apply (@no_invoice_when_max_size_below_two float float_Number
           four_orders_float 100%float 1).
  lia.
Defined.

Lemma nothing_is_submitted_without_retries_witness :
  0 <= 0 /\ true = true /\
  (forall inv a o,
     ~ In (Submit inv a o)
          (trace (batch_merge driver_accepts still_clock true 0
                              [invoice_BD; invoice_AC] None))) /\
  completed (progress (batch_merge driver_accepts still_clock true 0
                                   [invoice_BD; invoice_AC] None)) =
    completed (load_progress None) /\
  exists newf,
    failed (progress (batch_merge driver_accepts still_clock true 0
                                  [invoice_BD; invoice_AC] None)) =
      failed (load_progress None) ++ newf /\
    Forall2 (fun inv rec => record_of inv rec /\
                            rec_message rec = EmptyString)
            (remaining_invoices [invoice_BD; invoice_AC] (load_progress None))
            newf.
Proof.
  split; [lia|]. split; [reflexivity|].
  apply (@nothing_is_submitted_without_retries Q driver_accepts still_clock
           true 0 [invoice_BD; invoice_AC] None); [lia|reflexivity].
Defined.

Lemma rerun_after_success_does_nothing_witness :
  true = true /\
  failed (progress (batch_merge driver_accepts still_clock true 2
                                [invoice_BD; invoice_AC] None)) =
    failed (load_progress None) /\
  batch_merge driver_second_try still_clock true 2 [invoice_BD; invoice_AC]
    (file (batch_merge driver_accepts still_clock true 2
                       [invoice_BD; invoice_AC] None)) =
  at_start (file (batch_merge driver_accepts still_clock true 2
                              [invoice_BD; invoice_AC] None)).
Proof.
  split; [reflexivity|]. split; [reflexivity|].
  apply (@rerun_after_success_does_nothing Q driver_accepts still_clock true 2
           driver_second_try still_clock true 2
           [invoice_BD; invoice_AC] None); reflexivity.
Defined.

Lemma user_config_example_keys : NoDup (map fst user_config_example).
Proof.
  repeat constructor; simpl; intros H;
    repeat (destruct H as [H|H]; [discriminate|]); exact H.
Defined.

Lemma deep_merge_lookup_witness :
  NoDup (map fst user_config_example) /\
  str_get (_deep_merge DEFAULT_CONFIG user_config_example) "merge" =
  match str_get user_config_example "merge" with
  | None => str_get DEFAULT_CONFIG "merge"
  | Some v =>
      match str_get DEFAULT_CONFIG "merge", v with
      | Some (JDict b), JDict o => Some (JDict (_deep_merge b o))
      | _, _ => Some v
      end
  end.
Proof.
  split; [exact user_config_example_keys|].
  exact (@deep_merge_lookup DEFAULT_CONFIG user_config_example "merge"
           user_config_example_keys).
Defined.

Lemma deep_merge_keeps_the_keys_witness :
  NoDup (map fst user_config_example) /\
  map fst (_deep_merge DEFAULT_CONFIG user_config_example) =
  map fst DEFAULT_CONFIG ++
  filter (fun k => negb (str_mem DEFAULT_CONFIG k))
         (map fst user_config_example).
Proof.
  split; [exact user_config_example_keys|].
  exact (@deep_merge_keeps_the_keys DEFAULT_CONFIG user_config_example
           user_config_example_keys).
Defined.

Lemma two_pages_have_orders :
  forall i, 1 <= i <= Z.of_nat 2 -> page_items_of (two_pages i) <> [].
Proof.
  intros i Hi. assert (E : i = 1 \/ i = 2) by lia.
  destruct E as [-> | ->]; discriminate.
Defined.

Lemma fetch_hk_tab_stops_at_the_first_empty_page_witness :
  (forall i, 1 <= i <= Z.of_nat 2 -> page_items_of (two_pages i) <> []) /\
  last_page (two_pages (Z.of_nat 2 + 1)) = true /\
  (2 < 5)%nat /\
  fetch_hk_tab two_pages 5 =
  Some (Some (flat_map (fun i => page_items_of (two_pages i))
                       (range 1 (Z.of_nat 2 + 1))),
        range 1 (Z.of_nat 2 + 2)).
Proof.
  split; [exact two_pages_have_orders|]. split; [reflexivity|].
  split; [lia|].
  apply (@fetch_hk_tab_stops_at_the_first_empty_page string two_pages 2 5);
    [exact two_pages_have_orders|reflexivity|lia].
Defined.

Lemma single_targets_are_apart_from_the_plan_witness :
  (forall t, In t (targets [single_order_E] four_orders_float 100%float) <->
             In t [single_order_E] /\
             ~ In (tab_orderId t) (map (@orderId float) four_orders_float) /\
             tab_canHk t = true /\
             tab_ivcStatus t = "1"%string /\
             num_ge (tab_amount t) 100%float = true) /\
  (forall a b,
      Before a b (targets [single_order_E] four_orders_float 100%float) ->
      num_lt (tab_amount a) (tab_amount b) = false) /\
  exists plan,
    main_plan four_orders_float None 100%float 3 = Some plan /\
    forall inv id t,
      In inv (invoices plan) -> In id (order_ids inv) ->
      In t (targets [single_order_E] four_orders_float 100%float) ->
      tab_orderId t <> id.
Proof.
  exact (@single_targets_are_apart_from_the_plan float float_Number
           float_NumberOrder
           [single_order_E] four_orders_float None 100%float 3).
Defined.

(** ** Planning again from what was left over *)

Lemma eligible_of_app {R : Type} (l l' : list (Order R)) (o : Z) :
  eligible_of (l ++ l') o = eligible_of l o ++ eligible_of l' o.
Proof. apply filter_app. Qed.

(** Grouping the leftover records again gives the leftover lists back. *)
Lemma eligible_of_leftover {R : Type} (d : dict (list (Order R))) (o : Z) :
  NoDup (map fst d) ->
  (forall o' lo x, In (o', lo) d -> In x lo ->
                   canHk x = true /\ orgId x = o') ->
  eligible_of (flat_map snd d) o = dict_get d o.
Proof.
  induction d as [|[k lo] d IH]; intros Hnd Hown; [reflexivity|].
  simpl in Hnd. inversion Hnd as [|? ? Hfresh Hrest]; subst.
  simpl flat_map. rewrite eligible_of_app. simpl dict_get.
  assert (Hlo : forall x, In x lo -> canHk x = true /\ orgId x = k)
    by (intros x Hx; apply (Hown k lo x); [now left|exact Hx]).
  assert (Hown' : forall o' lo' x, In (o', lo') d -> In x lo' ->
                                   canHk x = true /\ orgId x = o')
    by (intros o' lo' x Hin Hx; apply (Hown o' lo' x); [now right|exact Hx]).
  destruct (k =? o) eqn:E.
  - apply Z.eqb_eq in E. subst k.
    unfold eligible_of at 1. rewrite filter_all.
    + rewrite (IH Hrest Hown').
      destruct (dict_get_In d o) as [->|Hin]; [apply app_nil_r|].
      exfalso. apply Hfresh. apply in_map_iff. exists (o, dict_get d o). auto.
    + intros x Hx. destruct (Hlo x Hx) as [-> ->]. now rewrite Z.eqb_refl.
  - unfold eligible_of at 1. rewrite filter_none.
    + apply (IH Hrest Hown').
    + intros x Hx. destruct (Hlo x Hx) as [-> ->]. now rewrite E.
Qed.

(** The amounts of a sorted pool depend on the amounts of the pool
    only. *)
Lemma insert_sorted_map {A B K : Type} (lt : K -> K -> bool) (g : B -> K)
    (f : A -> B) (x : A) (l : list A) :
  map f (insert_sorted lt (fun a => g (f a)) x l) =
  insert_sorted lt g (f x) (map f l).
Proof.
  induction l as [|y l IH]; simpl; [reflexivity|].
  destruct (lt (g (f y)) (g (f x))); simpl; [now rewrite IH|reflexivity].
Qed.

Lemma sorted_map {A B K : Type} (lt : K -> K -> bool) (g : B -> K)
    (f : A -> B) (l : list A) :
  map f (sorted lt (fun a => g (f a)) l) = sorted lt g (map f l).
Proof.
  induction l as [|x l IH]; simpl; [reflexivity|].
  now rewrite insert_sorted_map, IH.
Qed.

Section SearchByAmounts.

Context {R : Type} {N : Number R}.

(** Two states of the search that agree on everything the search tests:
    the best total, the flag, and whether a best has been found. *)
Definition same_search (st st' : option (Combo R) * bound R * bool) : Prop :=
  snd (fst st) = snd (fst st') /\ snd st = snd st' /\
  (fst (fst st) = None <-> fst (fst st') = None).

Lemma try_combo_amounts (p p' : Combo R) target st st' (c : list nat) :
  map snd p = map snd p' ->
  same_search st st' ->
  same_search (try_combo p target st c) (try_combo p' target st' c).
Proof.
  intros Hp. destruct st as [[b bs] f], st' as [[b' bs'] f'].
  intros (Hbs & Hf & Hb). simpl in Hbs, Hf, Hb. subst bs' f'.
  unfold try_combo. rewrite <- Hp.
  destruct (num_ge _ target && lt_bound _ bs).
  - repeat split; simpl; discriminate.
  - repeat split; simpl; tauto.
Qed.

Lemma fold_try_combo_amounts (p p' : Combo R) target (cs : list (list nat))
    st st' :
  map snd p = map snd p' ->
  same_search st st' ->
  same_search (fold_left (try_combo p target) cs st)
              (fold_left (try_combo p' target) cs st').
Proof.
  intros Hp. revert st st'.
  induction cs as [|c cs IH]; intros st st' H; simpl; [exact H|].
  apply IH. now apply try_combo_amounts.
Qed.

Lemma size_loop_amounts (p p' : Combo R) target (sizes : list Z)
    (best best' : option (Combo R)) (bs : bound R) :
  map snd p = map snd p' ->
  (best = None <-> best' = None) ->
  (size_loop p target sizes best bs = None <->
   size_loop p' target sizes best' bs = None).
Proof.
  intros Hp. assert (Hlen : length p = length p').
  { rewrite <- (length_map snd p), Hp. apply length_map. }
  revert best best' bs.
  induction sizes as [|size rest IH]; intros best best' bs Hb; simpl;
    [exact Hb|].
  rewrite <- Hp, <- Hlen.
  destruct (num_lt _ target); [now apply IH|].
  destruct (ge_bound _ bs); [now apply IH|].
  pose proof (@fold_try_combo_amounts p p' target
                (combinations (seq 0 (length p)) (Z.to_nat size))
                (best, bs, false) (best', bs, false) Hp
                (conj eq_refl (conj eq_refl Hb))) as Hfold.
  destruct (fold_left (try_combo p target) _ _) as [[b1 bs1] f1].
  destruct (fold_left (try_combo p' target) _ _) as [[b2 bs2] f2].
  destruct Hfold as (Hbs & Hf & Hb12). simpl in Hbs, Hf, Hb12. subst bs2 f2.
  destruct (f1 && bound_lt bs1 _); [exact Hb12|now apply IH].
Qed.

(** Whether the search finds something depends on the amounts only. *)
Lemma find_best_combo_amounts (p p' : Combo R) target max_size :
  map snd p = map snd p' ->
  find_best_combo p target max_size = None ->
  find_best_combo p' target max_size = None.
Proof.
  intros Hp. unfold find_best_combo.
  assert (Hlen : length p = length p').
  { rewrite <- (length_map snd p), Hp. apply length_map. }
  rewrite <- Hlen.
  apply (@size_loop_amounts p p' target _ None None Inf Hp). tauto.
Qed.

Implicit Types (by_org : dict (list (Order R))) (plan : Plan R) (target : R).

Lemma loop_stopped_nil target max_size : loop_stopped target max_size [].
Proof.
  right. exists []. split; [reflexivity|].
  unfold find_best_combo. simpl. now rewrite range_empty by lia.
Qed.

(** A group at which the loop would stop at once brings no invoice. *)
Lemma process_org_stopped by_org target max_size plan org :
  loop_stopped target max_size (dict_get by_org org) ->
  exists plan',
    process_org by_org target max_size plan org = Some plan' /\
    invoices plan' = invoices plan.
Proof.
  intros Hstop. unfold process_org. set (pool := dict_get by_org org) in *.
  unfold pool_total.
  destruct (num_lt (py_sum (map (@ivcAmount R) pool)) target) eqn:Hlow;
    [eexists; split; reflexivity|].
  cbn [merge_loop].
  rewrite (filter_all
             (fun ia : nat * R => negb (in_used (empty_set nat) (fst ia))))
    by (intros; reflexivity).
  rewrite enumerate_snd, Hlow.
  destruct Hstop as [Hsum|(remaining & Hsnd & Hnone)]; [congruence|].
  rewrite (@find_best_combo_amounts
             (sorted num_lt (fun x : nat * R => num_neg (snd x)) remaining)
             (sorted num_lt (fun x : nat * R => num_neg (snd x))
                     (enumerate (map (@ivcAmount R) pool)))
             target max_size).
  - eexists. split; reflexivity.
  - rewrite !(sorted_map num_lt num_neg snd), enumerate_snd, Hsnd.
    reflexivity.
  - exact Hnone.
Qed.

Lemma process_orgs_stopped by_org target max_size (orgs : list Z) plan :
  (forall org, loop_stopped target max_size (dict_get by_org org)) ->
  exists plan',
    process_orgs by_org target max_size plan orgs = Some plan' /\
    invoices plan' = invoices plan.
Proof.
  intros Hstop. revert plan. induction orgs as [|org rest IH]; intros plan.
  - exists plan. split; reflexivity.
  - simpl.
    destruct (@process_org_stopped by_org target max_size plan org
                (Hstop org)) as (plan1 & -> & H1).
    destruct (IH plan1) as (plan' & Hrun & H2).
    exists plan'. split; [exact Hrun|congruence].
Qed.

(** X17.  Planning again from what a Plan leaves over brings nothing new:
    the Plan for the leftover records has no invoice.  This holds for any
    amounts and in binary64 as in any other arithmetic, because the second
    run makes the very comparisons at which the first run stopped. *)
Theorem leftovers_yield_no_further_invoice (orders : list (Order R))
    target (max_size : Z) :
  exists plan plan',
    optimize orders target max_size = Some plan /\
    optimize (leftover_orders_of plan) target max_size = Some plan' /\
    invoices plan' = [].
Proof.
  destruct (optimize_spec orders target max_size)
    as (plan & blocks & Hrun & _ & Hkeys & _).
  exists plan.
  pose proof (@process_orgs_leftover R _ _ _ _ _ _ _ Hrun (Forall_nil _))
    as Hall.
  rewrite Forall_forall in Hall.
  assert (Hown : forall o lo x, In (o, lo) (leftover plan) -> In x lo ->
                                canHk x = true /\ orgId x = o).
  { intros o lo x Hin Hx.
    destruct (leftover_from_orders _ _ _ _ _ _ Hrun Hin Hx) as (_ & H1 & H2).
    auto. }
  assert (Hstop : forall org,
            loop_stopped target max_size
              (dict_get (group_by_org (leftover_orders_of plan)) org)).
  { intros org. rewrite group_by_org_get. unfold leftover_orders_of.
    rewrite (eligible_of_leftover _ org Hkeys Hown).
    destruct (dict_get_In (leftover plan) org) as [->|Hin];
      [apply loop_stopped_nil|].
    destruct (Hall _ Hin) as [_ H]. exact H. }
  destruct (@process_orgs_stopped
              (group_by_org (leftover_orders_of plan)) target max_size
              (processing_order (group_by_org (leftover_orders_of plan)))
              {| invoices := []; leftover := [] |} Hstop)
    as (plan' & Hrun' & Hinv).
  exists plan'. split; [exact Hrun|]. split; [exact Hrun'|exact Hinv].
Qed.

End SearchByAmounts.

(** ** One owner's invoices do not depend on the other owners *)

Section OwnerLocality.

Context {R : Type} {N : Number R}.

Implicit Types (by_org : dict (list (Order R))) (plan : Plan R) (target : R).

(** The loop only ever appends to the invoices it starts from. *)
Lemma merge_loop_acc fuel org (pool : list (Order R)) (available : Combo R)
    target max_size used (invs : list (Invoice R)) :
  merge_loop fuel org pool available target max_size used invs =
  match merge_loop fuel org pool available target max_size used [] with
  | Some (u, new) => Some (u, invs ++ new)
  | None => None
  end.
Proof.
  revert used invs. induction fuel as [|fuel IH]; intros used invs;
    [reflexivity|].
  cbn [merge_loop].
  destruct (num_lt _ target); [now rewrite app_nil_r|].
  destruct (find_best_combo _ target max_size) as [combo|];
    [|now rewrite app_nil_r].
  rewrite IH. rewrite (IH _ ([] ++ _)).
  destruct (merge_loop fuel org pool available target max_size _ [])
    as [[u new]|]; [|reflexivity].
  simpl. now rewrite <- app_assoc.
Qed.

(** What visiting an owner adds depends on the owner's group only. *)
Lemma process_org_local by_org by_org' target max_size plan plan' org :
  dict_get by_org' org = dict_get by_org org ->
  exists new,
    option_map (@invoices R) (process_org by_org target max_size plan org) =
      Some (invoices plan ++ new) /\
    option_map (@invoices R) (process_org by_org' target max_size plan' org) =
      Some (invoices plan' ++ new).
Proof.
  intros Hsame.
  destruct (process_org_returns by_org target max_size plan org)
    as (p & Hp).
  revert Hp. unfold process_org. rewrite Hsame.
  destruct (num_lt _ target).
  { intros _. exists []. simpl. now rewrite !app_nil_r. }
  rewrite merge_loop_acc. rewrite (merge_loop_acc _ _ _ _ _ _ _ (invoices plan')).
  destruct (merge_loop _ _ _ _ _ _ _ []) as [[u new]|]; [|discriminate].
  intros _. exists new. split; reflexivity.
Qed.

Lemma process_orgs_app by_org target max_size plan (l1 l2 : list Z) :
  process_orgs by_org target max_size plan (l1 ++ l2) =
  match process_orgs by_org target max_size plan l1 with
  | Some p => process_orgs by_org target max_size p l2
  | None => None
  end.
Proof.
  revert plan. induction l1 as [|o l1 IH]; intros plan; simpl; [reflexivity|].
  destruct (process_org by_org target max_size plan o); [apply IH|reflexivity].
Qed.

Lemma single_key (l : list Z) (o : Z) :
  NoDup l -> In o l -> (forall k, In k l -> k = o) -> l = [o].
Proof.
  intros Hnd Hin Hall. destruct l as [|a [|b l]]; [destruct Hin| |].
  - f_equal. apply Hall. now left.
  - exfalso. inversion Hnd as [|? ? Hfresh _]; subst. apply Hfresh.
    rewrite (Hall a), (Hall b); simpl; auto.
Qed.

Lemma eligible_of_twice (orders : list (Order R)) (o : Z) :
  eligible_of (eligible_of orders o) o = eligible_of orders o.
Proof.
  unfold eligible_of. apply filter_all. intros x Hx.
  apply filter_In in Hx. tauto.
Qed.

(** X18.  The invoices of an owner depend on that owner's eligible orders
    only: they are the invoices the planner makes when it is given those
    orders alone, in the same order and with the same records. *)
Theorem owner_invoices_are_independent (orders : list (Order R)) target
    (max_size : Z) (o : Z) :
  exists plan plan_o,
    optimize orders target max_size = Some plan /\
    optimize (eligible_of orders o) target max_size = Some plan_o /\
    filter (fun inv => org_id inv =? o) (invoices plan) = invoices plan_o.
Proof.
  destruct (optimize_returns orders target max_size) as (plan & Hrun).
  destruct (optimize_returns (eligible_of orders o) target max_size)
    as (plan_o & Hrun_o).
  exists plan, plan_o. split; [exact Hrun|]. split; [exact Hrun_o|].
  unfold optimize in Hrun, Hrun_o.
  set (by_org := group_by_org orders) in *.
  set (by_org' := group_by_org (eligible_of orders o)) in *.
  assert (Hnd : NoDup (processing_order by_org)).
  { eapply Permutation_NoDup; [symmetry; apply processing_order_Permutation|].
    apply group_by_org_keys_NoDup. }
  destruct (in_dec Z.eq_dec o (processing_order by_org)) as [Hin|Hnot].
  - apply in_split in Hin. destruct Hin as (pre & post & Horgs).
    rewrite Horgs in Hrun, Hnd.
    assert (Hpre : ~ In o pre).
    { apply NoDup_remove_2 in Hnd. intros H. apply Hnd, in_or_app. now left. }
    assert (Hpost : ~ In o post).
    { apply NoDup_remove_2 in Hnd. intros H. apply Hnd, in_or_app. now right. }
    rewrite process_orgs_app in Hrun.
    destruct (process_orgs by_org target max_size _ pre) as [p1|] eqn:E1;
      [|discriminate].
    simpl in Hrun.
    destruct (process_org by_org target max_size p1 o) as [p2|] eqn:E2;
      [|discriminate].
    destruct (@process_orgs_frame R N _ _ _ _ _ _ o E1 Hpre) as (_ & F1).
    destruct (@process_orgs_frame R N _ _ _ _ _ _ o Hrun Hpost) as (_ & F2).
    simpl in F1.
    assert (Hsame : dict_get by_org' o = dict_get by_org o).
    { unfold by_org', by_org. rewrite !group_by_org_get.
      apply eligible_of_twice. }
    destruct (@process_org_local by_org by_org' target max_size p1
                {| invoices := []; leftover := [] |} o Hsame)
      as (new & Hnew & Hnew_o).
    rewrite E2 in Hnew. simpl in Hnew. injection Hnew as Hnew.
    destruct (@process_org_spec R N _ _ _ _ _ _ E2) as (new' & lo & Hinv & Hok & _).
    assert (new' = new)
      by (rewrite Hnew in Hinv; now apply app_inv_head in Hinv).
    subst new'.
    assert (Hfilter : filter (fun inv : Invoice R => org_id inv =? o) new = new).
    { apply filter_all. intros inv Hinv'. rewrite Forall_forall in Hok.
      destruct (Hok inv Hinv') as (-> & _). apply Z.eqb_refl. }
    rewrite F2, Hnew, filter_app, F1, Hfilter. simpl.
    assert (Hkeys : processing_order by_org' = [o]).
    { assert (Hperm := processing_order_Permutation by_org').
      apply single_key.
      - eapply Permutation_NoDup; [symmetry; exact Hperm|].
        apply group_by_org_keys_NoDup.
      - eapply Permutation_in; [symmetry; exact Hperm|].
        apply group_by_org_keys_In.
        assert (Ho : In o (map fst by_org)).
        { eapply Permutation_in; [apply processing_order_Permutation|].
          rewrite Horgs. apply in_or_app. right. now left. }
        apply group_by_org_keys_In in Ho.
        apply in_map_iff in Ho. destruct Ho as (x & Hx & Hxin).
        apply filter_In in Hxin. destruct Hxin as [Hxin Hhk].
        apply in_map_iff. exists x. split; [exact Hx|].
        apply filter_In. split; [|exact Hhk].
        apply filter_In. split; [exact Hxin|].
        now rewrite Hhk, Hx, Z.eqb_refl.
      - intros k Hk. eapply Permutation_in in Hk; [|exact Hperm].
        apply group_by_org_keys_In in Hk.
        apply in_map_iff in Hk. destruct Hk as (x & <- & Hxin).
        apply filter_In in Hxin. destruct Hxin as [Hxin _].
        apply filter_In in Hxin. destruct Hxin as [_ Hf].
        apply andb_true_iff in Hf. destruct Hf as [_ Hf].
        now apply Z.eqb_eq in Hf. }
    rewrite Hkeys in Hrun_o. simpl in Hrun_o.
    destruct (process_org by_org' target max_size _ o) as [q|] eqn:E3;
      [|discriminate].
    injection Hrun_o as <-. simpl in Hnew_o. now injection Hnew_o as ->.
  - destruct (@process_orgs_frame R N _ _ _ _ _ _ o Hrun Hnot) as (_ & F).
    rewrite F. simpl.
    assert (Hempty : eligible_of orders o = []).
    { apply eligible_of_absent. intros H. apply Hnot.
      eapply Permutation_in; [symmetry; apply processing_order_Permutation|].
      now apply group_by_org_keys_In. }
    unfold by_org' in Hrun_o. rewrite Hempty in Hrun_o.
    simpl in Hrun_o. now injection Hrun_o as <-.
Qed.

End OwnerLocality.

(** ** The loading rounds *)

Lemma range_snoc (lo hi : Z) : lo <= hi -> range lo (hi + 1) = range lo hi ++ [hi].
Proof.
  intros H. unfold range.
  replace (Z.to_nat (hi + 1 - lo)) with (Z.to_nat (hi - lo) + 1)%nat by lia.
  rewrite seq_app, map_app. simpl. do 2 f_equal. lia.
Qed.

Section LoadRoundsFacts.

Variable round_reply : Z -> option (Z * bool).

Local Abbreviation cards := (cards_of round_reply).
Local Abbreviation most := (most_cards_before round_reply).

Lemma most_cards_step (r : Z) :
  1 <= r -> most (r + 1) = Z.max (most r) (cards r).
Proof.
  intros H. unfold most_cards_before.
  now rewrite range_snoc, map_app, fold_left_app by lia.
Qed.

Lemma stalled_at_spec (k : Z) :
  stalled_at round_reply k = true <->
  3 <= k /\ cards (k - 2) <= most (k - 2) /\ cards (k - 1) <= most (k - 2) /\
  cards k <= most (k - 2).
Proof.
  unfold stalled_at. rewrite !andb_true_iff, !Z.leb_le. tauto.
Qed.

(** A round that shows more cards than any before it is not stalled. *)
Lemma growing_round_not_stalled (r : Z) :
  most r < cards r -> stalled_at round_reply r = false.
Proof.
  intros H. destruct (stalled_at round_reply r) eqn:E; [|reflexivity].
  apply stalled_at_spec in E. destruct E as (H3 & _ & _ & Hr).
  pose proof (most_cards_step (r := r - 2)) as H1.
  pose proof (most_cards_step (r := r - 1)) as H2.
  replace (r - 2 + 1) with (r - 1) in H1 by lia.
  replace (r - 1 + 1) with r in H2 by lia.
  lia.
Qed.

(** Fewer than three stalled rounds in a row, the round before them being
    one that showed more cards, or there being none before them. *)
Lemma short_stall_not_stalled (r stall : Z) :
  0 <= stall <= 1 -> stall <= r - 1 ->
  r - stall = 1 \/ most (r - stall - 1) < cards (r - stall - 1) ->
  stalled_at round_reply r = false.
Proof.
  intros Hs Hr Hmax. destruct (stalled_at round_reply r) eqn:E; [|reflexivity].
  apply stalled_at_spec in E. destruct E as (H3 & Ha & Hb & _).
  destruct Hmax as [Hone|Hgrew]; [lia|].
  pose proof (most_cards_step (r := r - 2)) as H1.
  replace (r - 2 + 1) with (r - 1) in H1 by lia.
  assert (Hcase : stall = 0 \/ stall = 1) by lia.
  destruct Hcase as [-> | ->].
  - replace (r - 0 - 1) with (r - 1) in Hgrew by lia. lia.
  - replace (r - 1 - 1) with (r - 2) in Hgrew by lia. lia.
Qed.

Lemma load_rounds_spec (n : nat) :
  forall (r last_count stall : Z),
    n = Z.to_nat (200 - r) -> 1 <= r <= 200 ->
    last_count = most r ->
    0 <= stall <= 2 -> stall <= r - 1 ->
    most (r - stall) = last_count ->
    (forall j, r - stall <= j < r -> cards j <= most (r - stall)) ->
    (r - stall = 1 \/ most (r - stall - 1) < cards (r - stall - 1)) ->
    (forall j, 1 <= j < r -> stops_at round_reply j = false) ->
    exists k,
      1 <= k <= 199 /\ r - 1 <= k /\
      load_rounds round_reply (range r 200) last_count stall (range 1 r) =
        (range 1 (k + 1), loop_end_at round_reply k) /\
      (forall j, 1 <= j < k -> stops_at round_reply j = false) /\
      (k < 199 -> stops_at round_reply k = true).
Proof.
  induction n as [|n IH];
    intros r last_count stall Hn Hr Hlast Hstall Hstall' Hmost Hold Hmax Hgo.
  - assert (r = 200) by lia. subst r. rewrite range_empty by lia. simpl.
    exists 199. split; [lia|]. split; [lia|].
    assert (H199 : stops_at round_reply 199 = false) by (apply Hgo; lia).
    split; [|split; [intros j Hj; apply Hgo; lia|lia]].
    unfold loop_end_at. rewrite H199.
    unfold stops_at in H199.
    destruct (round_reply 199) as [[c f]|]; [reflexivity|discriminate].
  - rewrite (range_cons (lo := r)) by lia. cbn [load_rounds].
    rewrite <- range_snoc by lia.
    destruct (round_reply r) as [[cur fin]|] eqn:Hreply.
    2:{ exists r. split; [lia|]. split; [lia|].
        split; [unfold loop_end_at; now rewrite Hreply|].
        split; [exact Hgo|]. intros _. unfold stops_at. now rewrite Hreply. }
    assert (Hcards : cards r = cur) by (unfold cards_of; now rewrite Hreply).
    assert (Hstop : stops_at round_reply r = fin || stalled_at round_reply r)
      by (unfold stops_at; now rewrite Hreply).
    assert (Hend : stops_at round_reply r = true ->
                   loop_end_at round_reply r = By_break)
      by (intros H; unfold loop_end_at; now rewrite Hreply, H).
    assert (Hhere : stops_at round_reply r = true ->
              exists k,
                1 <= k <= 199 /\ r - 1 <= k /\
                (range 1 (r + 1), By_break) =
                  (range 1 (k + 1), loop_end_at round_reply k) /\
                (forall j, 1 <= j < k -> stops_at round_reply j = false) /\
                (k < 199 -> stops_at round_reply k = true)).
    { intros H. exists r. split; [lia|]. split; [lia|].
      split; [now rewrite (Hend H)|]. split; [exact Hgo|]. intros _. exact H. }
    assert (Hnext : stops_at round_reply r = false ->
              forall j, 1 <= j < r + 1 -> stops_at round_reply j = false).
    { intros H j Hj. destruct (Z.eq_dec j r) as [->|Hne]; [exact H|].
      apply Hgo. lia. }
    destruct (last_count <? cur) eqn:Hgrow.
    + apply Z.ltb_lt in Hgrow. simpl (3 <=? 0). rewrite orb_false_r.
      assert (Hst : stalled_at round_reply r = false)
        by (apply growing_round_not_stalled; lia).
      rewrite Hst, orb_false_r in Hstop.
      destruct fin; [now apply Hhere|].
      destruct (IH (r + 1) cur 0) as (k & Hk & Hrk & Hrun & Hbefore & Hat);
        try lia.
      * rewrite most_cards_step by lia. lia.
      * rewrite Z.sub_0_r, most_cards_step by lia. lia.
      * right. replace (r + 1 - 0 - 1) with r by lia. lia.
      * now apply Hnext.
      * exists k. split; [lia|]. split; [lia|]. auto.
    + apply Z.ltb_ge in Hgrow.
      assert (Hsame : most (r + 1) = last_count)
        by (rewrite most_cards_step by lia; lia).
      destruct fin; simpl orb; [apply Hhere; now rewrite Hstop|].
      simpl in Hstop.
      destruct (3 <=? stall + 1) eqn:Hthree.
      * apply Z.leb_le in Hthree. assert (stall = 2) by lia. subst stall.
        apply Hhere. rewrite Hstop. apply stalled_at_spec.
        split; [lia|]. split; [apply Hold; lia|].
        split; [apply Hold; lia|]. rewrite Hcards, Hmost. exact Hgrow.
      * apply Z.leb_gt in Hthree.
        assert (Hst : stalled_at round_reply r = false)
          by (apply (@short_stall_not_stalled r stall); [lia|lia|exact Hmax]).
        rewrite Hst in Hstop.
        destruct (IH (r + 1) last_count (stall + 1))
          as (k & Hk & Hrk & Hrun & Hbefore & Hat); try lia.
        -- replace (r + 1 - (stall + 1)) with (r - stall) by lia.
           exact Hmost.
        -- replace (r + 1 - (stall + 1)) with (r - stall) by lia.
           intros j Hj. destruct (Z.eq_dec j r) as [->|Hne].
           ++ rewrite Hcards, Hmost. exact Hgrow.
           ++ apply Hold. lia.
        -- replace (r + 1 - (stall + 1)) with (r - stall) by lia.
           exact Hmax.
        -- now apply Hnext.
        -- exists k. split; [lia|]. split; [lia|]. auto.
Qed.

(** X19.  The loading loop of [fetch_all_tab] asks for the rounds 1, 2,
    ... in order and is left at the first round, 199 at the latest, that
    raises, reports that the page has finished, or is the third round in a
    row that showed no more cards than had been seen before the three.
    No round before that one raised or stopped the loop, that round is the
    last one asked, and the loop is left by the exception when the round
    raised, by [break] when it stopped the loop, and by the end of the
    range otherwise, which is the case at round 199 only. *)
Theorem loading_stops_after_three_stalled_rounds :
  exists k,
    1 <= k <= 199 /\
    load_all round_reply = (range 1 (k + 1), loop_end_at round_reply k) /\
    (forall j, 1 <= j < k -> stops_at round_reply j = false) /\
    (k < 199 -> stops_at round_reply k = true).
Proof.
  unfold load_all.
  change (@nil Z) with (range 1 1).
  assert (H : exists k,
             1 <= k <= 199 /\ 1 - 1 <= k /\
             load_rounds round_reply (range 1 200) 0 0 (range 1 1) =
               (range 1 (k + 1), loop_end_at round_reply k) /\
             (forall j, 1 <= j < k -> stops_at round_reply j = false) /\
             (k < 199 -> stops_at round_reply k = true)).
  { apply (@load_rounds_spec 199 1 0 0); try lia; reflexivity. }
  destruct H as (k & Hk & _ & Hrun & Hbefore & Hat).
  exists k. auto.
Qed.

End LoadRoundsFacts.
